(** * Google Drive Upload (Raycast extension): a shallow embedding

    The development follows the layout of the extension:
    - [Text]      string helpers of the JavaScript runtime the code relies on
                  ([split], [join], [includes], [trim], truthiness);
    - [Auth]      lib/auth.ts: token refresh and the stored accounts;
    - [FileUtils] lib/file-utils.ts: flattening a Finder selection;
    - [Drive]     lib/google-drive.ts: folders and uploads with retry;
    - [Upload]    upload-file.tsx: the [handleUpload] batch.

    A string of the runtime is kept as the bytes of its UTF-8 encoding;
    promises are run to completion, a rejected promise being the [Throw]
    of an error message.  Everything the extension reaches over the network or the
    operating system (token endpoint, Drive, file system, clipboard) is
    explicit state or an explicit answer handed to the function. *)

From Stdlib Require Import String Ascii List Arith Lia Sorted Permutation.
From stdpp Require Import base list strings gmap pretty.

Open Scope string_scope.
Open Scope list_scope.

(** ** Errors *)

(** A settled promise: a value, or the message of the [Error] it rejected
    with.  The code only ever inspects [error.message]. *)
Inductive Result (A : Type) : Type :=
| Ok (a : A)
| Throw (msg : string).
Arguments Ok {A} a.
Arguments Throw {A} msg.

(** The message every 401 is turned into. *)
Definition AUTHENTICATION_EXPIRED : string := "AUTHENTICATION_EXPIRED".

Definition is_Ok {A} (r : Result A) : bool :=
  match r with Ok _ => true | Throw _ => false end.

(** ** JavaScript string helpers *)
Module Text.

(** [s.split("/")]: never empty, the empty string gives one empty part. *)
Fixpoint split_slash (s : string) : list string :=
  match s with
  | EmptyString => [EmptyString]
  | String c rest =>
      if Ascii.eqb c "/"%char then EmptyString :: split_slash rest
      else match split_slash rest with
           | [] => [String c EmptyString]
           | part :: parts => String c part :: parts
           end
  end.

(** [parts.join("/")]. *)
Fixpoint join_slash (parts : list string) : string :=
  match parts with
  | [] => EmptyString
  | [p] => p
  | p :: rest => p +:+ "/" +:+ join_slash rest
  end.

(** A string is truthy when it is not empty. *)
Definition truthy (s : string) : bool :=
  match s with EmptyString => false | String _ _ => true end.

(** [haystack.includes(needle)]. *)
Fixpoint includes (haystack needle : string) : bool :=
  String.prefix needle haystack
  || match haystack with
     | EmptyString => false
     | String _ rest => includes rest needle
     end.

(** [name.startsWith(".")]. *)
Definition startsWith_dot (name : string) : bool :=
  match name with
  | String c _ => Ascii.eqb c "."%char
  | EmptyString => false
  end.

(** The string of the given bytes. *)
Definition bytes (codes : list nat) : string :=
  fold_right (fun n s => String (ascii_of_nat n) s) EmptyString codes.

(** The characters [trim] removes, in UTF-8: the white space and the line
    terminators of ECMAScript.  These are tab, line feed, vertical tab,
    form feed, carriage return and space; U+00A0; U+1680; U+2000 to
    U+200A; U+2028 and U+2029; U+202F; U+205F; U+3000; U+FEFF. *)
Definition white_space : list string :=
  [ bytes [9]; bytes [10]; bytes [11]; bytes [12]; bytes [13]; bytes [32];
    bytes [194; 160];
    bytes [225; 154; 128];
    bytes [226; 128; 128]; bytes [226; 128; 129]; bytes [226; 128; 130];
    bytes [226; 128; 131]; bytes [226; 128; 132]; bytes [226; 128; 133];
    bytes [226; 128; 134]; bytes [226; 128; 135]; bytes [226; 128; 136];
    bytes [226; 128; 137]; bytes [226; 128; 138];
    bytes [226; 128; 168]; bytes [226; 128; 169];
    bytes [226; 128; 175];
    bytes [226; 129; 159];
    bytes [227; 128; 128];
    bytes [239; 187; 191] ].

(** One white-space character. *)
Definition is_white (s : string) : bool := existsb (String.eqb s) white_space.

(** [s.trimStart()]: a white-space character takes one, two or three
    bytes. *)
Fixpoint trim_start (s : string) : string :=
  match s with
  | EmptyString => EmptyString
  | String c1 r1 =>
      if is_white (String c1 EmptyString) then trim_start r1
      else match r1 with
           | EmptyString => s
           | String c2 r2 =>
               if is_white (String c1 (String c2 EmptyString)) then trim_start r2
               else match r2 with
                    | EmptyString => s
                    | String c3 r3 =>
                        if is_white (String c1 (String c2 (String c3 EmptyString)))
                        then trim_start r3
                        else s
                    end
           end
  end.

(** [s.trimEnd()]: what is kept of the rest, with the character in front,
    unless that is one white-space character as a whole. *)
Fixpoint trim_end (s : string) : string :=
  match s with
  | EmptyString => EmptyString
  | String c rest =>
      let kept := String c (trim_end rest) in
      if is_white kept then EmptyString else kept
  end.

(** [s.trim()]. *)
Definition trim (s : string) : string := trim_end (trim_start s).

(** [s.trim()] is truthy. *)
Definition trim_truthy (s : string) : bool := truthy (trim s).

(** No ["/"] inside. *)
Fixpoint slash_free (s : string) : Prop :=
  match s with
  | EmptyString => True
  | String c rest => c <> "/"%char /\ slash_free rest
  end.

End Text.

(** ** lib/auth.ts *)
Module Auth.
Import Text.

(** [GoogleAccount] of lib/types.ts. *)
Record GoogleAccount := {
  acct_id : string;
  acct_email : string;
  acct_name : option string;
  acct_accessToken : string;
  acct_providerId : string;
}.

(** [StoredAccounts] of lib/types.ts. *)
Record StoredAccounts := {
  accounts : list GoogleAccount;
  defaultAccountId : option string;
}.

(** The value kept under ["google-drive-accounts"] in [LocalStorage]
    ([None]: nothing stored yet).  [JSON.stringify] followed by
    [JSON.parse] gives the record back, an [undefined] default being a
    missing key on the way. *)
Definition LocalStorage := option StoredAccounts.

Definition getStoredAccounts (ls : LocalStorage) : StoredAccounts :=
  match ls with
  | None => {| accounts := []; defaultAccountId := None |}
  | Some stored => stored
  end.

(** [removeAccount]: the storage after the call. *)
Definition removeAccount (accountId : string) (ls : LocalStorage) : LocalStorage :=
  let stored := getStoredAccounts ls in
  let remaining := filter (fun a => acct_id a <> accountId) (accounts stored) in
  let default' :=
    if decide (defaultAccountId stored = Some accountId)
    then match remaining with
         | first :: _ => Some (acct_id first)
         | [] => None
         end
    else defaultAccountId stored in
  Some {| accounts := remaining; defaultAccountId := default' |}.

(** The accounts flagged default: those whose id is the stored default. *)
Definition flagged_default (stored : StoredAccounts) : list GoogleAccount :=
  filter (fun a => Some (acct_id a) = defaultAccountId stored) (accounts stored).

(** What an [OAuth.PKCEClient] hands back from [getTokens]. *)
Record TokenSet := {
  accessToken : string;
  refreshToken : option string;
  isExpired : bool;
}.

(** [OAuth.TokenResponse], the fields the code touches. *)
Record TokenResponse := {
  access_token : string;
  refresh_token : option string;
}.

(** Token sets kept by Raycast, one per provider id. *)
Abbreviation TokenStore := (gmap string TokenSet).

(** The answer of the token endpoint to a refresh request.
    [Rejected status errorText errorField]: a response that is not [ok];
    [errorField] is [Some e] when [JSON.parse(errorText)] succeeds and its
    [error] member is the string [e], and [None] when parsing throws or
    there is no such member.  [NetworkFailure msg]: [fetch] itself rejects. *)
Inductive RefreshAnswer :=
| Refreshed (t : TokenResponse)
| Rejected (status : nat) (errorText : string) (errorField : option string)
| NetworkFailure (msg : string).

Definition refresh_default_message : string :=
  "Failed to refresh access token. Please re-authenticate your account.".
Definition refresh_expired_message : string :=
  "Authentication expired. Please re-authenticate your account.".

(** [refreshTokens]. *)
Definition refreshTokens (refreshTok : string) (answer : RefreshAnswer)
  : Result TokenResponse :=
  match answer with
  | NetworkFailure msg => Throw msg
  | Rejected _ _ errorField =>
      let errorMessage :=
        match errorField with
        | Some e =>
            if String.eqb e "invalid_grant" || String.eqb e "invalid_token"
            then refresh_expired_message
            else refresh_default_message
        | None => refresh_default_message
        end in
      Throw errorMessage
  | Refreshed t =>
      Ok {| access_token := access_token t;
            refresh_token := match refresh_token t with
                             | Some r => Some r
                             | None => Some refreshTok
                             end |}
  end.

(** [client.setTokens(response)]: the client keeps the new pair; a token
    just issued is not expired. *)
Definition setTokens (providerId : string) (t : TokenResponse) (store : TokenStore)
  : TokenStore :=
  <[providerId := {| accessToken := access_token t;
                     refreshToken := refresh_token t;
                     isExpired := false |}]> store.

(** [getValidAccessToken]: the settled result and the token store after
    the call.  [answer] is what the token endpoint replies if it is asked. *)
Definition getValidAccessToken (account : GoogleAccount) (store : TokenStore)
    (answer : RefreshAnswer) : Result string * TokenStore :=
  match store !! acct_providerId account with
  | Some tokenSet =>
      if truthy (accessToken tokenSet) then
        match refreshToken tokenSet with
        | Some refreshTok =>
            if truthy refreshTok && isExpired tokenSet then
              match refreshTokens refreshTok answer with
              | Ok refreshedTokens =>
                  let store' := setTokens (acct_providerId account) refreshedTokens store in
                  (Ok (match store' !! acct_providerId account with
                       | Some updated =>
                           if truthy (accessToken updated) then accessToken updated
                           else EmptyString
                       | None => EmptyString
                       end), store')
              | Throw errorMessage =>
                  if includes errorMessage "invalid_grant"
                     || includes errorMessage "invalid_token"
                  then (Throw AUTHENTICATION_EXPIRED, store)
                  else (Throw errorMessage, store)
              end
            else (Ok (accessToken tokenSet), store)
        | None => (Ok (accessToken tokenSet), store)
        end
      else (Throw AUTHENTICATION_EXPIRED, store)
  | None => (Throw AUTHENTICATION_EXPIRED, store)
  end.

End Auth.

(** ** lib/types.ts: files and folders *)
Module Types.

Record GoogleDriveFile := {
  gfile_id : string;
  gfile_name : string;
  gfile_mimeType : string;
  gfile_webViewLink : option string;
  gfile_parents : list string;
}.

Record GoogleDriveFolder := {
  gfolder_id : string;
  gfolder_name : string;
  gfolder_webViewLink : option string;
  gfolder_parents : list string;
}.

Record UploadResult := {
  success : bool;
  file : option GoogleDriveFile;
  error : option string;
  localPath : string;
}.

Record FileMetadata := {
  file_path : string;
  file_name : string;
  file_size : nat;
  file_mimeType : string;
  file_isDirectory : bool;
  relativePath : option string;
}.

End Types.

(** ** lib/file-utils.ts *)
Module FileUtils.
Import Text Types.

(** *** The local file system

    A tree, as [readdirSync] with [withFileTypes] shows it: an entry is a
    regular file, a directory (which may refuse to be listed), or anything
    else (symbolic link, socket, device), for which both [isFile()] and
    [isDirectory()] are false.  Entry names are in listing order. *)
#[local] Unset Elimination Schemes.
Inductive node :=
| RegularFile (size : nat)
| Directory (readable : bool) (entries : list (string * node))
| Other.
#[local] Set Elimination Schemes.

(** An absolute path as its segments; the root is [[]]. *)
Abbreviation segments := (list string).

(** The segments of an absolute path string: slashes separate, repeated
    and trailing slashes do not count (Finder writes a selected folder as
    ["/Users/a/photos/"]).  Selections are taken free of ["."] and [".."]
    segments, as Finder produces them. *)
Definition parse_path (p : string) : segments :=
  List.filter truthy (split_slash p).

(** The string of a normalised absolute path. *)
Definition render (segs : segments) : string := "/" +:+ join_slash segs.

Fixpoint find_entry (name : string) (entries : list (string * node)) : option node :=
  match entries with
  | [] => None
  | (n, child) :: rest => if String.eqb n name then Some child else find_entry name rest
  end.

Fixpoint lookup_node (n : node) (segs : segments) : option node :=
  match segs with
  | [] => Some n
  | seg :: rest =>
      match n with
      | Directory _ entries =>
          match find_entry seg entries with
          | Some child => lookup_node child rest
          | None => None
          end
      | _ => None
      end
  end.

(** [statSync(path)]; [None] when it throws. *)
Definition statSync (fs : node) (p : string) : option node :=
  lookup_node fs (parse_path p).

(** [isDirectory]. *)
Definition isDirectory (fs : node) (p : string) : bool :=
  match statSync fs p with
  | Some (Directory _ _) => true
  | _ => false
  end.

(** *** The path module of the runtime, on normalised absolute paths *)

(** [dirname] of an absolute path: the parent, the root being its own. *)
Definition dirname_segs (segs : segments) : segments := removelast segs.

(** [basename]. *)
Definition basename_segs (segs : segments) : string := List.last segs EmptyString.

(** [join(dirPath, name)]. *)
Definition join_segs (dirPath : segments) (name : string) : segments := dirPath ++ [name].

(** [relative(from, to)]: drop the common prefix, climb out of what is
    left of [from]. *)
Fixpoint relative_segs (from to : segments) : segments :=
  match from, to with
  | f :: from', t :: to' =>
      if String.eqb f t then relative_segs from' to'
      else repeat ".." (length from) ++ to
  | [], _ => to
  | _ :: _, [] => repeat ".." (length from)
  end.

Definition relative (from to : segments) : string :=
  join_slash (relative_segs from to).

(** [dirname] on any string, as posix [dirname] scans it from the end:
    trailing slashes are skipped, then the last name, up to the slash in
    front of it; the first character is never looked at. *)
Fixpoint skip_slashes (rev_chars : list ascii) : list ascii :=
  match rev_chars with
  | c :: rest => if Ascii.eqb c "/"%char then skip_slashes rest else rev_chars
  | [] => []
  end.

Fixpoint skip_name (rev_chars : list ascii) : list ascii :=
  match rev_chars with
  | c :: rest => if Ascii.eqb c "/"%char then rev_chars else skip_name rest
  | [] => []
  end.

Definition dirname (p : string) : string :=
  match p with
  | EmptyString => "."
  | String c0 tail =>
      let hasRoot := Ascii.eqb c0 "/"%char in
      match skip_name (skip_slashes (rev (list_ascii_of_string tail))) with
      | [] => if hasRoot then "/" else "."
      | _slash :: before =>
          match before with
          | [] => if hasRoot then "//" else String c0 EmptyString
          | _ => String c0 (string_of_list_ascii (rev before))
          end
      end
  end.

(** *** Flattening *)
Section Flatten.

(** [mime.lookup] of the mime-types package: a table from outside the
    repository. *)
Variable mime_lookup : string -> option string.

(** What [getFileMetadata] builds once [statSync] has answered [n];
    [shown] is the path string, [segs] its segments. *)
Definition metadata (shown : string) (segs : segments) (basePath : option segments)
    (n : node) : FileMetadata :=
  {| file_path := shown;
     file_name := basename_segs segs;
     file_size := match n with RegularFile sz => sz | _ => 0 end;
     file_mimeType := match mime_lookup shown with
                      | Some m => if truthy m then m else "application/octet-stream"
                      | None => "application/octet-stream"
                      end;
     file_isDirectory := match n with Directory _ _ => true | _ => false end;
     relativePath := match basePath with
                     | Some base => Some (relative base segs)
                     | None => None
                     end |}.

(** [getFileMetadata]: [statSync] throws on a path that is not there. *)
Definition getFileMetadata (fs : node) (p : string) (basePath : option segments)
  : Result FileMetadata :=
  match statSync fs p with
  | Some n => Ok (metadata p (parse_path p) basePath n)
  | None => Throw ("ENOENT: no such file or directory, stat '" +:+ p +:+ "'")
  end.

(** [walkDirectory], on the directory node found at [dirPath].  The
    recursion follows the tree: listing [join(dirPath, entry.name)] gives
    the entries of that child, and [statSync] of a listed file answers
    with that file.  A directory that cannot be listed makes
    [readdirSync] throw, which the [catch] turns into no files. *)
Fixpoint walkNode (n : node) (dirPath base : segments) {struct n} : list FileMetadata :=
  match n with
  | Directory true entries =>
      (fix walkEntries (es : list (string * node)) : list FileMetadata :=
         match es with
         | [] => []
         | (name, child) :: es' =>
             let fullPath := join_segs dirPath name in
             (if startsWith_dot name then []
              else match child with
                   | Directory _ _ => walkNode child fullPath base
                   | RegularFile _ =>
                       [metadata (render fullPath) fullPath (Some base) child]
                   | Other => []
                   end)
             ++ walkEntries es'
         end) entries
  | _ => []
  end.

(** [walkDirectory(dirPath, basePath)]. *)
Definition walkDirectory (fs : node) (dirPath : segments) (basePath : option segments)
  : list FileMetadata :=
  let base := match basePath with Some b => b | None => dirPath end in
  match lookup_node fs dirPath with
  | Some n => walkNode n dirPath base
  | None => []
  end.

(** [getAllFiles]: one selected path after the other; a selected path
    that is neither a directory nor there makes the whole call throw. *)
Fixpoint getAllFiles_from (fs : node) (paths : list string) (allFiles : list FileMetadata)
  : Result (list FileMetadata) :=
  match paths with
  | [] => Ok allFiles
  | p :: rest =>
      if isDirectory fs p then
        let dirFiles := walkDirectory fs (parse_path p) (Some (dirname_segs (parse_path p))) in
        getAllFiles_from fs rest (allFiles ++ dirFiles)
      else
        match getFileMetadata fs p None with
        | Ok m => getAllFiles_from fs rest (allFiles ++ [m])
        | Throw e => Throw e
        end
  end.

Definition getAllFiles (fs : node) (paths : list string) : Result (list FileMetadata) :=
  getAllFiles_from fs paths [].

End Flatten.

(** *** [extractFolderStructure] *)

(** The [Map<string, string[]>] in insertion order; every value stays the
    empty array. *)
Abbreviation Structure := (list (string * list string)).

Definition has_key (k : string) (structure : Structure) : bool :=
  existsb (fun kv => String.eqb (fst kv) k) structure.

Definition set_if_absent (k : string) (structure : Structure) : Structure :=
  if has_key k structure then structure else structure ++ [(k, [])].

(** The inner loop over [parts]. *)
Fixpoint add_prefixes (parts : list string) (currentPath : string)
    (structure : Structure) : Structure :=
  match parts with
  | [] => structure
  | part :: rest =>
      let currentPath' :=
        if truthy currentPath then currentPath +:+ "/" +:+ part else part in
      add_prefixes rest currentPath' (set_if_absent currentPath' structure)
  end.

Definition add_file (structure : Structure) (f : FileMetadata) : Structure :=
  match relativePath f with
  | Some rel =>
      if truthy rel then
        let dir := dirname rel in
        if truthy dir && negb (String.eqb dir ".")
        then add_prefixes (split_slash dir) EmptyString structure
        else structure
      else structure
  | None => structure
  end.

Definition extractFolderStructure (files : list FileMetadata) : Structure :=
  fold_left add_file files [].

End FileUtils.

(** ** The world outside the extension *)
Module Env.
Import Types.

(** How one HTTP request ends: a response that is [ok], a response with
    an error status and its text, or no response ([fetch] rejects). *)
Inductive Http (A : Type) : Type :=
| HttpOk (body : A)
| HttpError (status : nat) (errorText : string)
| FetchFailed (msg : string).
Arguments HttpOk {A} body.
Arguments HttpError {A} status errorText.
Arguments FetchFailed {A} msg.

(** What the code does to the outside, in order. *)
Inductive Event :=
| EvSearch (folderName parent : string)
| EvCreate (folderName : string) (parentFolderId : option string)
| EvUpload (filePath fileName : string) (parentFolderId : option string)
| EvPermission (fileId : string)
| EvSleep (milliseconds : nat).

(** Drive as the code sees it: the folders it holds (each with its
    trashed flag, in the order listings report them) and, per kind of
    request, how the next requests will end.  A created folder gets the id
    carried by the answer; an uploaded file is the one carried by the
    answer.  When a list of answers is used up the network is down. *)
Record World := {
  remote : list (GoogleDriveFolder * bool);
  searchNet : list (Http unit);
  createNet : list (Http string);
  uploadNet : list (Http GoogleDriveFile);
  permissionNet : list (Http unit);
  trace : list Event;
}.

Definition network_down : string := "request failed".

Definition log (e : Event) (w : World) : World :=
  {| remote := remote w; searchNet := searchNet w; createNet := createNet w;
     uploadNet := uploadNet w; permissionNet := permissionNet w;
     trace := trace w ++ [e] |}.

Definition set_searchNet (answers : list (Http unit)) (w : World) : World :=
  {| remote := remote w; searchNet := answers; createNet := createNet w;
     uploadNet := uploadNet w; permissionNet := permissionNet w;
     trace := trace w |}.

Definition set_createNet (answers : list (Http string)) (w : World) : World :=
  {| remote := remote w; searchNet := searchNet w; createNet := answers;
     uploadNet := uploadNet w; permissionNet := permissionNet w;
     trace := trace w |}.

Definition set_uploadNet (answers : list (Http GoogleDriveFile)) (w : World) : World :=
  {| remote := remote w; searchNet := searchNet w; createNet := createNet w;
     uploadNet := answers; permissionNet := permissionNet w;
     trace := trace w |}.

Definition set_permissionNet (answers : list (Http unit)) (w : World) : World :=
  {| remote := remote w; searchNet := searchNet w; createNet := createNet w;
     uploadNet := uploadNet w; permissionNet := answers;
     trace := trace w |}.

(** The next answer of each kind, taken off its list. *)
Definition next_search (w : World) : Http unit * World :=
  match searchNet w with
  | [] => (FetchFailed network_down, w)
  | a :: rest => (a, set_searchNet rest w)
  end.

Definition next_create (w : World) : Http string * World :=
  match createNet w with
  | [] => (FetchFailed network_down, w)
  | a :: rest => (a, set_createNet rest w)
  end.

Definition next_upload (w : World) : Http GoogleDriveFile * World :=
  match uploadNet w with
  | [] => (FetchFailed network_down, w)
  | a :: rest => (a, set_uploadNet rest w)
  end.

Definition next_permission (w : World) : Http unit * World :=
  match permissionNet w with
  | [] => (FetchFailed network_down, w)
  | a :: rest => (a, set_permissionNet rest w)
  end.

Definition store_folder (f : GoogleDriveFolder) (w : World) : World :=
  {| remote := remote w ++ [(f, false)]; searchNet := searchNet w;
     createNet := createNet w; uploadNet := uploadNet w;
     permissionNet := permissionNet w; trace := trace w |}.

(** An asynchronous function: it runs in a world and settles. *)
Definition Async (A : Type) : Type := World -> Result A * World.

Definition resolve {A} (a : A) : Async A := fun w => (Ok a, w).
Definition reject {A} (msg : string) : Async A := fun w => (Throw msg, w).

(** [await]: a rejection leaves the rest undone. *)
Definition await {A B} (m : Async A) (k : A -> Async B) : Async B :=
  fun w =>
    match m w with
    | (Ok a, w') => k a w'
    | (Throw msg, w') => (Throw msg, w')
    end.

(** [try { await m } catch (error) { handler }]. *)
Definition try_catch {A} (m : Async A) (handler : string -> Async A) : Async A :=
  fun w =>
    match m w with
    | (Ok a, w') => (Ok a, w')
    | (Throw msg, w') => handler msg w'
    end.

Definition sleep (milliseconds : nat) : Async unit :=
  fun w => (Ok tt, log (EvSleep milliseconds) w).

End Env.

Declare Scope async_scope.
Delimit Scope async_scope with async.
Notation "x <- m ;; k" := (Env.await m (fun x => k))
  (at level 100, m at next level, right associativity) : async_scope.

(** ** lib/google-drive.ts *)
Module Drive.
Import Text Types Env.

Definition folderMimeType : string := "application/vnd.google-apps.folder".

(** [uploadFile]: one multipart request. *)
Definition uploadFile (filePath fileName mimeType accessToken : string)
    (parentFolderId : option string) : Async GoogleDriveFile :=
  fun w =>
    let '(answer, w') := next_upload (log (EvUpload filePath fileName parentFolderId) w) in
    match answer with
    | HttpOk uploaded => (Ok uploaded, w')
    | HttpError status errorText =>
        if Nat.eqb status 401 then (Throw AUTHENTICATION_EXPIRED, w')
        else (Throw ("Failed to upload file: " +:+ pretty status +:+ " " +:+ errorText), w')
    | FetchFailed msg => (Throw msg, w')
    end.

(** The parent a folder request names: the given id when it is truthy,
    the root otherwise. *)
Definition parent_or_root (parentFolderId : option string) : string :=
  match parentFolderId with
  | Some p => if truthy p then p else "root"
  | None => "root"
  end.

(** [createFolder]. *)
Definition createFolder (folderName accessToken : string)
    (parentFolderId : option string) : Async GoogleDriveFolder :=
  fun w =>
    let '(answer, w') := next_create (log (EvCreate folderName parentFolderId) w) in
    match answer with
    | HttpOk newId =>
        let created := {| gfolder_id := newId; gfolder_name := folderName;
                          gfolder_webViewLink := None;
                          gfolder_parents := [parent_or_root parentFolderId] |} in
        (Ok created, store_folder created w')
    | HttpError status errorText =>
        if Nat.eqb status 401 then (Throw AUTHENTICATION_EXPIRED, w')
        else (Throw ("Failed to create folder: " +:+ pretty status +:+ " " +:+ errorText), w')
    | FetchFailed msg => (Throw msg, w')
    end.

(** What Drive lists for the query of [ensureFolder]: the folders with
    that name, not trashed, with that parent, in listing order. *)
Definition matches (folderName parent : string) (entry : GoogleDriveFolder * bool) : bool :=
  String.eqb (gfolder_name (fst entry)) folderName
  && negb (snd entry)
  && existsb (String.eqb parent) (gfolder_parents (fst entry)).

Definition search (folderName parent : string) (w : World) : list GoogleDriveFolder :=
  map fst (List.filter (matches folderName parent) (remote w)).

(** [ensureFolder]. *)
Definition ensureFolder (folderName accessToken : string)
    (parentFolderId : option string) : Async GoogleDriveFolder :=
  fun w =>
    let parent := parent_or_root parentFolderId in
    let '(answer, w') := next_search (log (EvSearch folderName parent) w) in
    match answer with
    | HttpOk _ =>
        match search folderName parent w' with
        | found :: _ => (Ok found, w')
        | [] => createFolder folderName accessToken parentFolderId w'
        end
    | HttpError status _ =>
        if Nat.eqb status 401 then (Throw AUTHENTICATION_EXPIRED, w')
        else createFolder folderName accessToken parentFolderId w'
    | FetchFailed msg => (Throw msg, w')
    end.

(** [makeFilePublic]. *)
Definition makeFilePublic (fileId accessToken : string) : Async unit :=
  fun w =>
    let '(answer, w') := next_permission (log (EvPermission fileId) w) in
    match answer with
    | HttpOk _ => (Ok tt, w')
    | HttpError status errorText =>
        (Throw ("Failed to make file public: " +:+ pretty status +:+ " " +:+ errorText), w')
    | FetchFailed msg => (Throw msg, w')
    end.

(** The [for] loop of [uploadFileWithRetry], entered with [attempt] and
    [remaining = maxRetries - attempt] rounds to go. *)
Fixpoint retry_from (filePath fileName mimeType accessToken : string)
    (parentFolderId : option string) (maxRetries : nat)
    (remaining attempt : nat) (lastError : option string) : Async GoogleDriveFile :=
  match remaining with
  | 0 =>
      match lastError with
      | Some msg => reject msg
      | None => reject "Upload failed after retries"
      end
  | S remaining' =>
      fun w =>
        match uploadFile filePath fileName mimeType accessToken parentFolderId w with
        | (Ok uploadedFile, w1) =>
            let '(_, w2) := try_catch (makeFilePublic (gfile_id uploadedFile) accessToken)
                                      (fun _ => resolve tt) w1 in
            (Ok uploadedFile, w2)
        | (Throw msg, w1) =>
            let w2 := if Nat.ltb attempt (maxRetries - 1)
                      then snd (sleep (2 ^ attempt * 1000) w1)
                      else w1 in
            retry_from filePath fileName mimeType accessToken parentFolderId maxRetries
                       remaining' (S attempt) (Some msg) w2
        end
  end.

(** [uploadFileWithRetry]; [maxRetries] defaults to 3. *)
Definition uploadFileWithRetry (filePath fileName mimeType accessToken : string)
    (parentFolderId : option string) (maxRetries : nat) : Async GoogleDriveFile :=
  retry_from filePath fileName mimeType accessToken parentFolderId maxRetries
             maxRetries 0 None.

Definition defaultMaxRetries : nat := 3.

End Drive.

(** ** upload-file.tsx: [handleUpload] *)
Module Upload.
Import Text Types Env FileUtils Drive.
Local Open Scope async_scope.

(** [folderIdMap]: relative directory path to remote folder id. *)
Abbreviation FolderIdMap := (gmap string string).

(** [a.split("/").length]. *)
Definition depth (folderPath : string) : nat := length (split_slash folderPath).

(** [sort((a, b) => aDepth - bDepth)]: the sort of the runtime is stable,
    and a stable sort by depth is this insertion sort. *)
Fixpoint insert_by_depth (x : string) (sorted : list string) : list string :=
  match sorted with
  | [] => [x]
  | y :: rest =>
      if Nat.leb (depth x) (depth y) then x :: y :: rest
      else y :: insert_by_depth x rest
  end.

Fixpoint sort_by_depth (l : list string) : list string :=
  match l with
  | [] => []
  | x :: rest => insert_by_depth x (sort_by_depth rest)
  end.

(** [Array.from(folderStructure.keys()).sort(...)]. *)
Definition sortedFolders (files : list FileMetadata) : list string :=
  sort_by_depth (map fst (extractFolderStructure files)).

(** [parts.length > 1 ? parts.slice(0, -1).join("/") : "."]. *)
Definition parentPath_of (folderPath : string) : string :=
  let parts := split_slash folderPath in
  if Nat.ltb 1 (length parts) then join_slash (removelast parts) else ".".

(** [parts[parts.length - 1]]. *)
Definition folderNamePart_of (folderPath : string) : string :=
  List.last (split_slash folderPath) EmptyString.

(** The loop over [sortedFolders]: a rejection of [ensureFolder] leaves
    the loop, and the whole batch. *)
Fixpoint build_folders (accessToken : string) (folderPaths : list string)
    (folderIdMap : FolderIdMap) : Async FolderIdMap :=
  match folderPaths with
  | [] => resolve folderIdMap
  | folderPath :: rest =>
      let parentId := folderIdMap !! parentPath_of folderPath in
      folder <- ensureFolder (folderNamePart_of folderPath) accessToken parentId ;;
      build_folders accessToken rest (<[folderPath := gfolder_id folder]> folderIdMap)
  end.

(** The map [handleUpload] starts from. *)
Definition initial_map (folderId : string) : FolderIdMap :=
  if String.eqb folderId "root" then ∅ else {[ "." := folderId ]}.

(** [files.some((f) => f.relativePath && dirname(f.relativePath) !== ".")]. *)
Definition needsStructure (files : list FileMetadata) : bool :=
  existsb (fun f => match relativePath f with
                    | Some rel => truthy rel && negb (String.eqb (dirname rel) ".")
                    | None => false
                    end) files.

(** Lines 272-307: the folder index of the batch. *)
Definition build_hierarchy (accessToken folderId : string) (hasFolders : bool)
    (files : list FileMetadata) : Async FolderIdMap :=
  if needsStructure files && hasFolders
  then build_folders accessToken (sortedFolders files) (initial_map folderId)
  else resolve (initial_map folderId).

(** The parent a file is uploaded under. *)
Definition parent_of_file (folderId : string) (hasFolders : bool)
    (folderIdMap : FolderIdMap) (f : FileMetadata) : option string :=
  let parentId := if String.eqb folderId "root" then None else Some folderId in
  match relativePath f with
  | Some rel =>
      if truthy rel && hasFolders then
        let fileDir := dirname rel in
        match folderIdMap !! fileDir with
        | Some mapped => if negb (String.eqb fileDir ".") then Some mapped else parentId
        | None => parentId
        end
      else parentId
  | None => parentId
  end.

Definition succeeded (uploaded : GoogleDriveFile) (f : FileMetadata) : UploadResult :=
  {| success := true; file := Some uploaded; error := None; localPath := file_path f |}.

Definition failed_with (msg : string) (f : FileMetadata) : UploadResult :=
  {| success := false; file := None; error := Some msg; localPath := file_path f |}.

(** Lines 310-346: the loop over [files]; the [catch] inside the loop
    turns every rejection into a failed result. *)
Fixpoint upload_files (accessToken folderId : string) (hasFolders : bool)
    (folderIdMap : FolderIdMap) (files : list FileMetadata)
    (results : list UploadResult) : Async (list UploadResult) :=
  match files with
  | [] => resolve results
  | f :: rest =>
      outcome <- try_catch
                   (uploadedFile <- uploadFileWithRetry (file_path f) (file_name f)
                                      (file_mimeType f) accessToken
                                      (parent_of_file folderId hasFolders folderIdMap f)
                                      defaultMaxRetries ;;
                    resolve (succeeded uploadedFile f))
                   (fun msg => resolve (failed_with msg f)) ;;
      upload_files accessToken folderId hasFolders folderIdMap rest (results ++ [outcome])
  end.

(** The toast, without its title (which only repeats the counts). *)
Inductive ToastStyle := Animated | Success | Failure.

Record Toast := {
  style : ToastStyle;
  message : option string;
}.

(** What the user is left with: the toast and what was copied to the
    clipboard. *)
Record Report := {
  toast : Toast;
  copied : option string;
}.

Definition uploaded_to (folderName : string) : string :=
  if truthy folderName then "Uploaded to " +:+ folderName else "Upload complete".

Definition folderUrl (folderId : string) : string :=
  "https://drive.google.com/drive/folders/" +:+ folderId.

(** [results[0].file?.webViewLink], when it is truthy and not blank. *)
Definition first_link (results : list UploadResult) : option string :=
  match results with
  | r :: _ =>
      match file r with
      | Some uploaded =>
          match gfile_webViewLink uploaded with
          | Some link => if truthy link && trim_truthy link then Some link else None
          | None => None
          end
      | None => None
      end
  | [] => None
  end.

(** Lines 357-401.  [clipboardWorks]: [Clipboard.copy] does not throw. *)
Definition report (folderId folderName : string) (clipboardWorks : bool)
    (results : list UploadResult) : Report :=
  let successful := length (List.filter success results) in
  let failed := length (List.filter (fun r => negb (success r)) results) in
  if Nat.eqb failed 0 then
    let wanted :=
      match (if Nat.eqb successful 1 then first_link results else None) with
      | Some link => Some (link, "Link copied to clipboard")
      | None =>
          if negb (String.eqb folderId "root") && truthy folderId
          then Some (folderUrl folderId, "Folder link copied to clipboard")
          else None
      end in
    match wanted with
    | Some (link, note) =>
        if clipboardWorks
        then {| toast := {| style := Success; message := Some note |};
                copied := Some link |}
        else {| toast := {| style := Success; message := Some (uploaded_to folderName) |};
                copied := None |}
    | None =>
        {| toast := {| style := Success; message := Some (uploaded_to folderName) |};
           copied := None |}
    end
  else if Nat.ltb 0 successful then
    {| toast := {| style := Success; message := Some "Some files could not be uploaded" |};
       copied := None |}
  else
    {| toast := {| style := Failure;
                   message := Some ("All " +:+ pretty failed +:+ " file"
                                    +:+ (if Nat.ltb 1 failed then "s" else EmptyString)
                                    +:+ " failed") |};
       copied := None |}.

(** How a call of [handleUpload] ends. *)
Inductive Outcome :=
| NoAccount
| Finished (results : list UploadResult) (shown : Report)
| Aborted (shown : Toast).

(** [handleUpload(folderId, folderName)].  [account] and [files] are the
    component state; [tokens] and [refreshAnswer] are what
    [getValidAccessToken] meets; [selectedPaths] is what Finder reports
    when the upload starts, [fs] the disk at that time. *)
Definition handleUpload (account : option Auth.GoogleAccount)
    (files : list FileMetadata) (tokens : gmap string Auth.TokenSet)
    (refreshAnswer : Auth.RefreshAnswer) (fs : node) (selectedPaths : list string)
    (clipboardWorks : bool) (folderId folderName : string)
  : World -> Outcome * World :=
  fun w =>
    match account with
    | None => (NoAccount, w)
    | Some acc =>
        let body : Async (list UploadResult) :=
          accessToken <- (fun w0 => (fst (Auth.getValidAccessToken acc tokens refreshAnswer), w0)) ;;
          let hasFolders := existsb (isDirectory fs) selectedPaths in
          folderIdMap <- build_hierarchy accessToken folderId hasFolders files ;;
          upload_files accessToken folderId hasFolders folderIdMap files [] in
        match body w with
        | (Ok results, w') =>
            (Finished results (report folderId folderName clipboardWorks results), w')
        | (Throw errorMessage, w') =>
            (Aborted {| style := Failure;
                        message := if truthy errorMessage && trim_truthy errorMessage
                                   then Some errorMessage else None |}, w')
        end
    end.

End Upload.

(** ** lib/auth.ts: the account store and the interactive flow *)
Module Accounts.
Import Text Auth Env.

(** [GoogleUserInfo] of lib/types.ts, the members the code reads; a
    missing [sub] is the empty string. *)
Record GoogleUserInfo := {
  info_sub : string;
  info_email : string;
  info_name : option string;
}.

(** [getUserInfo], on the answer of the userinfo endpoint. *)
Definition getUserInfo (answer : Http GoogleUserInfo) : Result GoogleUserInfo :=
  match answer with
  | HttpOk info => Ok info
  | HttpError _ _ =>
      Throw "Failed to get user information from Google. Please try again."
  | FetchFailed msg => Throw msg
  end.

(** [!stored.defaultAccountId]. *)
Definition no_default (stored : StoredAccounts) : bool :=
  match defaultAccountId stored with
  | Some d => negb (truthy d)
  | None => true
  end.

(** [findIndex((a) => a.id === id)] and the write at that index, or the
    [push]. *)
Definition upsert (account : GoogleAccount) (l : list GoogleAccount) : list GoogleAccount :=
  match list_find (fun a => acct_id a = acct_id account) l with
  | Some (existingIndex, _) => <[existingIndex := account]> l
  | None => l ++ [account]
  end.

(** [addAccount]: the settled result and the storage after the call. *)
Definition addAccount (accessToken providerId : string) (answer : Http GoogleUserInfo)
    (ls : LocalStorage) : Result GoogleAccount * LocalStorage :=
  match getUserInfo answer with
  | Throw msg => (Throw msg, ls)
  | Ok userInfo =>
      let accountId :=
        if truthy (info_sub userInfo) then info_sub userInfo else info_email userInfo in
      let account := {| acct_id := accountId; acct_email := info_email userInfo;
                        acct_name := info_name userInfo;
                        acct_accessToken := accessToken;
                        acct_providerId := providerId |} in
      let stored := getStoredAccounts ls in
      let accounts' := upsert account (accounts stored) in
      let default' :=
        if Nat.eqb (length accounts') 1 && no_default stored
        then Some (acct_id account) else defaultAccountId stored in
      (Ok account, Some {| accounts := accounts'; defaultAccountId := default' |})
  end.

(** [getAccounts]. *)
Definition getAccounts (ls : LocalStorage) : list GoogleAccount :=
  accounts (getStoredAccounts ls).

(** [saveAccounts]. *)
Definition saveAccounts (l : list GoogleAccount) (ls : LocalStorage) : LocalStorage :=
  Some {| accounts := l; defaultAccountId := defaultAccountId (getStoredAccounts ls) |}.

(** [getDefaultAccount]. *)
Definition getDefaultAccount (ls : LocalStorage) : option GoogleAccount :=
  let stored := getStoredAccounts ls in
  if no_default stored then head (accounts stored)
  else match defaultAccountId stored with
       | Some d => List.find (fun a => String.eqb (acct_id a) d) (accounts stored)
       | None => None
       end.

(** [setDefaultAccount]. *)
Definition setDefaultAccount (accountId : string) (ls : LocalStorage) : LocalStorage :=
  Some {| accounts := accounts (getStoredAccounts ls); defaultAccountId := Some accountId |}.

(** [fetchTokens], on the answer of the token endpoint. *)
Definition fetchTokens (exchange : Http TokenResponse) : Result TokenResponse :=
  match exchange with
  | HttpOk t => Ok t
  | HttpError _ _ => Throw "Failed to authenticate with Google. Please try again."
  | FetchFailed msg => Throw msg
  end.

(** [authorize(client)] for the client of [providerId].  [consent] is how
    the interactive step in the browser ends (the authorization code, or
    the error it rejects with), [exchange] what the token endpoint answers
    to the code, [refreshAnswer] what it answers to a refresh. *)
Definition authorize (providerId : string) (store : gmap string TokenSet)
    (refreshAnswer : RefreshAnswer) (consent : Result string)
    (exchange : Http TokenResponse) : Result string * gmap string TokenSet :=
  let interactive :=
    match consent with
    | Throw msg => (Throw msg, store)
    | Ok authorizationCode =>
        match fetchTokens exchange with
        | Throw msg => (Throw msg, store)
        | Ok tokenResponse =>
            (Ok (access_token tokenResponse), setTokens providerId tokenResponse store)
        end
    end in
  match store !! providerId with
  | Some tokenSet =>
      if truthy (accessToken tokenSet) then
        match refreshToken tokenSet with
        | Some refreshTok =>
            if truthy refreshTok && isExpired tokenSet then
              match refreshTokens refreshTok refreshAnswer with
              | Ok refreshed =>
                  let store' := setTokens providerId refreshed store in
                  (Ok (match store' !! providerId with
                       | Some updated =>
                           if truthy (accessToken updated) then accessToken updated
                           else EmptyString
                       | None => EmptyString
                       end), store')
              | Throw msg => (Throw msg, store)
              end
            else (Ok (accessToken tokenSet), store)
        | None => (Ok (accessToken tokenSet), store)
        end
      else interactive
  | None => interactive
  end.

(** The provider id made from [Date.now()]. *)
Definition provider_at (now : nat) : string := "google-drive-" +:+ pretty now.

(** [reAuthenticateAccount(account)], with the clock reading [now];
    [info] answers the [getUserInfo] of the function itself, [info']
    the one inside [addAccount] when the account is not stored. *)
Definition reAuthenticateAccount (account : GoogleAccount) (now : nat)
    (store : gmap string TokenSet) (refreshAnswer : RefreshAnswer)
    (consent : Result string) (exchange : Http TokenResponse)
    (info info' : Http GoogleUserInfo) (ls : LocalStorage)
  : Result GoogleAccount * gmap string TokenSet * LocalStorage :=
  let providerId := provider_at now in
  match authorize providerId store refreshAnswer consent exchange with
  | (Throw msg, store') => (Throw msg, store', ls)
  | (Ok token, store') =>
      match getUserInfo info with
      | Throw msg => (Throw msg, store', ls)
      | Ok userInfo =>
          let stored := getStoredAccounts ls in
          match list_find (fun a => acct_id a = acct_id account) (accounts stored) with
          | Some (accountIndex, _) =>
              let updated := {| acct_id := acct_id account;
                                acct_email := info_email userInfo;
                                acct_name := info_name userInfo;
                                acct_accessToken := token;
                                acct_providerId := providerId |} in
              (Ok updated, store',
               Some {| accounts := <[accountIndex := updated]> (accounts stored);
                       defaultAccountId := defaultAccountId stored |})
          | None =>
              let '(added, ls') := addAccount token providerId info' ls in
              (added, store', ls')
          end
      end
  end.

End Accounts.

(** ** lib/folder-storage.ts *)
Module FolderStorage.
Import Text.

Record DefaultFolder := {
  folder_id : string;
  folder_name : string;
  folder_accountId : string;
}.

(** The value kept under ["default-folder"] in [LocalStorage]. *)
Definition Stored := option DefaultFolder.

(** [setDefaultFolder]. *)
Definition setDefaultFolder (folder : DefaultFolder) (st : Stored) : Stored := Some folder.

(** [getDefaultFolder(accountId?)]. *)
Definition getDefaultFolder (accountId : option string) (st : Stored) : option DefaultFolder :=
  match st with
  | None => None
  | Some folder =>
      match accountId with
      | Some a =>
          if truthy a && negb (String.eqb (folder_accountId folder) a) then None
          else Some folder
      | None => Some folder
      end
  end.

End FolderStorage.

(** ** lib/google-drive.ts: listing folders and their paths *)
Module FolderList.
Import Text Types Env.

(** One page of the listing: [files] (a missing member is the empty
    list) and [nextPageToken]. *)
Record Page := {
  page_files : list GoogleDriveFolder;
  nextPageToken : option string;
}.

(** The [do ... while (pageToken)] of [listFolders]: each round takes the
    next answer of the network; the result and the answers left over. *)
Fixpoint listFolders_from (answers : list (Http Page)) (allFolders : list GoogleDriveFolder)
  : Result (list GoogleDriveFolder) * list (Http Page) :=
  match answers with
  | [] => (Throw network_down, [])
  | answer :: rest =>
      match answer with
      | HttpOk data =>
          let allFolders' := allFolders ++ page_files data in
          match nextPageToken data with
          | Some pageToken =>
              if truthy pageToken then listFolders_from rest allFolders'
              else (Ok allFolders', rest)
          | None => (Ok allFolders', rest)
          end
      | HttpError status errorText =>
          if Nat.eqb status 401 then (Throw AUTHENTICATION_EXPIRED, rest)
          else (Throw ("Failed to list folders: " +:+ pretty status +:+ " " +:+ errorText),
                rest)
      | FetchFailed msg => (Throw msg, rest)
      end
  end.

(** [listFolders]. *)
Definition listFolders (accessToken : string) (answers : list (Http Page))
  : Result (list GoogleDriveFolder) * list (Http Page) :=
  listFolders_from answers [].

(** [parts.join(sep)]. *)
Fixpoint join_with (sep : string) (parts : list string) : string :=
  match parts with
  | [] => EmptyString
  | [p] => p
  | p :: rest => p +:+ sep +:+ join_with sep rest
  end.

(** [folder.parents?.[0]]. *)
Definition first_parent (folder : GoogleDriveFolder) : option string :=
  head (gfolder_parents folder).

(** The [for] loop of [buildFolderPath] with [rounds] rounds to go: the
    names gathered and the id the loop stopped at. *)
Fixpoint climb (folderMap : gmap string GoogleDriveFolder) (rounds : nat)
    (currentId : option string) (pathParts : list string)
  : list string * option string :=
  match rounds with
  | 0 => (pathParts, currentId)
  | S rounds' =>
      match currentId with
      | Some current =>
          if truthy current && negb (String.eqb current "root") then
            match folderMap !! current with
            | Some parentFolder =>
                climb folderMap rounds' (first_parent parentFolder)
                      (gfolder_name parentFolder :: pathParts)
            | None => (pathParts, currentId)
            end
          else (pathParts, currentId)
      | None => (pathParts, currentId)
      end
  end.

Definition maxLevels : nat := 10.

(** The parts [buildFolderPath] joins, for a folder of the map. *)
Definition folderPath_parts (folderMap : gmap string GoogleDriveFolder)
    (folder : GoogleDriveFolder) : list string :=
  let '(pathParts, currentId) := climb folderMap maxLevels (first_parent folder) [] in
  if Nat.eqb (length pathParts) 0
     && bool_decide (first_parent folder = Some "root")
  then ["My Drive"]
  else if Nat.ltb 0 (length pathParts) && bool_decide (currentId = Some "root")
       then "My Drive" :: pathParts
       else pathParts.

(** [buildFolderPath]. *)
Definition buildFolderPath (folderId : string) (folderMap : gmap string GoogleDriveFolder)
  : string :=
  match folderMap !! folderId with
  | None => EmptyString
  | Some folder => join_with " > " (folderPath_parts folderMap folder)
  end.

End FolderList.

(** ** lib/file-utils.ts: the selection of Finder, sizes *)
Module Finder.
Import Text Types.

Definition newline : ascii := ascii_of_nat 10.

(** [s.split(sep)] for a one-character separator. *)
Fixpoint split_on (sep : ascii) (s : string) : list string :=
  match s with
  | EmptyString => [EmptyString]
  | String c rest =>
      if Ascii.eqb c sep then EmptyString :: split_on sep rest
      else match split_on sep rest with
           | [] => [String c EmptyString]
           | part :: parts => String c part :: parts
           end
  end.

(** [getSelectedFinderFiles], on how the AppleScript ends: its text, or
    an error. *)
Definition getSelectedFinderFiles (script : Result string) : list string :=
  match script with
  | Throw _ => []
  | Ok result =>
      if negb (truthy result) || negb (truthy (trim result)) then []
      else List.filter (fun p => Nat.ltb 0 (String.length p))
                       (split_on newline (trim result))
  end.

(** [getTotalSize]. *)
Definition getTotalSize (files : list FileMetadata) : nat :=
  fold_left (fun total f => total + file_size f) files 0.

End Finder.

(** ** Statements the code is compared with *)
Module Policy.
Import Text Types Env FileUtils Drive Upload.

(** The link policy in words: a link is surfaced only when every unit
    succeeded.  Then a batch of exactly one unit gives the link of its
    file, if the file has a link that is not blank; any other batch, and a
    single file without link, gives the link of the destination folder
    when that is a real folder (neither the root nor empty); and there is
    no link otherwise. *)
Definition real_folder (folderId : string) : bool :=
  negb (String.eqb folderId "root") && truthy folderId.

Definition folder_link (folderId : string) : option string :=
  if real_folder folderId
  then Some ("https://drive.google.com/drive/folders/" +:+ folderId)
  else None.

(** The shareable link of an outcome: the link of its uploaded file, when
    something of it is left after trimming. *)
Definition shareable_link (outcome : UploadResult) : option string :=
  match file outcome with
  | Some uploaded =>
      match gfile_webViewLink uploaded with
      | Some link => if truthy (trim link) then Some link else None
      | None => None
      end
  | None => None
  end.

Definition chosenLink_policy (folderId : string) (results : list UploadResult)
  : option string :=
  if forallb success results then
    match results with
    | [only] =>
        match shareable_link only with
        | Some link => Some link
        | None => folder_link folderId
        end
    | _ => folder_link folderId
    end
  else None.

(** What [uploadFile] settles with on an answer. *)
Definition upload_result (answer : Http GoogleDriveFile) : Result GoogleDriveFile :=
  match answer with
  | HttpOk uploaded => Ok uploaded
  | HttpError status errorText =>
      if Nat.eqb status 401 then Throw AUTHENTICATION_EXPIRED
      else Throw ("Failed to upload file: " +:+ pretty status +:+ " " +:+ errorText)
  | FetchFailed msg => Throw msg
  end.

(** One time-unit of the backoff: a second, in milliseconds. *)
Definition time_unit : nat := 1000.

(** A failed upload request: an error status, or no response. *)
Inductive UploadFailure :=
| FailedStatus (status : nat) (errorText : string)
| NoResponse (msg : string).

Definition failure_answer (e : UploadFailure) : Http GoogleDriveFile :=
  match e with
  | FailedStatus status errorText => HttpError status errorText
  | NoResponse msg => FetchFailed msg
  end.

(** The message of the error [uploadFile] throws on it. *)
Definition failure_text (e : UploadFailure) : string :=
  match e with
  | FailedStatus status errorText =>
      if Nat.eqb status 401 then AUTHENTICATION_EXPIRED
      else "Failed to upload file: " +:+ pretty status +:+ " " +:+ errorText
  | NoResponse msg => msg
  end.

(** What the network has in store for one unit: three failed requests in
    a row, or some failed requests and then the uploaded file. *)
Inductive Fate :=
| Exhausts (e1 e2 e3 : UploadFailure)
| Succeeds (before : list UploadFailure) (uploaded : GoogleDriveFile).

(** A unit succeeds within the three attempts. *)
Definition within_attempts (fate : Fate) : Prop :=
  match fate with
  | Exhausts _ _ _ => True
  | Succeeds before _ => length before < defaultMaxRetries
  end.

Definition upload_answers (fate : Fate) : list (Http GoogleDriveFile) :=
  match fate with
  | Exhausts e1 e2 e3 => [failure_answer e1; failure_answer e2; failure_answer e3]
  | Succeeds before uploaded => map failure_answer before ++ [HttpOk uploaded]
  end.

Definition exhausted (fate : Fate) : bool :=
  match fate with Exhausts _ _ _ => true | Succeeds _ _ => false end.

(** The outcome expected for a unit: failed with its last error, or
    succeeded with the uploaded file. *)
Definition outcome_of (planned : FileMetadata * Fate) : UploadResult :=
  match snd planned with
  | Exhausts _ _ e3 =>
      {| success := false; file := None; error := Some (failure_text e3);
         localPath := file_path (fst planned) |}
  | Succeeds _ uploaded =>
      {| success := true; file := Some uploaded; error := None;
         localPath := file_path (fst planned) |}
  end.

(** A unit and its fate are matched by an outcome: the outcome is under
    the local path of the unit; for a unit that exhausts its attempts it
    is marked failed and carries the error of the last attempt and no
    file; for a unit that is uploaded it is marked succeeded and carries
    the uploaded file and no error. *)
Definition recorded_as (planned : FileMetadata * Fate) (outcome : UploadResult) : Prop :=
  localPath outcome = file_path (fst planned)
  /\ match snd planned with
     | Exhausts _ _ e3 =>
         success outcome = false /\ file outcome = None
         /\ error outcome = Some (failure_text e3)
     | Succeeds _ uploaded =>
         success outcome = true /\ file outcome = Some uploaded
         /\ error outcome = None
     end.

Definition is_upload_attempt (e : Event) : bool :=
  match e with EvUpload _ _ _ => true | _ => false end.

Definition is_sleep (e : Event) : bool :=
  match e with EvSleep _ => true | _ => false end.

(** The world after the best-effort [makeFilePublic]. *)
Definition after_permission (fileId : string) (w : World) : World :=
  snd (next_permission (log (EvPermission fileId) w)).

(** What [uploadFileWithRetry] settles with for a unit of a given fate. *)
Definition fate_result (fate : Fate) : Result GoogleDriveFile :=
  match fate with
  | Exhausts _ _ e3 => Throw (failure_text e3)
  | Succeeds _ uploaded => Ok uploaded
  end.

(** *** Files found under a directory *)

(** Induction on the tree, with the hypothesis for every entry of a
    directory. *)
Fixpoint node_tree_ind (P : node -> Prop)
    (Hfile : forall sz, P (RegularFile sz))
    (Hdir : forall readable entries,
        Forall (fun entry => P (snd entry)) entries -> P (Directory readable entries))
    (Hother : P Other) (n : node) {struct n} : P n :=
  match n with
  | RegularFile sz => Hfile sz
  | Directory readable entries =>
      Hdir readable entries
        ((fix all (es : list (string * node)) : Forall (fun entry => P (snd entry)) es :=
            match es with
            | [] => @Stdlib.Lists.List.Forall_nil _ _
            | (name, child) :: es' =>
                @Stdlib.Lists.List.Forall_cons _ (fun entry => P (snd entry)) (name, child) es'
                  (node_tree_ind P Hfile Hdir Hother child) (all es')
            end) entries)
  | Other => Hother
  end.

(** A regular file of [size] is found under a directory at the names
    [rest]: every directory on the way can be listed and no name on the
    way, the file name included, begins with a dot. *)
Inductive visible_file : node -> segments -> nat -> Prop :=
| visible_entry entries name size :
    In (name, RegularFile size) entries ->
    startsWith_dot name = false ->
    visible_file (Directory true entries) [name] size
| visible_below entries name readable sub rest size :
    In (name, Directory readable sub) entries ->
    startsWith_dot name = false ->
    visible_file (Directory readable sub) rest size ->
    visible_file (Directory true entries) (name :: rest) size.

(** The same files, listed in the order of the walk. *)
Fixpoint visible_files (n : node) {struct n} : list (segments * nat) :=
  match n with
  | Directory true entries =>
      (fix below (es : list (string * node)) : list (segments * nat) :=
         match es with
         | [] => []
         | (name, child) :: es' =>
             (if startsWith_dot name then []
              else match child with
                   | Directory _ _ =>
                       map (fun found => (name :: fst found, snd found)) (visible_files child)
                   | RegularFile size => [([name], size)]
                   | Other => []
                   end)
             ++ below es'
         end) entries
  | _ => []
  end.

(** What the inner loop of [visible_files] lists for the entries of a
    directory. *)
Definition listed (entry : string * node) : list (segments * nat) :=
  if startsWith_dot (fst entry) then []
  else match snd entry with
       | Directory _ _ =>
           map (fun found => (fst entry :: fst found, snd found)) (visible_files (snd entry))
       | RegularFile size => [([fst entry], size)]
       | Other => []
       end.

(** No directory of the tree lists a name twice. *)
#[local] Unset Elimination Schemes.
Inductive unique_names : node -> Prop :=
| unique_file size : unique_names (RegularFile size)
| unique_other : unique_names Other
| unique_dir readable entries :
    NoDup (map fst entries) ->
    Forall (fun entry => unique_names (snd entry)) entries ->
    unique_names (Directory readable entries).
#[local] Set Elimination Schemes.

(** The unit of the file found at [rest] under the directory [dirPath],
    with relative paths taken from [base]. *)
Definition unit_at (mime_lookup : string -> option string) (dirPath base : segments)
    (found : segments * nat) : FileMetadata :=
  metadata mime_lookup (render (dirPath ++ fst found)) (dirPath ++ fst found)
           (Some base) (RegularFile (snd found)).

(** What one selected path contributes to the flattened selection. *)
Definition contribution_of (mime_lookup : string -> option string) (fs : node)
    (p : string) : list FileMetadata :=
  match statSync fs p with
  | Some (Directory readable entries) =>
      map (unit_at mime_lookup (parse_path p) (dirname_segs (parse_path p)))
          (visible_files (Directory readable entries))
  | Some n => [metadata mime_lookup p (parse_path p) None n]
  | None => []
  end.

(** The units a selected path stands for.  A plain file: one unit, under
    its own path, without relative path.  A directory: one unit for each
    file found under it (no file twice when names are unique), whose
    relative path starts with the name of the directory and goes on with
    the names down to the file. *)
Definition flattened_as (mime_lookup : string -> option string) (fs : node)
    (p : string) (units : list FileMetadata) : Prop :=
  match statSync fs p with
  | Some (Directory readable entries) =>
      exists found : list (segments * nat),
        units = map (unit_at mime_lookup (parse_path p) (dirname_segs (parse_path p))) found
        /\ (forall rest size,
              In (rest, size) found <-> visible_file (Directory readable entries) rest size)
        /\ (unique_names (Directory readable entries) -> NoDup (map fst found))
        /\ (forall parent name,
              parse_path p = parent ++ [name] ->
              Forall (fun file =>
                        let u := unit_at mime_lookup (parse_path p)
                                   (dirname_segs (parse_path p)) file in
                        file_path u = render (parent ++ name :: fst file)
                        /\ relativePath u = Some (join_slash (name :: fst file))
                        /\ head (split_slash (join_slash (name :: fst file))) = Some name)
                     found)
  | Some (RegularFile size) =>
      exists u, units = [u] /\ file_path u = p /\ relativePath u = None
                /\ file_size u = size
  | Some Other => exists u, units = [u]
  | None => False
  end.

(** *** The folder hierarchy *)

(** One path is at most as deep as the other. *)
Definition depth_le (a b : string) : Prop := depth a <= depth b.

(** The number of path separators in a path. *)
Fixpoint separators (folderPath : string) : nat :=
  match folderPath with
  | EmptyString => 0
  | String c rest => (if Ascii.eqb c "/"%char then 1 else 0) + separators rest
  end.

(** One path has at most as many separators as the other. *)
Definition shallower (a b : string) : Prop := separators a <= separators b.

(** The parent of a folder path is the destination root, or one of
    [keys], and less deep. *)
Definition parent_known (keys : list string) (folderPath : string) : Prop :=
  parentPath_of folderPath = "."
  \/ (In (parentPath_of folderPath) keys
      /\ depth (parentPath_of folderPath) < depth folderPath).

(** Every derived path is one name, or [parent/name] with [parent] a
    derived path as well. *)
Definition parent_listed (keys : list string) (folderPath : string) : Prop :=
  slash_free folderPath
  \/ exists parent name,
       folderPath = parent +:+ "/" +:+ name /\ slash_free name /\ In parent keys.

(** A path given from the root of the selection: it does not begin with
    a slash. *)
Definition is_relative (dir : string) : Prop :=
  head (split_slash dir) <> Some EmptyString.

End Policy.

(** ** Further statements the code is compared with *)
Module Statements.
Import Text Auth Types Env FileUtils Drive Upload Policy Accounts FolderList Finder.

(** A well-formed account store: no id twice; no default without
    accounts; with accounts, the default is the id of one of them. *)
Definition well_formed (stored : StoredAccounts) : Prop :=
  NoDup (map acct_id (accounts stored))
  /\ (accounts stored = [] -> defaultAccountId stored = None)
  /\ (accounts stored <> [] ->
      exists d, defaultAccountId stored = Some d /\ In d (map acct_id (accounts stored))).

(** The chain of folders from [currentId] up to the root of the drive,
    with the names on the way, topmost first. *)
Inductive ancestors (folderMap : gmap string GoogleDriveFolder)
  : option string -> list string -> Prop :=
| at_root : ancestors folderMap (Some "root") []
| below_folder current folder names :
    truthy current = true ->
    current <> "root" ->
    folderMap !! current = Some folder ->
    ancestors folderMap (first_parent folder) names ->
    ancestors folderMap (Some current) (names ++ [gfolder_name folder]).

(** The names on the way to the root, if the root is met within [fuel]
    steps. *)
Fixpoint names_to_root (folderMap : gmap string GoogleDriveFolder) (fuel : nat)
    (currentId : option string) : option (list string) :=
  match currentId with
  | None => None
  | Some current =>
      if String.eqb current "root" then Some []
      else match fuel with
           | 0 => None
           | S fuel' =>
               if truthy current then
                 match folderMap !! current with
                 | Some folder =>
                     match names_to_root folderMap fuel' (first_parent folder) with
                     | Some names => Some (names ++ [gfolder_name folder])
                     | None => None
                     end
                 | None => None
                 end
               else None
           end
  end.

(** A page that announces another one, and the last page. *)
Definition page_with_token (files : list GoogleDriveFolder) (pageToken : string)
  : Http Page :=
  HttpOk {| page_files := files; nextPageToken := Some pageToken |}.

Definition last_page (files : list GoogleDriveFolder) : Http Page :=
  HttpOk {| page_files := files; nextPageToken := None |}.

(** The text the AppleScript returns for a list of paths: one per line. *)
Fixpoint join_lines (paths : list string) : string :=
  match paths with
  | [] => EmptyString
  | [p] => p
  | p :: rest => p +:+ String newline (join_lines rest)
  end.

(** No line feed inside. *)
Fixpoint one_line (s : string) : Prop :=
  match s with
  | EmptyString => True
  | String c rest => c <> newline /\ one_line rest
  end.

(** The string is not empty and does not begin with a white-space
    character. *)
Definition starts_clean (s : string) : Prop :=
  s <> EmptyString
  /\ forall space rest, In space white_space -> s <> space +:+ rest.

(** The string is not empty and does not end with a white-space
    character. *)
Definition ends_clean (s : string) : Prop :=
  s <> EmptyString
  /\ forall front space, In space white_space -> s <> front +:+ space.

(** The first and the last byte of a string. *)
Definition first_byte (s : string) : option ascii :=
  match s with
  | EmptyString => None
  | String c _ => Some c
  end.

Fixpoint last_byte (s : string) : option ascii :=
  match s with
  | EmptyString => None
  | String c EmptyString => Some c
  | String _ rest => last_byte rest
  end.




(** A world without its answers to permission requests. *)
Definition forget_permissions (w : World) : World := set_permissionNet [] w.

(** What of the world concerns folders, and what concerns uploads. *)
Definition folders_side (w : World)
  : list (GoogleDriveFolder * bool) * list (Http unit) * list (Http string) :=
  (remote w, searchNet w, createNet w).

Definition uploads_side (w : World) : list (Http GoogleDriveFile) * list (Http unit) :=
  (uploadNet w, permissionNet w).

(** The upload attempts made so far. *)
Definition upload_attempts (w : World) : list Event :=
  List.filter is_upload_attempt (trace w).

(** The world [ensureFolder] hands to [createFolder], or ends in. *)
Definition searched (folderName parent : string) (w : World) : World :=
  snd (next_search (log (EvSearch folderName parent) w)).

(** What the folder loop leaves for a path, in the terms of the loop:
    the index maps the path to a folder that is on Drive and not trashed,
    with the name and the parent the loop asked for. *)
Definition placed (index : gmap string string) (drive : list (GoogleDriveFolder * bool))
    (folderPath : string) : Prop :=
  exists folder,
    index !! folderPath = Some (gfolder_id folder)
    /\ In (folder, false) drive
    /\ gfolder_name folder = folderNamePart_of folderPath
    /\ In (parent_or_root (index !! parentPath_of folderPath)) (gfolder_parents folder).

(** The folder a batch is uploaded to: the chosen folder, or the root of
    the drive when that is chosen or nothing is. *)
Definition destination (folderId : string) : string :=
  if String.eqb folderId "root" then "root"
  else match folderId with
       | EmptyString => "root"
       | _ => folderId
       end.

(** A folder path is mirrored on Drive.  The index maps it to the id of a
    folder that is on Drive and not trashed.  For a path of one name, the
    folder bears that name and lies in the destination.  For a path
    [parent/name], the folder bears the name [name] and lies in the folder
    the index has for [parent] (an empty id standing for the root of the
    drive). *)
Definition mirrors (folderId : string) (index : gmap string string)
    (drive : list (GoogleDriveFolder * bool)) (folderPath : string) : Prop :=
  exists folder,
    index !! folderPath = Some (gfolder_id folder)
    /\ In (folder, false) drive
    /\ (slash_free folderPath ->
        gfolder_name folder = folderPath
        /\ In (destination folderId) (gfolder_parents folder))
    /\ (forall parent name,
          folderPath = parent +:+ "/" +:+ name -> slash_free name ->
          gfolder_name folder = name
          /\ exists parentId,
               index !! parent = Some parentId
               /\ In (match parentId with EmptyString => "root" | _ => parentId end)
                     (gfolder_parents folder)).

End Statements.

(** ** Concrete data for the scenarios *)
Module Scenario.
Import Auth Types Env FileUtils Drive Upload Policy.

Definition account_A : GoogleAccount :=
  {| acct_id := "A"; acct_email := "a@example.com"; acct_name := Some "Ann";
     acct_accessToken := "token-a"; acct_providerId := "google-drive-1" |}.
Definition account_B : GoogleAccount :=
  {| acct_id := "B"; acct_email := "b@example.com"; acct_name := None;
     acct_accessToken := "token-b"; acct_providerId := "google-drive-2" |}.

(** A double quote, for JSON text. *)
Definition dq : string := String (ascii_of_nat 34) EmptyString.

(** The body Google answers with when the refresh token was revoked. *)
Definition invalid_grant_body : string :=
  "{" +:+ dq +:+ "error" +:+ dq +:+ ": " +:+ dq +:+ "invalid_grant" +:+ dq +:+ "}".

(** The token set of account A: an access token past its lifetime and a
    refresh token. *)
Definition expired_tokens : gmap string TokenSet :=
  {[ "google-drive-1" := {| accessToken := "ya29.stale";
                            refreshToken := Some "1//refresh";
                            isExpired := true |} ]}.

Definition drive_file (id name : string) (link : option string) : GoogleDriveFile :=
  {| gfile_id := id; gfile_name := name; gfile_mimeType := "application/octet-stream";
     gfile_webViewLink := link; gfile_parents := [] |}.

Definition local_file (p name : string) (rel : option string) : FileMetadata :=
  {| file_path := p; file_name := name; file_size := 1;
     file_mimeType := "application/octet-stream"; file_isDirectory := false;
     relativePath := rel |}.

(** Five results under folder F, the third one failed. *)
Definition four_of_five : list UploadResult :=
  [ succeeded (drive_file "f1" "1.txt" (Some "https://drive.google.com/file/d/f1/view"))
              (local_file "/Users/a/1.txt" "1.txt" None);
    succeeded (drive_file "f2" "2.txt" (Some "https://drive.google.com/file/d/f2/view"))
              (local_file "/Users/a/2.txt" "2.txt" None);
    failed_with "Failed to upload file: 500 backend error"
              (local_file "/Users/a/3.txt" "3.txt" None);
    succeeded (drive_file "f4" "4.txt" (Some "https://drive.google.com/file/d/f4/view"))
              (local_file "/Users/a/4.txt" "4.txt" None);
    succeeded (drive_file "f5" "5.txt" (Some "https://drive.google.com/file/d/f5/view"))
              (local_file "/Users/a/5.txt" "5.txt" None) ].

(** A world with nothing on Drive and nothing but the given answers to
    upload requests. *)
Definition uploads_only (answers : list (Http GoogleDriveFile)) : World :=
  {| remote := []; searchNet := []; createNet := []; uploadNet := answers;
     permissionNet := []; trace := [] |}.

Definition unit_1 : FileMetadata := local_file "/Users/a/1.txt" "1.txt" None.
Definition unit_2 : FileMetadata := local_file "/Users/a/2.txt" "2.txt" None.
Definition unit_3 : FileMetadata := local_file "/Users/a/3.txt" "3.txt" None.
Definition uploaded_1 : GoogleDriveFile := drive_file "f1" "1.txt" None.
Definition uploaded_2 : GoogleDriveFile := drive_file "f2" "2.txt" None.
Definition uploaded_3 : GoogleDriveFile := drive_file "f3" "3.txt" None.

(** Drive holds one folder "photos" in the root. *)
Definition photos_folder : GoogleDriveFolder :=
  {| gfolder_id := "F1"; gfolder_name := "photos"; gfolder_webViewLink := None;
     gfolder_parents := ["root"] |}.

(** The first search is answered, the second one is not (status 500);
    creating a folder works. *)
Definition flaky_search : World :=
  {| remote := [(photos_folder, false)];
     searchNet := [HttpOk tt; HttpError 500 "backend error"];
     createNet := [HttpOk "F2"];
     uploadNet := []; permissionNet := []; trace := [] |}.

(** An empty Drive and a network that answers. *)
Definition empty_drive : World :=
  {| remote := [];
     searchNet := [HttpOk tt; HttpOk tt; HttpOk tt];
     createNet := [HttpOk "N1"; HttpOk "N2"];
     uploadNet := []; permissionNet := []; trace := [] |}.

(** The disk of the scenario: [/Users/a] holds [doc.pdf], a hidden
    [.profile] and the folder [photos] with [x.jpg], [.DS_Store],
    [sub/y.png] and a hidden folder [.cache]. *)
Definition disk : node :=
  Directory true
    [("Users", Directory true
       [("a", Directory true
          [("doc.pdf", RegularFile 120);
           (".profile", RegularFile 7);
           ("photos", Directory true
              [("x.jpg", RegularFile 300);
               (".DS_Store", RegularFile 6);
               ("sub", Directory true [("y.png", RegularFile 400)]);
               (".cache", Directory true [("thumb.png", RegularFile 50)])])])])].

Definition no_mime : string -> option string := fun _ => None.

(** Finder has a file, a hidden file and a folder selected. *)
Definition selection : list string :=
  ["/Users/a/doc.pdf"; "/Users/a/.profile"; "/Users/a/photos/"].

Definition octet_stream (p name : string) (size : nat) (rel : option string) : FileMetadata :=
  {| file_path := p; file_name := name; file_size := size;
     file_mimeType := "application/octet-stream"; file_isDirectory := false;
     relativePath := rel |}.

(** The units of the selection [doc.pdf] and [photos/]. *)
Definition flattened : list FileMetadata :=
  [octet_stream "/Users/a/doc.pdf" "doc.pdf" 120 None;
   octet_stream "/Users/a/photos/x.jpg" "x.jpg" 300 (Some "photos/x.jpg");
   octet_stream "/Users/a/photos/sub/y.png" "y.png" 400 (Some "photos/sub/y.png")].

(** Account A with a token that is still good. *)
Definition fresh_tokens : gmap string TokenSet :=
  {[ "google-drive-1" := {| accessToken := "ya29.fresh";
                            refreshToken := Some "1//refresh";
                            isExpired := false |} ]}.

(** An empty Drive; the second upload request fails once. *)
Definition one_hiccup : World :=
  {| remote := [];
     searchNet := [HttpOk tt; HttpOk tt];
     createNet := [HttpOk "N1"; HttpOk "N2"];
     uploadNet := [HttpOk uploaded_1; HttpError 500 "backend error";
                   HttpOk uploaded_2; HttpOk uploaded_3];
     permissionNet := [HttpOk tt; HttpOk tt; HttpOk tt];
     trace := [] |}.

(** The token is refused when the first folder is looked up. *)
Definition token_revoked : World :=
  {| remote := [];
     searchNet := [HttpError 401 "Unauthorized"];
     createNet := [HttpOk "N1"];
     uploadNet := [HttpOk uploaded_1; HttpOk uploaded_2; HttpOk uploaded_3];
     permissionNet := [];
     trace := [] |}.

End Scenario.

(** ** Further concrete data *)
Module Cases.
Import Text Auth Types Env FileUtils Drive Upload Accounts FolderStorage FolderList Finder
  Scenario.

Definition two_accounts : LocalStorage :=
  Some {| accounts := [account_A; account_B]; defaultAccountId := Some "A" |}.

Definition info_of_B : GoogleUserInfo :=
  {| info_sub := "B"; info_email := "b.new@example.com"; info_name := Some "Bea" |}.

Definition drive_folder (id name parent : string) : GoogleDriveFolder :=
  {| gfolder_id := id; gfolder_name := name; gfolder_webViewLink := None;
     gfolder_parents := [parent] |}.

(** [work/2024/reports] under My Drive, and a folder that is its own
    parent. *)
Definition small_drive : gmap string GoogleDriveFolder :=
  {[ "w" := drive_folder "w" "work" "root";
     "y" := drive_folder "y" "2024" "w";
     "r" := drive_folder "r" "reports" "y";
     "loop" := drive_folder "loop" "loop" "loop" ]}.

(** Twelve folders, each inside the one before; the first in My Drive. *)
Definition nested (n : nat) : GoogleDriveFolder :=
  drive_folder ("d" +:+ pretty n) ("level" +:+ pretty n)
               (match n with 0 => "root" | S k => "d" +:+ pretty k end).

Definition deep_drive : gmap string GoogleDriveFolder :=
  list_to_map (map (fun n => ("d" +:+ pretty n, nested n)) (seq 0 12)).

(** A disk whose folder [cfg] holds hidden entries only. *)
Definition hidden_only : node :=
  Directory true [("cfg", Directory true [(".env", RegularFile 9);
                                          (".git", Directory true [("HEAD", RegularFile 4)])])].

(** The default folders two accounts choose one after the other. *)
Definition folder_of_A : DefaultFolder :=
  {| folder_id := "fa"; folder_name := "Scans"; folder_accountId := "A" |}.
Definition folder_of_B : DefaultFolder :=
  {| folder_id := "fb"; folder_name := "Invoices"; folder_accountId := "B" |}.

(** What the script returns when it prints blank lines only. *)
Definition blank_text : string :=
  String " " (String newline (String " " (String newline EmptyString))).

(** A no-break space (U+00A0) and a line separator (U+2028). *)
Definition nbsp : string := bytes [194; 160].
Definition line_separator : string := bytes [226; 128; 168].

End Cases.


(** * Properties *)

(** ** Splitting and joining *)
Section TextFacts.
Import Text.

Lemma split_slash_nonempty (s : string) : split_slash s <> [].
Proof.
  destruct s as [|c s]; cbn [split_slash]; [discriminate|].
  destruct (Ascii.eqb c "/"); [discriminate|].
  destruct (split_slash s); discriminate.
Qed.

(** Splitting what was joined with one more slash. *)
Lemma split_slash_app (a b : string) :
  split_slash (a +:+ "/" +:+ b) = split_slash a ++ split_slash b.
Proof.
  induction a as [|c a IH]; [reflexivity|].
  change (String c a +:+ "/" +:+ b) with (String c (a +:+ "/" +:+ b)).
  cbn [split_slash]. rewrite IH. destruct (Ascii.eqb c "/"); [reflexivity|].
  pose proof (split_slash_nonempty a) as Hne.
  destruct (split_slash a); [congruence|reflexivity].
Qed.

Lemma split_slash_free (s : string) : slash_free s -> split_slash s = [s].
Proof.
  induction s as [|c s IH]; [reflexivity|].
  cbn [slash_free split_slash]. intros [Hc Hs].
  destruct (Ascii.eqb_spec c "/"); [contradiction|].
  rewrite (IH Hs). reflexivity.
Qed.

Lemma split_slash_parts_free (s : string) : Forall slash_free (split_slash s).
Proof.
  induction s as [|c s IH]; [repeat constructor|].
  cbn [split_slash]. destruct (Ascii.eqb_spec c "/").
  - constructor; [exact I|exact IH].
  - destruct (split_slash s) as [|part parts]; [repeat constructor; assumption|].
    inversion IH; subst. constructor; [split; assumption|assumption].
Qed.

Lemma join_split_slash (s : string) : join_slash (split_slash s) = s.
Proof.
  induction s as [|c s IH]; [reflexivity|].
  cbn [split_slash]. destruct (Ascii.eqb_spec c "/") as [->|Hc].
  - pose proof (split_slash_nonempty s) as Hne.
    cbn [join_slash]. destruct (split_slash s); [congruence|].
    rewrite IH. reflexivity.
  - pose proof (split_slash_nonempty s) as Hne.
    destruct (split_slash s) as [|part parts]; [congruence|].
    destruct parts as [|part' parts].
    + cbn [join_slash] in *. rewrite IH. reflexivity.
    + cbn [join_slash] in *. rewrite <- IH. reflexivity.
Qed.

(** The first part of a joined list is its first element, when that has
    no slash. *)
Lemma split_join_head (name : string) (rest : list string) :
  slash_free name -> head (split_slash (join_slash (name :: rest))) = Some name.
Proof.
  intros Hfree. destruct rest as [|next rest].
  - cbn [join_slash]. rewrite (split_slash_free _ Hfree). reflexivity.
  - cbn [join_slash]. rewrite split_slash_app, (split_slash_free _ Hfree). reflexivity.
Qed.

End TextFacts.


(** ** Stored accounts *)
Section AccountFacts.
Import Auth Scenario.

Lemma filter_other_ids_length (accountId : string) (l : list GoogleAccount) :
  NoDup (map acct_id l) ->
  accountId ∈ map acct_id l ->
  S (length (filter (fun a => acct_id a <> accountId) l)) = length l.
Proof.
  induction l as [|a l IH]; intros Hnd Hin.
  - inversion Hin.
  - cbn [map] in Hnd, Hin. apply NoDup_cons in Hnd as [Hfresh Hnd].
    destruct (decide (acct_id a = accountId)) as [Heq|Hne].
    + rewrite filter_cons_False by (intros H; apply H; exact Heq).
      cbn [length]. f_equal.
      assert (Hall : Forall (fun b => acct_id b <> accountId) l).
      { apply Forall_forall. intros b Hb Hbad. apply Hfresh.
        rewrite Heq, <- Hbad. apply list_elem_of_fmap_2. exact Hb. }
      clear -Hall. induction Hall as [|b l Hb _ IH]; [reflexivity|].
      rewrite filter_cons_True by exact Hb. cbn [length]. now f_equal.
    + rewrite filter_cons_True by exact Hne. cbn [length]. f_equal.
      apply IH; [exact Hnd|].
      apply elem_of_cons in Hin as [Hin|Hin]; [congruence|exact Hin].
Qed.

Lemma flagged_at_most_one (d : option string) (l : list GoogleAccount) :
  NoDup (map acct_id l) ->
  length (filter (fun a => Some (acct_id a) = d) l) <= 1.
Proof.
  induction l as [|a l IH]; intros Hnd; [cbn; lia|].
  cbn [map] in Hnd. apply NoDup_cons in Hnd as [Hfresh Hnd].
  destruct (decide (Some (acct_id a) = d)) as [Heq|Hne].
  - rewrite filter_cons_True by exact Heq. cbn [length].
    assert (Hall : Forall (fun b => Some (acct_id b) <> d) l).
    { apply Forall_forall. intros b Hb Hbad. apply Hfresh.
      assert (acct_id a = acct_id b) as -> by congruence.
      apply list_elem_of_fmap_2. exact Hb. }
    assert (Hnone : filter (fun b => Some (acct_id b) = d) l = []).
    { clear -Hall. induction Hall as [|b l Hb _ IHl]; [reflexivity|].
      rewrite filter_cons_False by exact Hb. exact IHl. }
    rewrite Hnone. cbn. lia.
  - rewrite filter_cons_False by exact Hne. apply IH. exact Hnd.
Qed.

Lemma NoDup_ids_filter (P : GoogleAccount -> Prop) `{!forall a, Decision (P a)}
    (l : list GoogleAccount) :
  NoDup (map acct_id l) -> NoDup (map acct_id (filter P l)).
Proof.
  induction l as [|a l IH]; intros Hnd; [constructor|].
  cbn [map] in Hnd. apply NoDup_cons in Hnd as [Hfresh Hnd].
  destruct (decide (P a)) as [Hp|Hp].
  - rewrite filter_cons_True by exact Hp. cbn [map]. apply NoDup_cons. split.
    + intros Hin. apply Hfresh. apply list_elem_of_fmap in Hin as (b & -> & Hb).
      apply list_elem_of_fmap_2. apply list_elem_of_filter in Hb. tauto.
    + apply IH. exact Hnd.
  - rewrite filter_cons_False by exact Hp. apply IH. exact Hnd.
Qed.

(** C9. [removeAccount accountId] keeps exactly the accounts with another
    id, in their order (one account fewer when the id was stored); when
    the removed id was the default, the default becomes the id of the first
    remaining account, or nothing when none remains; otherwise the default
    is left as it was; and, account ids being unique, at most one account
    is flagged default afterwards. *)
Theorem removeAccount_default_handover (accountId : string) (ls : LocalStorage) :
  NoDup (map acct_id (accounts (getStoredAccounts ls))) ->
  exists stored',
    removeAccount accountId ls = Some stored'
    /\ (forall a, a ∈ accounts stored' <->
                  a ∈ accounts (getStoredAccounts ls) /\ acct_id a <> accountId)
    /\ accounts stored' `sublist_of` accounts (getStoredAccounts ls)
    /\ (accountId ∈ map acct_id (accounts (getStoredAccounts ls)) ->
        S (length (accounts stored')) = length (accounts (getStoredAccounts ls)))
    /\ (defaultAccountId (getStoredAccounts ls) = Some accountId ->
        defaultAccountId stored' = head (map acct_id (accounts stored')))
    /\ (defaultAccountId (getStoredAccounts ls) <> Some accountId ->
        defaultAccountId stored' = defaultAccountId (getStoredAccounts ls))
    /\ length (flagged_default stored') <= 1.
Proof.
  intros Hnd. eexists. split; [reflexivity|].
  cbn [accounts defaultAccountId].
  split; [|split; [|split; [|split; [|split]]]].
  - intros a. rewrite list_elem_of_filter. tauto.
  - apply sublist_filter.
  - intros Hin. apply filter_other_ids_length; assumption.
  - intros Hdef. rewrite decide_True by exact Hdef.
    destruct (filter _ _); reflexivity.
  - intros Hdef. rewrite decide_False by exact Hdef. reflexivity.
  - unfold flagged_default. cbn [accounts defaultAccountId].
    apply flagged_at_most_one. apply NoDup_ids_filter. exact Hnd.
Qed.

(** Accounts A (default) and B: removing A hands the default to B. *)
Lemma removeAccount_default_handover_witness :
  exists stored',
    removeAccount "A" (Some {| accounts := [account_A; account_B];
                               defaultAccountId := Some "A" |}) = Some stored'
    /\ accounts stored' = [account_B]
    /\ defaultAccountId stored' = Some "B".
Proof.
  destruct (removeAccount_default_handover "A"
              (Some {| accounts := [account_A; account_B];
                       defaultAccountId := Some "A" |}))
    as (stored' & Hrun & _ & _ & _ & Hdef & _ & _).
  - cbn. apply NoDup_cons. split; [|apply NoDup_singleton].
    intros Hin. apply list_elem_of_singleton in Hin. discriminate Hin.
  - exists stored'. split; [exact Hrun|].
    specialize (Hdef eq_refl).
    vm_compute in Hrun. injection Hrun as Hrun. subst stored'. split; reflexivity.
Defined.

(** Removing the only account clears the default. *)
Example removeAccount_last_clears_default :
  removeAccount "B" (Some {| accounts := [account_B]; defaultAccountId := Some "B" |})
  = Some {| accounts := []; defaultAccountId := None |}.
Proof. reflexivity. Qed.

End AccountFacts.

(** ** Token refresh *)
Section TokenFacts.
Import Text Auth Scenario.

(** Whatever the token endpoint rejects with, [refreshTokens] throws one
    of its two fixed sentences. *)
Lemma refreshTokens_rejected (refreshTok : string) (status : nat)
    (errorText : string) (errorField : option string) :
  refreshTokens refreshTok (Rejected status errorText errorField)
  = Throw refresh_default_message
  \/ refreshTokens refreshTok (Rejected status errorText errorField)
     = Throw refresh_expired_message.
Proof.
  unfold refreshTokens. destruct errorField as [e|]; [|left; reflexivity].
  destruct (String.eqb e "invalid_grant" || String.eqb e "invalid_token");
    [right|left]; reflexivity.
Qed.

(** Neither sentence contains the words [getValidAccessToken] looks for. *)
Lemma refresh_messages_not_recognised :
  includes refresh_default_message "invalid_grant" = false
  /\ includes refresh_default_message "invalid_token" = false
  /\ includes refresh_expired_message "invalid_grant" = false
  /\ includes refresh_expired_message "invalid_token" = false.
Proof. repeat split; vm_compute; reflexivity. Qed.

(** C2. Account A holds an expired access token and a refresh token, and
    the token endpoint rejects the refresh with [invalid_grant] (whatever
    the status and the text around it): [getValidAccessToken] rejects with
    the sentence of [refreshTokens], which is not [AUTHENTICATION_EXPIRED]. *)
Theorem getValidAccessToken_invalid_grant_message (status : nat) (errorText : string) :
  fst (getValidAccessToken account_A expired_tokens
         (Rejected status errorText (Some "invalid_grant")))
  = Throw "Authentication expired. Please re-authenticate your account."
  /\ fst (getValidAccessToken account_A expired_tokens
            (Rejected status errorText (Some "invalid_grant")))
     <> Throw AUTHENTICATION_EXPIRED.
Proof.
  assert (Hrun : fst (getValidAccessToken account_A expired_tokens
                        (Rejected status errorText (Some "invalid_grant")))
                 = Throw "Authentication expired. Please re-authenticate your account.")
    by (vm_compute; reflexivity).
  split; [exact Hrun|]. rewrite Hrun. discriminate.
Qed.

(** The same on the response Google sends: status 400 and a JSON body. *)
Example getValidAccessToken_invalid_grant_run :
  getValidAccessToken account_A expired_tokens
    (Rejected 400 invalid_grant_body (Some "invalid_grant"))
  = (Throw "Authentication expired. Please re-authenticate your account.",
     expired_tokens).
Proof. vm_compute. reflexivity. Qed.

(** No rejection by the token endpoint is ever reported as
    [AUTHENTICATION_EXPIRED]: with a token set at hand, that message needs
    [fetch] itself to fail with a text naming [invalid_grant] or
    [invalid_token]. *)
Lemma getValidAccessToken_rejection_never_AuthExpired (account : GoogleAccount)
    (store : gmap string TokenSet) (tokenSet : TokenSet)
    (status : nat) (errorText : string) (errorField : option string) :
  store !! acct_providerId account = Some tokenSet ->
  truthy (accessToken tokenSet) = true ->
  fst (getValidAccessToken account store (Rejected status errorText errorField))
  <> Throw AUTHENTICATION_EXPIRED.
Proof.
  intros Hget Htok. unfold getValidAccessToken. rewrite Hget, Htok.
  destruct (refreshToken tokenSet) as [refreshTok|]; [|discriminate].
  destruct (truthy refreshTok && isExpired tokenSet); [|discriminate].
  destruct refresh_messages_not_recognised as (H1 & H2 & H3 & H4).
  destruct (refreshTokens_rejected refreshTok status errorText errorField) as [-> | ->].
  - rewrite H1, H2. cbn. discriminate.
  - rewrite H3, H4. cbn. discriminate.
Qed.

(** The other cases of [getValidAccessToken]: no token set, or one without
    access token, is [AUTHENTICATION_EXPIRED]; a token that is not expired,
    or has no refresh token, is returned as it is. *)
Lemma getValidAccessToken_no_token (account : GoogleAccount)
    (store : gmap string TokenSet) (answer : RefreshAnswer) :
  store !! acct_providerId account = None ->
  getValidAccessToken account store answer = (Throw AUTHENTICATION_EXPIRED, store).
Proof. intros Hget. unfold getValidAccessToken. rewrite Hget. reflexivity. Qed.

End TokenFacts.

(** ** The surfaced link *)
Section ReportFacts.
Import Text Types Upload Policy Scenario.

Lemma count_failed_zero (results : list UploadResult) :
  Nat.eqb (length (List.filter (fun r => negb (success r)) results)) 0
  = forallb success results.
Proof.
  induction results as [|r results IH]; [reflexivity|].
  cbn [List.filter forallb]. destruct (success r); cbn; [exact IH|reflexivity].
Qed.

Lemma count_all_succeeded (results : list UploadResult) :
  forallb success results = true ->
  length (List.filter success results) = length results.
Proof.
  induction results as [|r results IH]; [reflexivity|].
  cbn [List.filter forallb]. destruct (success r); cbn; [|discriminate].
  intros H. f_equal. apply IH. exact H.
Qed.

Lemma trim_truthy_nonempty (s : string) : truthy (trim s) = true -> truthy s = true.
Proof. destruct s; [intros H; discriminate H|reflexivity]. Qed.

(** The link the code reads off the first result is the shareable link
    of that result. *)
Lemma first_link_shareable (r : UploadResult) (rest : list UploadResult) :
  first_link (r :: rest) = shareable_link r.
Proof.
  unfold first_link, shareable_link, trim_truthy.
  destruct (file r) as [uploaded|]; [|reflexivity].
  destruct (gfile_webViewLink uploaded) as [link|]; [|reflexivity].
  destruct (truthy (trim link)) eqn:Htrim; [|rewrite andb_false_r; reflexivity].
  rewrite (trim_truthy_nonempty _ Htrim). reflexivity.
Qed.

(** C3 (amended). What [handleUpload] copies to the clipboard is the
    link of the policy above when the copy works, and nothing when it
    throws.  The policy: nothing when a unit failed; else, for a batch of
    one unit whose file has a link that is not blank, that link; else the
    link of the destination folder when it is a real folder; else
    nothing. *)
Theorem report_copies_policy_link (folderId folderName : string)
    (clipboardWorks : bool) (results : list UploadResult) :
  copied (report folderId folderName clipboardWorks results)
  = if clipboardWorks then chosenLink_policy folderId results else None.
Proof.
  unfold report, chosenLink_policy. rewrite count_failed_zero.
  destruct (forallb success results) eqn:Hall.
  - rewrite (count_all_succeeded _ Hall).
    unfold folder_link, real_folder, folderUrl.
    destruct results as [|r [|r' rest]].
    + cbn [length Nat.eqb].
      destruct (negb (String.eqb folderId "root") && truthy folderId), clipboardWorks;
        reflexivity.
    + cbn [length Nat.eqb]. rewrite first_link_shareable.
      destruct (shareable_link r); [destruct clipboardWorks; reflexivity|].
      destruct (negb (String.eqb folderId "root") && truthy folderId), clipboardWorks;
        reflexivity.
    + cbn [length Nat.eqb].
      destruct (negb (String.eqb folderId "root") && truthy folderId), clipboardWorks;
        reflexivity.
  - destruct (Nat.ltb 0 (length (List.filter success results))), clipboardWorks; reflexivity.
Qed.

(** C3 (as stated) fails: five files under folder F, four of them
    uploaded; the link of F is expected, the code copies nothing
    and only reports that some files could not be uploaded. *)
Lemma report_partial_batch_no_link :
  length four_of_five = 5
  /\ length (List.filter success four_of_five) = 4
  /\ copied (report "F" "Holiday" true four_of_five) = None
  /\ copied (report "F" "Holiday" true four_of_five) <> Some (folderUrl "F")
  /\ message (toast (report "F" "Holiday" true four_of_five))
     = Some "Some files could not be uploaded".
Proof. repeat split; vm_compute; try reflexivity; discriminate. Qed.

(** One file, uploaded, with a link: that link. *)
Example report_single_file_link :
  copied (report "F" "Holiday" true
            [succeeded (drive_file "f1" "1.txt" (Some "https://drive.google.com/file/d/f1/view"))
                       (local_file "/Users/a/1.txt" "1.txt" None)])
  = Some "https://drive.google.com/file/d/f1/view".
Proof. reflexivity. Qed.

(** One file, uploaded, with a link that is a no-break space only: the
    link of the folder. *)
Example report_blank_file_link :
  copied (report "F" "Holiday" true
            [succeeded (drive_file "f1" "1.txt" (Some Cases.nbsp))
                       (local_file "/Users/a/1.txt" "1.txt" None)])
  = Some "https://drive.google.com/drive/folders/F".
Proof. vm_compute. reflexivity. Qed.

End ReportFacts.

(** ** Upload with retry *)
Section RetryFacts.
Import Text Types Env Drive Upload Policy Scenario.

Variables filePath fileName mimeType accessToken : string.
Variable parentFolderId : option string.

Lemma uploadFile_answer (w : World) (answer : Http GoogleDriveFile)
    (rest : list (Http GoogleDriveFile)) :
  uploadNet w = answer :: rest ->
  uploadFile filePath fileName mimeType accessToken parentFolderId w
  = (upload_result answer,
     set_uploadNet rest (log (EvUpload filePath fileName parentFolderId) w)).
Proof.
  intros Hnet. unfold uploadFile, next_upload. cbn [uploadNet log].
  rewrite Hnet. destruct answer as [uploaded|status errorText|msg]; cbn [upload_result].
  - reflexivity.
  - destruct (Nat.eqb status 401); reflexivity.
  - reflexivity.
Qed.

Lemma makeFilePublic_best_effort (fileId : string) (w : World) :
  try_catch (makeFilePublic fileId accessToken) (fun _ => resolve tt) w
  = (Ok tt, after_permission fileId w).
Proof.
  unfold try_catch, makeFilePublic, after_permission.
  destruct (next_permission (log (EvPermission fileId) w)) as [[u|status errorText|msg] w'];
    cbn; try destruct u; reflexivity.
Qed.

Lemma after_permission_uploadNet (fileId : string) (w : World) :
  uploadNet (after_permission fileId w) = uploadNet w.
Proof.
  unfold after_permission, next_permission. cbn [permissionNet log].
  destruct (permissionNet w); reflexivity.
Qed.

Lemma after_permission_trace (fileId : string) (w : World) :
  trace (after_permission fileId w) = trace w ++ [EvPermission fileId].
Proof.
  unfold after_permission, next_permission. cbn [permissionNet log].
  destruct (permissionNet w); reflexivity.
Qed.

(** One failed round of the loop. *)
Lemma retry_from_failed (maxRetries remaining attempt : nat) (lastError : option string)
    (w : World) (answer : Http GoogleDriveFile) (rest : list (Http GoogleDriveFile))
    (msg : string) :
  uploadNet w = answer :: rest ->
  upload_result answer = Throw msg ->
  retry_from filePath fileName mimeType accessToken parentFolderId maxRetries
             (S remaining) attempt lastError w
  = retry_from filePath fileName mimeType accessToken parentFolderId maxRetries
               remaining (S attempt) (Some msg)
               (let w1 := set_uploadNet rest (log (EvUpload filePath fileName parentFolderId) w) in
                if Nat.ltb attempt (maxRetries - 1)
                then log (EvSleep (2 ^ attempt * 1000)) w1 else w1).
Proof.
  intros Hnet Hres. cbn [retry_from].
  rewrite (uploadFile_answer w answer rest Hnet), Hres. reflexivity.
Qed.

(** A round that succeeds ends the loop. *)
Lemma retry_from_uploaded (maxRetries remaining attempt : nat) (lastError : option string)
    (w : World) (uploaded : GoogleDriveFile) (rest : list (Http GoogleDriveFile)) :
  uploadNet w = HttpOk uploaded :: rest ->
  retry_from filePath fileName mimeType accessToken parentFolderId maxRetries
             (S remaining) attempt lastError w
  = (Ok uploaded,
     after_permission (gfile_id uploaded)
       (set_uploadNet rest (log (EvUpload filePath fileName parentFolderId) w))).
Proof.
  intros Hnet. cbn [retry_from].
  rewrite (uploadFile_answer w _ rest Hnet). cbn [upload_result].
  rewrite makeFilePublic_best_effort. reflexivity.
Qed.

Lemma failure_answer_result (e : UploadFailure) :
  upload_result (failure_answer e) = Throw (failure_text e).
Proof.
  destruct e as [status errorText|msg]; cbn; [|reflexivity].
  destruct (Nat.eqb status 401); reflexivity.
Qed.

(** Three failed requests: three attempts, a delay of one and of two
    seconds in between, and the last error. *)
Lemma retry_three_failures (w : World) (a1 a2 a3 : Http GoogleDriveFile)
    (rest : list (Http GoogleDriveFile)) (e1 e2 e3 : string) :
  uploadNet w = a1 :: a2 :: a3 :: rest ->
  upload_result a1 = Throw e1 ->
  upload_result a2 = Throw e2 ->
  upload_result a3 = Throw e3 ->
  exists w',
    uploadFileWithRetry filePath fileName mimeType accessToken parentFolderId
                        defaultMaxRetries w = (Throw e3, w')
    /\ trace w' = trace w ++ [EvUpload filePath fileName parentFolderId;
                              EvSleep (1 * time_unit);
                              EvUpload filePath fileName parentFolderId;
                              EvSleep (2 * time_unit);
                              EvUpload filePath fileName parentFolderId]
    /\ uploadNet w' = rest.
Proof.
  intros Hnet H1 H2 H3. unfold uploadFileWithRetry, defaultMaxRetries.
  rewrite (retry_from_failed _ _ _ _ w a1 (a2 :: a3 :: rest) e1 Hnet H1).
  cbn [Nat.ltb Nat.leb Nat.sub].
  erewrite (retry_from_failed _ _ _ _ _ a2 (a3 :: rest) e2); [|reflexivity|exact H2].
  cbn [Nat.ltb Nat.leb Nat.sub].
  erewrite (retry_from_failed _ _ _ _ _ a3 rest e3); [|reflexivity|exact H3].
  cbn [Nat.ltb Nat.leb Nat.sub retry_from reject].
  eexists. split; [reflexivity|]. split; [|reflexivity].
  cbn [trace log set_uploadNet]. rewrite <- !app_assoc. reflexivity.
Qed.

(** C7. With three upload requests failing in a row (whatever the
    errors), [uploadFileWithRetry] makes exactly three attempts, waits one
    time-unit after the first and two after the second, nothing after the
    third, and rejects with the last error.  With two failures and then a
    success it returns the uploaded file after the same two delays. *)
Theorem uploadFileWithRetry_backoff (w : World) (a1 a2 a3 : Http GoogleDriveFile)
    (rest : list (Http GoogleDriveFile)) (e1 e2 : string) :
  uploadNet w = a1 :: a2 :: a3 :: rest ->
  upload_result a1 = Throw e1 ->
  upload_result a2 = Throw e2 ->
  (forall e3, upload_result a3 = Throw e3 ->
     exists w',
       uploadFileWithRetry filePath fileName mimeType accessToken parentFolderId
                           defaultMaxRetries w = (Throw e3, w')
       /\ trace w' = trace w ++ [EvUpload filePath fileName parentFolderId;
                                 EvSleep (1 * time_unit);
                                 EvUpload filePath fileName parentFolderId;
                                 EvSleep (2 * time_unit);
                                 EvUpload filePath fileName parentFolderId]
       /\ uploadNet w' = rest)
  /\ (forall uploaded, a3 = HttpOk uploaded ->
     exists w',
       uploadFileWithRetry filePath fileName mimeType accessToken parentFolderId
                           defaultMaxRetries w = (Ok uploaded, w')
       /\ trace w' = trace w ++ [EvUpload filePath fileName parentFolderId;
                                 EvSleep (1 * time_unit);
                                 EvUpload filePath fileName parentFolderId;
                                 EvSleep (2 * time_unit);
                                 EvUpload filePath fileName parentFolderId;
                                 EvPermission (gfile_id uploaded)]
       /\ uploadNet w' = rest).
Proof.
  intros Hnet H1 H2. split.
  - intros e3 H3. exact (retry_three_failures w a1 a2 a3 rest e1 e2 e3 Hnet H1 H2 H3).
  - intros uploaded ->. unfold uploadFileWithRetry, defaultMaxRetries.
    rewrite (retry_from_failed _ _ _ _ w a1 (a2 :: HttpOk uploaded :: rest) e1 Hnet H1).
    cbn [Nat.ltb Nat.leb Nat.sub].
    erewrite (retry_from_failed _ _ _ _ _ a2 (HttpOk uploaded :: rest) e2);
      [|reflexivity|exact H2].
    cbn [Nat.ltb Nat.leb Nat.sub].
    erewrite (retry_from_uploaded _ _ _ _ _ uploaded rest); [|reflexivity].
    eexists. split; [reflexivity|]. split.
    + rewrite after_permission_trace. cbn [trace log set_uploadNet].
      rewrite <- !app_assoc. reflexivity.
    + rewrite after_permission_uploadNet. reflexivity.
Qed.

End RetryFacts.

(** Two failures, then the file: the run of the scenario. *)
Lemma uploadFileWithRetry_backoff_witness :
  exists w',
    Drive.uploadFileWithRetry "/Users/a/1.txt" "1.txt" "text/plain" "token-a" None
      Drive.defaultMaxRetries
      (Scenario.uploads_only [Env.HttpError 503 "backend error";
                              Env.FetchFailed "socket hang up";
                              Env.HttpOk Scenario.uploaded_1])
    = (Ok Scenario.uploaded_1, w')
    /\ Env.trace w' = [Env.EvUpload "/Users/a/1.txt" "1.txt" None;
                       Env.EvSleep 1000;
                       Env.EvUpload "/Users/a/1.txt" "1.txt" None;
                       Env.EvSleep 2000;
                       Env.EvUpload "/Users/a/1.txt" "1.txt" None;
                       Env.EvPermission "f1"].
Proof.
  destruct (uploadFileWithRetry_backoff "/Users/a/1.txt" "1.txt" "text/plain" "token-a" None
              (Scenario.uploads_only [Env.HttpError 503 "backend error";
                                      Env.FetchFailed "socket hang up";
                                      Env.HttpOk Scenario.uploaded_1])
              (Env.HttpError 503 "backend error") (Env.FetchFailed "socket hang up")
              (Env.HttpOk Scenario.uploaded_1) []
              "Failed to upload file: 503 backend error" "socket hang up")
    as [_ Hok].
  - reflexivity.
  - vm_compute. reflexivity.
  - reflexivity.
  - destruct (Hok Scenario.uploaded_1 eq_refl) as (w' & Hrun & Htrace & _).
    exists w'. split; [exact Hrun|exact Htrace].
Defined.

(** ** The upload loop of the batch *)
Section BatchFacts.
Import Text Types Env Drive Upload Policy Scenario.

Variables accessToken folderId : string.
Variable hasFolders : bool.
Variable folderIdMap : gmap string string.

(** One round of the loop: whatever [uploadFileWithRetry] settles with
    becomes a result, and the loop goes on. *)
Lemma upload_files_step (f : FileMetadata) (files : list FileMetadata)
    (results : list UploadResult) (w w' : World) (r : Result GoogleDriveFile) :
  uploadFileWithRetry (file_path f) (file_name f) (file_mimeType f) accessToken
    (parent_of_file folderId hasFolders folderIdMap f) defaultMaxRetries w = (r, w') ->
  upload_files accessToken folderId hasFolders folderIdMap (f :: files) results w
  = upload_files accessToken folderId hasFolders folderIdMap files
      (results ++ [match r with
                   | Ok uploaded => succeeded uploaded f
                   | Throw msg => failed_with msg f
                   end]) w'.
Proof.
  intros Hrun. cbn [upload_files]. unfold await at 1. unfold try_catch, await at 1.
  rewrite Hrun. destruct r; reflexivity.
Qed.

(** C1 (amended). A unit whose three upload requests are answered 401 is
    tried three times, with the delays of one and two seconds, like any
    other failing unit; [uploadFileWithRetry] then rejects with
    [AUTHENTICATION_EXPIRED], and the batch records an ordinary failed
    result carrying that message and goes on with the remaining units. *)
Theorem auth_expired_retried_and_recorded (f : FileMetadata) (files : list FileMetadata)
    (results : list UploadResult) (w : World) (t1 t2 t3 : string)
    (rest : list (Http GoogleDriveFile)) :
  uploadNet w = HttpError 401 t1 :: HttpError 401 t2 :: HttpError 401 t3 :: rest ->
  exists w',
    uploadFileWithRetry (file_path f) (file_name f) (file_mimeType f) accessToken
      (parent_of_file folderId hasFolders folderIdMap f) defaultMaxRetries w
    = (Throw AUTHENTICATION_EXPIRED, w')
    /\ length (List.filter is_upload_attempt (trace w'))
       = length (List.filter is_upload_attempt (trace w)) + 3
    /\ trace w' = trace w ++
         [EvUpload (file_path f) (file_name f) (parent_of_file folderId hasFolders folderIdMap f);
          EvSleep (1 * time_unit);
          EvUpload (file_path f) (file_name f) (parent_of_file folderId hasFolders folderIdMap f);
          EvSleep (2 * time_unit);
          EvUpload (file_path f) (file_name f) (parent_of_file folderId hasFolders folderIdMap f)]
    /\ uploadNet w' = rest
    /\ upload_files accessToken folderId hasFolders folderIdMap (f :: files) results w
       = upload_files accessToken folderId hasFolders folderIdMap files
           (results ++ [failed_with AUTHENTICATION_EXPIRED f]) w'.
Proof.
  intros Hnet.
  destruct (retry_three_failures (file_path f) (file_name f) (file_mimeType f) accessToken
              (parent_of_file folderId hasFolders folderIdMap f) w _ _ _ rest
              AUTHENTICATION_EXPIRED AUTHENTICATION_EXPIRED AUTHENTICATION_EXPIRED
              Hnet eq_refl eq_refl eq_refl) as (w' & Hrun & Htrace & Hrest).
  exists w'. split; [exact Hrun|]. split; [|split; [exact Htrace|split; [exact Hrest|]]].
  - rewrite Htrace, List.filter_app, length_app. reflexivity.
  - rewrite (upload_files_step f files results w w' _ Hrun). reflexivity.
Qed.

End BatchFacts.

(** Unit 1 is answered 401 three times, unit 2 waits behind it. *)
Lemma auth_expired_retried_and_recorded_witness :
  let w := Scenario.uploads_only [Env.HttpError 401 "Unauthorized"; Env.HttpError 401 "Unauthorized";
                                  Env.HttpError 401 "Unauthorized";
                                  Env.HttpOk Scenario.uploaded_2] in
  exists w',
    Drive.uploadFileWithRetry "/Users/a/1.txt" "1.txt" "application/octet-stream"
      "token-a" None Drive.defaultMaxRetries w
    = (Throw AUTHENTICATION_EXPIRED, w')
    /\ Env.uploadNet w' = [Env.HttpOk Scenario.uploaded_2]
    /\ Upload.upload_files "token-a" "root" false ∅ [Scenario.unit_1; Scenario.unit_2] [] w
       = Upload.upload_files "token-a" "root" false ∅ [Scenario.unit_2]
           [Upload.failed_with AUTHENTICATION_EXPIRED Scenario.unit_1] w'.
Proof.
  intros w.
  destruct (auth_expired_retried_and_recorded "token-a" "root" false ∅
              Scenario.unit_1 [Scenario.unit_2] [] w
              "Unauthorized" "Unauthorized" "Unauthorized"
              [Env.HttpOk Scenario.uploaded_2] eq_refl)
    as (w' & Hrun & _ & _ & Hrest & Hbatch).
  exists w'. split; [exact Hrun|]. split; [exact Hrest|exact Hbatch].
Defined.

(** C1 (as stated) fails: on three 401 answers [uploadFileWithRetry] makes
    three attempts and sleeps twice, not one attempt and no delay; and the
    batch does attempt the next unit, recording the 401 as a failed
    result like any other. *)
Lemma auth_expired_is_retried :
  let w := Scenario.uploads_only [Env.HttpError 401 "Unauthorized"; Env.HttpError 401 "Unauthorized";
                                  Env.HttpError 401 "Unauthorized"; Env.HttpOk Scenario.uploaded_2] in
  let single := Drive.uploadFileWithRetry "/Users/a/1.txt" "1.txt"
                  "application/octet-stream" "token-a" None Drive.defaultMaxRetries w in
  let batch := Upload.upload_files "token-a" "root" false ∅
                 [Scenario.unit_1; Scenario.unit_2] [] w in
  fst single = Throw AUTHENTICATION_EXPIRED
  /\ length (List.filter Policy.is_upload_attempt (Env.trace (snd single))) = 3
  /\ length (List.filter Policy.is_sleep (Env.trace (snd single))) = 2
  /\ fst batch = Ok [Upload.failed_with AUTHENTICATION_EXPIRED Scenario.unit_1;
                     Upload.succeeded Scenario.uploaded_2 Scenario.unit_2]
  /\ In (Env.EvUpload "/Users/a/2.txt" "2.txt" None) (Env.trace (snd batch)).
Proof.
  cbv zeta. repeat split; vm_compute; try reflexivity.
  do 5 right. left. reflexivity.
Qed.

(** ** Partial failure of a batch *)
Section PartialFailure.
Import Text Types Env Drive Upload Policy Scenario.

(** A unit consumes exactly the answers of its fate, starts with an
    upload attempt, and settles as its fate says. *)
Lemma uploadFileWithRetry_fate (filePath fileName mimeType accessToken : string)
    (parentFolderId : option string) (fate : Fate) (w : World)
    (rest : list (Http GoogleDriveFile)) :
  within_attempts fate ->
  uploadNet w = upload_answers fate ++ rest ->
  exists w' later,
    uploadFileWithRetry filePath fileName mimeType accessToken parentFolderId
                        defaultMaxRetries w = (fate_result fate, w')
    /\ uploadNet w' = rest
    /\ trace w' = trace w ++ EvUpload filePath fileName parentFolderId :: later.
Proof.
  intros Hwf Hnet. destruct fate as [e1 e2 e3|before uploaded].
  - cbn [upload_answers app] in Hnet.
    destruct (retry_three_failures filePath fileName mimeType accessToken parentFolderId
                w _ _ _ rest _ _ _ Hnet
                (failure_answer_result e1) (failure_answer_result e2)
                (failure_answer_result e3)) as (w' & Hrun & Htrace & Hrest).
    exists w'. eexists. split; [exact Hrun|]. split; [exact Hrest|exact Htrace].
  - cbn [within_attempts] in Hwf. unfold defaultMaxRetries in Hwf.
    cbn [upload_answers fate_result] in *.
    unfold uploadFileWithRetry, defaultMaxRetries.
    destruct before as [|e1 [|e2 [|e3 more]]]; cbn [map app] in Hnet.
    + rewrite (retry_from_uploaded _ _ _ _ _ _ _ _ _ w uploaded rest Hnet).
      eexists. eexists. split; [reflexivity|]. split.
      * rewrite after_permission_uploadNet. reflexivity.
      * rewrite after_permission_trace. cbn [trace log set_uploadNet].
        rewrite <- !app_assoc. reflexivity.
    + rewrite (retry_from_failed _ _ _ _ _ _ _ _ _ w _ _ _ Hnet (failure_answer_result e1)).
      cbn [Nat.ltb Nat.leb Nat.sub].
      erewrite (retry_from_uploaded _ _ _ _ _ _ _ _ _ _ uploaded rest); [|reflexivity].
      eexists. eexists. split; [reflexivity|]. split.
      * rewrite after_permission_uploadNet. reflexivity.
      * rewrite after_permission_trace. cbn [trace log set_uploadNet].
        rewrite <- !app_assoc. reflexivity.
    + rewrite (retry_from_failed _ _ _ _ _ _ _ _ _ w _ _ _ Hnet (failure_answer_result e1)).
      cbn [Nat.ltb Nat.leb Nat.sub].
      erewrite (retry_from_failed _ _ _ _ _ _ _ _ _ _ (failure_answer e2)
                  (HttpOk uploaded :: rest) (failure_text e2));
        [|reflexivity|apply failure_answer_result].
      cbn [Nat.ltb Nat.leb Nat.sub].
      erewrite (retry_from_uploaded _ _ _ _ _ _ _ _ _ _ uploaded rest); [|reflexivity].
      eexists. eexists. split; [reflexivity|]. split.
      * rewrite after_permission_uploadNet. reflexivity.
      * rewrite after_permission_trace. cbn [trace log set_uploadNet].
        rewrite <- !app_assoc. reflexivity.
    + cbn [length] in Hwf. lia.
Qed.

Variables accessToken folderId : string.
Variable hasFolders : bool.
Variable folderIdMap : gmap string string.

Lemma outcome_of_fate (f : FileMetadata) (fate : Fate) :
  match fate_result fate with
  | Ok uploaded => succeeded uploaded f
  | Throw msg => failed_with msg f
  end = outcome_of (f, fate).
Proof. destruct fate; reflexivity. Qed.

(** The loop over a planned batch, from any results gathered so far. *)
Lemma upload_files_plan (plan : list (FileMetadata * Fate)) :
  forall (results : list UploadResult) (w : World) (rest : list (Http GoogleDriveFile)),
    Forall (fun planned => within_attempts (snd planned)) plan ->
    uploadNet w = flat_map (fun planned => upload_answers (snd planned)) plan ++ rest ->
    exists w' events,
      upload_files accessToken folderId hasFolders folderIdMap (map fst plan) results w
      = (Ok (results ++ map outcome_of plan), w')
      /\ uploadNet w' = rest
      /\ trace w' = trace w ++ events
      /\ Forall (fun planned =>
                   In (EvUpload (file_path (fst planned)) (file_name (fst planned))
                         (parent_of_file folderId hasFolders folderIdMap (fst planned)))
                      events) plan.
Proof.
  induction plan as [|[f fate] plan IH]; intros results w rest Hwf Hnet.
  - cbn in Hnet. exists w, []. cbn [map upload_files resolve].
    rewrite !app_nil_r. repeat split; [exact Hnet|constructor].
  - inversion Hwf as [|? ? Hfate Hplan]; subst.
    cbn [flat_map snd] in Hnet. rewrite <- app_assoc in Hnet.
    destruct (uploadFileWithRetry_fate (file_path f) (file_name f) (file_mimeType f)
                accessToken (parent_of_file folderId hasFolders folderIdMap f)
                fate w _ Hfate Hnet) as (w1 & later & Hrun & Hnet1 & Htrace1).
    destruct (IH (results ++ [outcome_of (f, fate)]) w1 rest Hplan Hnet1)
      as (w' & events & Hloop & Hrest & Htrace & Hall).
    exists w', (EvUpload (file_path f) (file_name f)
                  (parent_of_file folderId hasFolders folderIdMap f) :: later ++ events).
    cbn [map fst].
    rewrite (upload_files_step accessToken folderId hasFolders folderIdMap
               f (map fst plan) results w w1 _ Hrun).
    rewrite outcome_of_fate, Hloop, <- app_assoc. cbn [app].
    split; [reflexivity|]. split; [exact Hrest|]. split.
    + rewrite Htrace, Htrace1, <- app_assoc. reflexivity.
    + constructor.
      * left. reflexivity.
      * eapply Forall_impl; [exact Hall|]. intros planned Hin.
        right. apply in_or_app. right. exact Hin.
Qed.

Lemma count_outcomes (plan : list (FileMetadata * Fate)) :
  length (List.filter (fun r => negb (success r)) (map outcome_of plan))
  = length (List.filter (fun planned => exhausted (snd planned)) plan)
  /\ length (List.filter success (map outcome_of plan))
     = length plan - length (List.filter (fun planned => exhausted (snd planned)) plan).
Proof.
  induction plan as [|[f fate] plan [IHf IHs]]; [split; reflexivity|].
  assert (Hle : length (List.filter (fun planned => exhausted (snd planned)) plan)
                <= length plan) by apply List.filter_length_le.
  destruct fate; cbn [map List.filter outcome_of snd fst exhausted success
                      failed_with succeeded negb length].
  - rewrite IHf, IHs. split; lia.
  - rewrite IHf, IHs. split; lia.
Qed.

(** Every planned unit is matched by its expected outcome. *)
Lemma outcomes_recorded (plan : list (FileMetadata * Fate)) :
  Forall2 recorded_as plan (map outcome_of plan).
Proof.
  induction plan as [|[f fate] plan IH]; [constructor|].
  cbn [map]. constructor; [|exact IH].
  destruct fate; repeat split.
Qed.

(** C8. A batch of N units, K of them exhausting their three attempts
    (wherever they stand in the batch, whatever their errors) and the
    others uploaded within three attempts: the loop returns N results in
    the order of the units, each under the local path of its unit; the
    result of a unit that exhausted its attempts is marked failed and
    carries the error of its last attempt and no file, the result of any
    other unit is marked succeeded and carries the uploaded file and no
    error; K results are failed and N - K succeeded; and every unit has
    been attempted. *)
Theorem upload_files_partial_failure (plan : list (FileMetadata * Fate)) (w : World)
    (rest : list (Http GoogleDriveFile)) :
  Forall (fun planned => within_attempts (snd planned)) plan ->
  uploadNet w = flat_map (fun planned => upload_answers (snd planned)) plan ++ rest ->
  let N := length plan in
  let K := length (List.filter (fun planned => exhausted (snd planned)) plan) in
  exists results w' events,
    upload_files accessToken folderId hasFolders folderIdMap (map fst plan) [] w
    = (Ok results, w')
    /\ results = map outcome_of plan
    /\ Forall2 recorded_as plan results
    /\ length results = N
    /\ length (List.filter (fun r => negb (success r)) results) = K
    /\ length (List.filter success results) = N - K
    /\ trace w' = trace w ++ events
    /\ Forall (fun planned =>
                 In (EvUpload (file_path (fst planned)) (file_name (fst planned))
                       (parent_of_file folderId hasFolders folderIdMap (fst planned)))
                    events) plan.
Proof.
  intros Hwf Hnet N K.
  destruct (upload_files_plan plan [] w rest Hwf Hnet)
    as (w' & events & Hloop & _ & Htrace & Hall).
  destruct (count_outcomes plan) as [Hfailed Hsucceeded].
  exists (map outcome_of plan), w', events.
  split; [exact Hloop|]. split; [reflexivity|].
  split; [apply outcomes_recorded|].
  split; [apply length_map|]. split; [exact Hfailed|].
  split; [exact Hsucceeded|]. split; [exact Htrace|exact Hall].
Qed.

End PartialFailure.

(** Three units, the second one failing three times: two uploaded files
    around one failed result. *)
Lemma upload_files_partial_failure_witness :
  let plan := [(Scenario.unit_1, Policy.Succeeds [] Scenario.uploaded_1);
               (Scenario.unit_2, Policy.Exhausts (Policy.FailedStatus 500 "first")
                                                 (Policy.NoResponse "socket hang up")
                                                 (Policy.FailedStatus 503 "last"));
               (Scenario.unit_3, Policy.Succeeds [Policy.FailedStatus 429 "slow down"]
                                                 Scenario.uploaded_3)] in
  let w := Scenario.uploads_only
             (flat_map (fun planned => Policy.upload_answers (snd planned)) plan) in
  exists w',
    Upload.upload_files "token-a" "root" false ∅ (map fst plan) [] w
    = (Ok [ {| Types.success := true; Types.file := Some Scenario.uploaded_1;
               Types.error := None; Types.localPath := "/Users/a/1.txt" |};
            {| Types.success := false; Types.file := None;
               Types.error := Some "Failed to upload file: 503 last";
               Types.localPath := "/Users/a/2.txt" |};
            {| Types.success := true; Types.file := Some Scenario.uploaded_3;
               Types.error := None; Types.localPath := "/Users/a/3.txt" |} ], w').
Proof.
  intros plan w.
  destruct (upload_files_partial_failure "token-a" "root" false ∅ plan w []) as
    (results & w' & events & Hloop & Hresults & _).
  - repeat constructor.
  - vm_compute. reflexivity.
  - exists w'. rewrite Hloop, Hresults. vm_compute. reflexivity.
Defined.

(** ** Folders: find or create *)
Section FolderFacts.
Import Text Types Env Drive Policy Scenario.

Lemma search_remote (folderName parent : string) (w w' : World) :
  remote w' = remote w -> search folderName parent w' = search folderName parent w.
Proof. intros H. unfold search. rewrite H. reflexivity. Qed.

(** [ensureFolder] when its search request is answered. *)
Lemma ensureFolder_search_answered (folderName accessToken : string)
    (parentFolderId : option string) (w : World) (later : list (Http unit)) :
  searchNet w = HttpOk tt :: later ->
  ensureFolder folderName accessToken parentFolderId w
  = let w1 := set_searchNet later (log (EvSearch folderName (parent_or_root parentFolderId)) w) in
    match search folderName (parent_or_root parentFolderId) w with
    | found :: _ => (Ok found, w1)
    | [] => createFolder folderName accessToken parentFolderId w1
    end.
Proof.
  intros Hnet. unfold ensureFolder, next_search. cbn [searchNet log].
  rewrite Hnet. cbv zeta.
  rewrite (search_remote _ _ w) by reflexivity. reflexivity.
Qed.

(** A folder just created is what the same search finds. *)
Lemma created_folder_matches (folderName : string) (parentFolderId : option string)
    (newId : string) :
  matches folderName (parent_or_root parentFolderId)
    ({| gfolder_id := newId; gfolder_name := folderName; gfolder_webViewLink := None;
        gfolder_parents := [parent_or_root parentFolderId] |}, false) = true.
Proof.
  unfold matches. cbn [fst snd gfolder_name gfolder_parents existsb negb].
  rewrite !String.eqb_refl. reflexivity.
Qed.

Lemma search_after_create (folderName parent : string) (w : World) (f : GoogleDriveFolder) :
  search folderName parent w = [] ->
  matches folderName parent (f, false) = true ->
  search folderName parent (store_folder f w) = [f].
Proof.
  intros Hnone Hmatch. unfold search in *. cbn [remote store_folder].
  rewrite List.filter_app, map_app, Hnone. cbn [List.filter].
  rewrite Hmatch. reflexivity.
Qed.

(** C5 (amended). When the search request of each of two calls in a row
    is answered, the second call returns the very folder the first one
    returned, creates nothing and leaves Drive as it was; and a folder of
    that name, not trashed, under that parent, is returned by the first
    call without anything being created. *)
Theorem ensureFolder_idempotent_when_search_answers (folderName accessToken : string)
    (parentFolderId : option string) (w w1 : World) (f1 : GoogleDriveFolder)
    (later : list (Http unit)) :
  searchNet w = HttpOk tt :: HttpOk tt :: later ->
  ensureFolder folderName accessToken parentFolderId w = (Ok f1, w1) ->
  exists w2,
    ensureFolder folderName accessToken parentFolderId w1 = (Ok f1, w2)
    /\ remote w2 = remote w1
    /\ trace w2 = trace w1 ++ [EvSearch folderName (parent_or_root parentFolderId)]
    /\ (forall existing others,
          search folderName (parent_or_root parentFolderId) w = existing :: others ->
          f1 = existing /\ remote w1 = remote w).
Proof.
  intros Hnet Hfirst.
  rewrite (ensureFolder_search_answered _ _ _ w _ Hnet) in Hfirst. cbv zeta in Hfirst.
  destruct (search folderName (parent_or_root parentFolderId) w) as [|found others] eqn:Hsearch.
  - unfold createFolder, next_create in Hfirst. cbn [createNet log set_searchNet] in Hfirst.
    destruct (createNet w) as [|[newId|status errorText|msg] answers].
    + discriminate Hfirst.
    + injection Hfirst as <- <-.
      eexists. split.
      * rewrite (ensureFolder_search_answered _ _ _ _ later) by reflexivity. cbv zeta.
        erewrite search_after_create.
        -- reflexivity.
        -- rewrite <- Hsearch. apply search_remote. reflexivity.
        -- apply created_folder_matches.
      * split; [reflexivity|]. split; [reflexivity|]. intros existing rest H. discriminate H.
    + destruct (Nat.eqb status 401); discriminate Hfirst.
    + discriminate Hfirst.
  - injection Hfirst as <- <-.
    eexists. split.
    + rewrite (ensureFolder_search_answered _ _ _ _ later) by reflexivity. cbv zeta.
      rewrite (search_remote _ _ w) by reflexivity. rewrite Hsearch. reflexivity.
    + split; [reflexivity|]. split; [reflexivity|].
      intros existing rest H. injection H as <- <-. split; reflexivity.
Qed.

End FolderFacts.

(** On an empty Drive the first call creates "photos", the second one
    finds it. *)
Lemma ensureFolder_idempotent_when_search_answers_witness :
  exists created w1 w2,
    Drive.ensureFolder "photos" "token-a" None Scenario.empty_drive = (Ok created, w1)
    /\ Drive.ensureFolder "photos" "token-a" None w1 = (Ok created, w2)
    /\ Types.gfolder_id created = "N1"
    /\ map fst (Env.remote w2) = [created].
Proof.
  pose (created := {| Types.gfolder_id := "N1"; Types.gfolder_name := "photos";
                      Types.gfolder_webViewLink := None;
                      Types.gfolder_parents := ["root"] |}).
  pose (w1 := snd (Drive.ensureFolder "photos" "token-a" None Scenario.empty_drive)).
  destruct (ensureFolder_idempotent_when_search_answers "photos" "token-a" None
              Scenario.empty_drive w1 created [Env.HttpOk tt] eq_refl eq_refl)
    as (w2 & Hsecond & Hremote & _ & _).
  exists created, w1, w2. split; [reflexivity|]. split; [exact Hsecond|].
  split; [reflexivity|]. rewrite Hremote. reflexivity.
Defined.

(** C5 (as stated) fails: Drive holds "photos" in the root; the first
    call finds it; the search of the second call is answered with status
    500, and the second call creates a second "photos" with another id. *)
Lemma ensureFolder_duplicates_when_search_fails :
  let first := Drive.ensureFolder "photos" "token-a" None Scenario.flaky_search in
  let second := Drive.ensureFolder "photos" "token-a" None (snd first) in
  Env.remote (snd first) = Env.remote Scenario.flaky_search
  /\ fst first = Ok Scenario.photos_folder
  /\ fst second = Ok {| Types.gfolder_id := "F2"; Types.gfolder_name := "photos";
                        Types.gfolder_webViewLink := None;
                        Types.gfolder_parents := ["root"] |}
  /\ fst second <> fst first
  /\ map (fun entry => Types.gfolder_name (fst entry)) (Env.remote (snd second))
     = ["photos"; "photos"].
Proof.
  cbv zeta. repeat split; try (vm_compute; reflexivity).
  vm_compute. discriminate.
Qed.

(** ** Flattening a selection *)
Section FlattenFacts.
Import Text Types FileUtils Policy Scenario.

Variable mime_lookup : string -> option string.

Lemma unit_at_below (dirPath base : segments) (name : string) (found : segments * nat) :
  unit_at mime_lookup dirPath base (name :: fst found, snd found)
  = unit_at mime_lookup (join_segs dirPath name) base found.
Proof.
  unfold unit_at, join_segs. cbn [fst snd]. rewrite <- app_assoc. reflexivity.
Qed.

(** The walk emits one unit per listed visible file, in order. *)
Lemma walkNode_visible_files (n : node) :
  forall dirPath base,
    walkNode mime_lookup n dirPath base
    = map (unit_at mime_lookup dirPath base) (visible_files n).
Proof.
  induction n as [sz|readable entries IH|] using node_tree_ind; intros dirPath base;
    [reflexivity| |reflexivity].
  destruct readable; [|reflexivity].
  cbn [walkNode visible_files].
  induction IH as [|[name child] es Hchild _ IHes]; [reflexivity|].
  rewrite map_app, <- IHes. f_equal.
  destruct (startsWith_dot name); [reflexivity|].
  destruct child as [sz|r sub|]; [reflexivity| |reflexivity].
  cbn [snd] in Hchild. rewrite Hchild, map_map.
  apply map_ext. intros found. symmetry. apply unit_at_below.
Qed.

Lemma visible_files_listed (entries : list (string * node)) :
  visible_files (Directory true entries) = flat_map listed entries.
Proof.
  cbn [visible_files]. induction entries as [|[name child] es IH]; [reflexivity|].
  cbn [flat_map]. rewrite <- IH. reflexivity.
Qed.

(** The listing is exactly the visible files. *)
Lemma visible_files_spec (n : node) :
  forall rest size, In (rest, size) (visible_files n) <-> visible_file n rest size.
Proof.
  induction n as [sz|readable entries IH|] using node_tree_ind; intros rest size.
  - split; [intros []|intros H; inversion H].
  - destruct readable; [|split; [intros []|intros H; inversion H]].
    rewrite visible_files_listed, in_flat_map. split.
    + intros ([name child] & Hentry & Hlisted).
      unfold listed in Hlisted. cbn [fst snd] in Hlisted.
      destruct (startsWith_dot name) eqn:Hdot; [destruct Hlisted|].
      destruct child as [sz|r sub|].
      * destruct Hlisted as [Heq|[]]. injection Heq as <- <-.
        apply visible_entry; assumption.
      * apply in_map_iff in Hlisted as ([rest' size'] & Heq & Hin).
        cbn [fst snd] in Heq. injection Heq as <- <-.
        apply (visible_below entries name r sub); [assumption..|].
        rewrite Forall_forall in IH. apply (IH (name, Directory r sub)).
        -- apply list_elem_of_In. exact Hentry.
        -- exact Hin.
      * destruct Hlisted.
    + intros H. inversion H as [es name sz Hentry Hdot|es name r sub rest' sz Hentry Hdot Hsub];
        subst.
      * exists (name, RegularFile size). split; [exact Hentry|].
        unfold listed. cbn [fst snd]. rewrite Hdot. left. reflexivity.
      * exists (name, Directory r sub). split; [exact Hentry|].
        unfold listed. cbn [fst snd]. rewrite Hdot.
        apply in_map_iff. exists (rest', size). split; [reflexivity|].
        rewrite Forall_forall in IH. apply (IH (name, Directory r sub)).
        -- apply list_elem_of_In. exact Hentry.
        -- exact Hsub.
  - split; [intros []|intros H; inversion H].
Qed.

(** Every listed path starts with the name of its entry. *)
Lemma listed_head (entry : string * node) (found : segments * nat) :
  In found (listed entry) -> head (fst found) = Some (fst entry).
Proof.
  unfold listed. destruct (startsWith_dot (fst entry)); [intros []|].
  destruct (snd entry) as [sz|r sub|].
  - intros [<-|[]]. reflexivity.
  - intros Hin. apply in_map_iff in Hin as (found' & <- & _). reflexivity.
  - intros [].
Qed.

Lemma NoDup_listed_entries (entries : list (string * node)) :
  NoDup (map fst entries) ->
  Forall (fun entry => NoDup (map fst (listed entry))) entries ->
  NoDup (map fst (flat_map listed entries)).
Proof.
  induction entries as [|entry es IH]; intros Hnames Hall; [constructor|].
  cbn [map] in Hnames. apply NoDup_cons in Hnames as [Hfresh Hnames].
  inversion Hall as [|? ? Hentry Hrest]; subst.
  cbn [flat_map]. rewrite map_app. apply NoDup_app. split; [exact Hentry|]. split.
  - intros rest Hhere Hthere. apply Hfresh.
    apply list_elem_of_In, in_map_iff in Hhere as (found & <- & Hfound).
    apply list_elem_of_In, in_map_iff in Hthere as (found' & Hsame & Hfound').
    apply in_flat_map in Hfound' as (entry' & Hentry' & Hlisted').
    apply listed_head in Hfound. apply listed_head in Hlisted'.
    rewrite Hsame, Hfound in Hlisted'. injection Hlisted' as ->.
    apply list_elem_of_In, in_map. exact Hentry'.
  - apply IH; assumption.
Qed.

(** With unique names no file is listed twice. *)
Lemma visible_files_NoDup (n : node) :
  unique_names n -> NoDup (map fst (visible_files n)).
Proof.
  induction n as [sz|readable entries IH|] using node_tree_ind; intros Hunique;
    [constructor| |constructor].
  destruct readable; [|constructor].
  inversion Hunique as [| |r es Hnames Hsub]; subst.
  rewrite visible_files_listed. apply NoDup_listed_entries; [exact Hnames|].
  rewrite Forall_forall in *. intros [name child] Hin.
  unfold listed. cbn [fst snd]. destruct (startsWith_dot name); [constructor|].
  destruct child as [sz|r sub|].
  - cbn. apply NoDup_singleton.
  - rewrite map_map. cbn [fst].
    specialize (IH _ Hin (Hsub _ Hin)). cbn [snd] in IH.
    rewrite <- (map_map fst (cons name)).
    apply NoDup_fmap_2; [|exact IH]. intros a b Hab. injection Hab as ->. reflexivity.
  - constructor.
Qed.

(** No name on the way to a visible file begins with a dot. *)
Lemma visible_file_no_dot (n : node) (rest : segments) (size : nat) :
  visible_file n rest size -> Forall (fun name => startsWith_dot name = false) rest.
Proof.
  induction 1 as [entries name size Hin Hdot|entries name r sub rest size Hin Hdot _ IH].
  - constructor; [exact Hdot|constructor].
  - constructor; assumption.
Qed.

Lemma visible_file_nonempty (n : node) (rest : segments) (size : nat) :
  visible_file n rest size -> rest <> [].
Proof. destruct 1; discriminate. Qed.

(** [relative] from a prefix is what follows the prefix. *)
Lemma relative_segs_below (base rest : segments) :
  relative_segs base (base ++ rest) = rest.
Proof.
  induction base as [|seg base IH]; cbn [relative_segs app].
  - destruct rest; reflexivity.
  - rewrite String.eqb_refl. exact IH.
Qed.

(** Under a selected directory [parent/name], the relative path of the
    unit found at [rest] is [name/rest]. *)
Lemma unit_at_relativePath (parent : segments) (name : string) (found : segments * nat) :
  relativePath (unit_at mime_lookup (parent ++ [name]) (dirname_segs (parent ++ [name])) found)
  = Some (join_slash (name :: fst found)).
Proof.
  unfold unit_at, metadata, dirname_segs, relative. cbn [relativePath].
  rewrite removelast_last, <- app_assoc, relative_segs_below. reflexivity.
Qed.

(** [getAllFiles] gathers the contributions of the selected paths, in
    order; it throws only on a path that is not there. *)
Lemma getAllFiles_from_contributions (fs : node) (paths : list string) :
  forall allFiles,
    Forall (fun p => statSync fs p <> None) paths ->
    getAllFiles_from mime_lookup fs paths allFiles
    = Ok (allFiles ++ flat_map (contribution_of mime_lookup fs) paths).
Proof.
  induction paths as [|p paths IH]; intros allFiles Hall.
  - cbn. rewrite app_nil_r. reflexivity.
  - inversion Hall as [|? ? Hp Hpaths]; subst.
    cbn [getAllFiles_from flat_map]. unfold isDirectory, getFileMetadata.
    unfold contribution_of at 1.
    destruct (statSync fs p) as [[sz|readable entries|]|] eqn:Hstat; [| | |congruence].
    + rewrite IH by exact Hpaths. rewrite <- app_assoc. reflexivity.
    + rewrite IH by exact Hpaths.
      unfold walkDirectory. unfold statSync in Hstat. rewrite Hstat.
      rewrite walkNode_visible_files, <- app_assoc. reflexivity.
    + rewrite IH by exact Hpaths. rewrite <- app_assoc. reflexivity.
Qed.

Lemma getAllFiles_contributions (fs : node) (paths : list string) :
  Forall (fun p => statSync fs p <> None) paths ->
  getAllFiles mime_lookup fs paths = Ok (flat_map (contribution_of mime_lookup fs) paths).
Proof. intros Hall. apply (getAllFiles_from_contributions fs paths [] Hall). Qed.

End FlattenFacts.

Section SelectionFacts.
Import Text Types FileUtils Policy Scenario.

Variable mime_lookup : string -> option string.

(** The segments of a path string have no slash. *)
Lemma parse_path_slash_free (p : string) : Forall slash_free (parse_path p).
Proof.
  unfold parse_path. pose proof (split_slash_parts_free p) as Hall.
  induction Hall as [|part parts Hpart _ IH]; [constructor|].
  cbn [List.filter]. destruct (truthy part); [constructor; assumption|exact IH].
Qed.

(** A path that is there is flattened as [flattened_as] says. *)
Lemma contribution_flattened (fs : node) (p : string) :
  statSync fs p <> None ->
  flattened_as mime_lookup fs p (contribution_of mime_lookup fs p).
Proof.
  intros Hthere. unfold flattened_as, contribution_of.
  destruct (statSync fs p) as [[size|readable entries|]|]; [| | |congruence].
  - eexists. repeat split.
  - exists (visible_files (Directory readable entries)).
    split; [reflexivity|]. split; [apply visible_files_spec|].
    split; [apply visible_files_NoDup|].
    intros parent name Hparse. apply Forall_forall. intros file _. cbv zeta.
    rewrite Hparse. split; [|split].
    + unfold unit_at, metadata. cbn [file_path]. rewrite <- app_assoc. reflexivity.
    + apply unit_at_relativePath.
    + apply split_join_head.
      pose proof (parse_path_slash_free p) as Hfree. rewrite Hparse in Hfree.
      apply Forall_app in Hfree as [_ Hname]. inversion Hname; assumption.
  - eexists. reflexivity.
Qed.

(** C4. When every selected path is there, [getAllFiles] returns the
    units of the selected paths one after the other: for a selected plain
    file exactly one unit, under the selected path and without relative
    path; for a selected directory one unit per regular file found under
    it, whose relative path is the name of the selected directory followed
    by the names down to the file, that is the path of the file relative
    to the parent of the selected directory. *)
Theorem getAllFiles_units (fs : node) (paths : list string) :
  Forall (fun p => statSync fs p <> None) paths ->
  exists contributions : list (list FileMetadata),
    getAllFiles mime_lookup fs paths = Ok (concat contributions)
    /\ Forall2 (flattened_as mime_lookup fs) paths contributions.
Proof.
  intros Hall. exists (map (contribution_of mime_lookup fs) paths). split.
  - rewrite (getAllFiles_contributions mime_lookup fs paths Hall).
    rewrite flat_map_concat_map. reflexivity.
  - induction Hall as [|p paths Hp _ IH]; [constructor|].
    cbn [map]. constructor; [|exact IH].
    apply contribution_flattened. exact Hp.
Qed.

(** C10. When every selected path is there: a plain file selected
    directly gets its unit whatever its name, a name beginning with a dot
    included; and every unit that comes out of a walk (it has a relative
    path) is a file found under a selected directory along names none of
    which begins with a dot. *)
Theorem hidden_entries_skipped_only_in_walk (fs : node) (paths : list string) :
  Forall (fun p => statSync fs p <> None) paths ->
  exists units,
    getAllFiles mime_lookup fs paths = Ok units
    /\ (forall p size,
          In p paths -> statSync fs p = Some (RegularFile size) ->
          exists u, In u units /\ file_path u = p /\ relativePath u = None)
    /\ (forall u,
          In u units -> relativePath u <> None ->
          exists p readable entries rest size,
            In p paths
            /\ statSync fs p = Some (Directory readable entries)
            /\ visible_file (Directory readable entries) rest size
            /\ u = unit_at mime_lookup (parse_path p) (dirname_segs (parse_path p)) (rest, size)
            /\ file_path u = render (parse_path p ++ rest)
            /\ Forall (fun name => startsWith_dot name = false) rest).
Proof.
  intros Hall. eexists. split; [apply getAllFiles_contributions; exact Hall|]. split.
  - intros p size Hin Hstat. eexists. split; [|split].
    + apply in_flat_map. exists p. split; [exact Hin|].
      unfold contribution_of. rewrite Hstat. left. reflexivity.
    + reflexivity.
    + reflexivity.
  - intros u Hu Hrel. apply in_flat_map in Hu as (p & Hin & Hu).
    unfold contribution_of in Hu.
    destruct (statSync fs p) as [[size|readable entries|]|] eqn:Hstat.
    + destruct Hu as [<-|[]]. cbn in Hrel. congruence.
    + apply in_map_iff in Hu as ([rest size] & <- & Hfound).
      apply visible_files_spec in Hfound.
      exists p, readable, entries, rest, size.
      split; [exact Hin|]. split; [exact Hstat|]. split; [exact Hfound|].
      split; [reflexivity|]. split; [reflexivity|].
      exact (visible_file_no_dot _ _ _ Hfound).
    + destruct Hu as [<-|[]]. cbn in Hrel. congruence.
    + destruct Hu.
Qed.

End SelectionFacts.

(** The selection of the scenario is all there. *)
Lemma selection_there :
  Forall (fun p => FileUtils.statSync Scenario.disk p <> None) Scenario.selection.
Proof.
  unfold Scenario.selection.
  repeat (constructor; [vm_compute; discriminate|]). constructor.
Defined.

(** The scenario: a file, a hidden file and the folder [photos]. *)
Lemma getAllFiles_units_witness :
  exists contributions : list (list Types.FileMetadata),
    FileUtils.getAllFiles Scenario.no_mime Scenario.disk Scenario.selection
    = Ok (concat contributions)
    /\ Forall2 (Policy.flattened_as Scenario.no_mime Scenario.disk)
               Scenario.selection contributions.
Proof.
  exact (getAllFiles_units Scenario.no_mime Scenario.disk Scenario.selection selection_there).
Defined.

Example getAllFiles_scenario :
  FileUtils.getAllFiles Scenario.no_mime Scenario.disk Scenario.selection
  = Ok [Scenario.octet_stream "/Users/a/doc.pdf" "doc.pdf" 120 None;
        Scenario.octet_stream "/Users/a/.profile" ".profile" 7 None;
        Scenario.octet_stream "/Users/a/photos/x.jpg" "x.jpg" 300 (Some "photos/x.jpg");
        Scenario.octet_stream "/Users/a/photos/sub/y.png" "y.png" 400
                              (Some "photos/sub/y.png")].
Proof. vm_compute. reflexivity. Qed.

(** In the scenario the hidden file selected directly is flattened, the
    hidden entries inside [photos] are not. *)
Lemma hidden_entries_skipped_only_in_walk_witness :
  exists units,
    FileUtils.getAllFiles Scenario.no_mime Scenario.disk Scenario.selection = Ok units
    /\ (exists u, In u units /\ Types.file_path u = "/Users/a/.profile"
                  /\ Types.relativePath u = None)
    /\ (forall u, In u units -> Types.relativePath u <> None ->
          Types.file_path u <> "/Users/a/photos/.DS_Store"
          /\ Types.file_path u <> "/Users/a/photos/.cache/thumb.png").
Proof.
  destruct (hidden_entries_skipped_only_in_walk Scenario.no_mime Scenario.disk
              Scenario.selection selection_there) as (units & Hrun & Hdirect & Hwalk).
  exists units. split; [exact Hrun|]. split.
  - apply (Hdirect "/Users/a/.profile" 7).
    + right. left. reflexivity.
    + reflexivity.
  - intros u Hu Hrel.
    assert (Hunits : units = [Scenario.octet_stream "/Users/a/doc.pdf" "doc.pdf" 120 None;
        Scenario.octet_stream "/Users/a/.profile" ".profile" 7 None;
        Scenario.octet_stream "/Users/a/photos/x.jpg" "x.jpg" 300 (Some "photos/x.jpg");
        Scenario.octet_stream "/Users/a/photos/sub/y.png" "y.png" 400
                              (Some "photos/sub/y.png")]).
    { rewrite getAllFiles_scenario in Hrun. injection Hrun as <-. reflexivity. }
    subst units.
    repeat (destruct Hu as [<-|Hu]; [split; discriminate|]). destruct Hu.
Defined.

(** ** The folder hierarchy is built parents first *)
Section SortFacts.
Import Text Upload Policy.

Lemma insert_by_depth_In (x y : string) (l : list string) :
  In y (insert_by_depth x l) <-> y = x \/ In y l.
Proof.
  induction l as [|z l IH]; cbn [insert_by_depth].
  - cbn. intuition congruence.
  - destruct (Nat.leb (depth x) (depth z)); cbn [In] in *; [intuition congruence|].
    rewrite IH. intuition congruence.
Qed.

Lemma sort_by_depth_In (x : string) (l : list string) :
  In x (sort_by_depth l) <-> In x l.
Proof.
  induction l as [|y l IH]; [reflexivity|].
  cbn [sort_by_depth In]. rewrite insert_by_depth_In, IH. intuition congruence.
Qed.

Lemma insert_by_depth_sorted (x : string) (l : list string) :
  StronglySorted depth_le l -> StronglySorted depth_le (insert_by_depth x l).
Proof.
  induction 1 as [|y l Hsorted IH Hall]; cbn [insert_by_depth].
  - repeat constructor.
  - destruct (Nat.leb_spec (depth x) (depth y)) as [Hle|Hgt].
    + constructor; [constructor; assumption|].
      constructor; [exact Hle|].
      eapply Forall_impl; [exact Hall|]. unfold depth_le. intros z Hz. lia.
    + constructor; [exact IH|].
      apply Stdlib.Lists.List.Forall_forall. intros z Hz.
      apply insert_by_depth_In in Hz as [->|Hz].
      * unfold depth_le. lia.
      * rewrite Stdlib.Lists.List.Forall_forall in Hall. apply Hall. exact Hz.
Qed.

Lemma sort_by_depth_sorted (l : list string) : StronglySorted depth_le (sort_by_depth l).
Proof.
  induction l as [|x l IH]; [constructor|].
  cbn [sort_by_depth]. apply insert_by_depth_sorted. exact IH.
Qed.

(** In a sorted list, what comes after an element is at least as deep. *)
Lemma sorted_after (before after : list string) (p : string) :
  StronglySorted depth_le (before ++ p :: after) -> Forall (depth_le p) after.
Proof.
  induction before as [|x before IH]; cbn [app]; intros Hsorted.
  - apply StronglySorted_inv in Hsorted as [_ Hall]. exact Hall.
  - apply StronglySorted_inv in Hsorted as [Hsorted _]. apply IH. exact Hsorted.
Qed.

(** The depth of a path is one more than the number of its separators. *)
Lemma depth_separators (folderPath : string) :
  depth folderPath = S (separators folderPath).
Proof.
  unfold depth. induction folderPath as [|c rest IH]; [reflexivity|].
  cbn [split_slash separators]. destruct (Ascii.eqb c "/").
  - cbn [length]. rewrite IH. reflexivity.
  - pose proof (split_slash_nonempty rest) as Hne.
    destruct (split_slash rest) as [|part parts]; [congruence|].
    cbn [length] in *. rewrite IH. reflexivity.
Qed.

Lemma sort_by_depth_shallower (l : list string) :
  StronglySorted shallower (sort_by_depth l).
Proof.
  pose proof (sort_by_depth_sorted l) as Hsorted.
  induction Hsorted as [|x rest _ IH Hall]; constructor; [exact IH|].
  eapply Forall_impl; [exact Hall|]. intros y Hy.
  unfold depth_le in Hy. rewrite !depth_separators in Hy. unfold shallower. lia.
Qed.

End SortFacts.

Section StructureFacts.
Import Text Types FileUtils Upload Policy.

Lemma has_key_In (k : string) (structure : list (string * list string)) :
  has_key k structure = true <-> In k (map fst structure).
Proof.
  unfold has_key. rewrite existsb_exists, in_map_iff. split.
  - intros (kv & Hin & Heq). apply String.eqb_eq in Heq. exists kv. split; assumption.
  - intros (kv & Heq & Hin). exists kv. split; [exact Hin|]. apply String.eqb_eq. exact Heq.
Qed.

Lemma set_if_absent_keys (k x : string) (structure : list (string * list string)) :
  In x (map fst (set_if_absent k structure)) <-> x = k \/ In x (map fst structure).
Proof.
  unfold set_if_absent. destruct (has_key k structure) eqn:Hhas.
  - apply has_key_In in Hhas. intuition congruence.
  - rewrite map_app, in_app_iff. cbn. intuition congruence.
Qed.

Lemma parent_known_mono (keys keys' : list string) (k : string) :
  (forall x, In x keys -> In x keys') -> parent_known keys k -> parent_known keys' k.
Proof.
  intros Hsub [Htop|[Hin Hdepth]]; [left; exact Htop|right].
  split; [apply Hsub; exact Hin|exact Hdepth].
Qed.

(** The parent of [currentPath/part] is [currentPath], one level up. *)
Lemma parentPath_of_child (currentPath part : string) :
  slash_free part ->
  parentPath_of (currentPath +:+ "/" +:+ part) = currentPath
  /\ depth (currentPath +:+ "/" +:+ part) = S (depth currentPath).
Proof.
  intros Hfree. unfold parentPath_of, depth.
  rewrite split_slash_app, (split_slash_free _ Hfree), length_app. cbn [length].
  pose proof (split_slash_nonempty currentPath) as Hne.
  destruct (split_slash currentPath) as [|part0 parts] eqn:Hsplit; [congruence|].
  split; [|lia].
  replace (Nat.ltb 1 (length (part0 :: parts) + 1)) with true
    by (symmetry; apply Nat.ltb_lt; cbn [length]; lia).
  rewrite removelast_last, <- Hsplit. apply join_split_slash.
Qed.

(** A single part sits directly under the destination. *)
Lemma parentPath_of_top (part : string) :
  slash_free part -> parentPath_of part = ".".
Proof.
  intros Hfree. unfold parentPath_of. rewrite (split_slash_free _ Hfree). reflexivity.
Qed.

Lemma add_prefixes_grows (parts : list string) :
  forall currentPath structure x,
    In x (map fst structure) ->
    In x (map fst (add_prefixes parts currentPath structure)).
Proof.
  induction parts as [|part parts IH]; intros currentPath structure x Hin; [exact Hin|].
  cbn [add_prefixes]. apply IH. apply set_if_absent_keys. right. exact Hin.
Qed.

(** The inner loop keeps the keys closed under taking the parent. *)
Lemma add_prefixes_closed (parts : list string) :
  forall currentPath structure,
    Forall slash_free parts ->
    (truthy currentPath = true -> In currentPath (map fst structure)) ->
    (forall k, In k (map fst structure) -> parent_known (map fst structure) k) ->
    forall k, In k (map fst (add_prefixes parts currentPath structure)) ->
              parent_known (map fst (add_prefixes parts currentPath structure)) k.
Proof.
  induction parts as [|part parts IH]; intros currentPath structure Hfree Hcur Hclosed;
    [exact Hclosed|].
  inversion Hfree as [|? ? Hpart Hparts]; subst.
  cbn [add_prefixes]. apply IH; [exact Hparts| |].
  - intros _. apply set_if_absent_keys. left. reflexivity.
  - intros k Hk. apply set_if_absent_keys in Hk as [->|Hk].
    + destruct (truthy currentPath) eqn:Htruthy.
      * destruct (parentPath_of_child currentPath part Hpart) as [Hparent Hdepth].
        right. rewrite Hparent. split; [|lia].
        apply set_if_absent_keys. right. apply Hcur. reflexivity.
      * left. apply parentPath_of_top. exact Hpart.
    + eapply parent_known_mono; [|apply Hclosed; exact Hk].
      intros x Hx. apply set_if_absent_keys. right. exact Hx.
Qed.

Lemma add_file_grows (structure : list (string * list string)) (f : FileMetadata) (x : string) :
  In x (map fst structure) -> In x (map fst (add_file structure f)).
Proof.
  intros Hin. unfold add_file. destruct (relativePath f) as [rel|]; [|exact Hin].
  destruct (truthy rel); [|exact Hin].
  destruct (truthy (dirname rel) && negb (String.eqb (dirname rel) ".")); [|exact Hin].
  apply add_prefixes_grows. exact Hin.
Qed.

Lemma add_file_closed (structure : list (string * list string)) (f : FileMetadata) :
  (forall k, In k (map fst structure) -> parent_known (map fst structure) k) ->
  forall k, In k (map fst (add_file structure f)) ->
            parent_known (map fst (add_file structure f)) k.
Proof.
  intros Hclosed. unfold add_file. destruct (relativePath f) as [rel|]; [|exact Hclosed].
  destruct (truthy rel); [|exact Hclosed].
  destruct (truthy (dirname rel) && negb (String.eqb (dirname rel) ".")); [|exact Hclosed].
  apply add_prefixes_closed; [apply split_slash_parts_free|discriminate|exact Hclosed].
Qed.

Lemma fold_add_file_grows (files : list FileMetadata) :
  forall structure x,
    In x (map fst structure) -> In x (map fst (fold_left add_file files structure)).
Proof.
  induction files as [|f files IH]; intros structure x Hin; [exact Hin|].
  cbn [fold_left]. apply IH. apply add_file_grows. exact Hin.
Qed.

Lemma fold_add_file_closed (files : list FileMetadata) :
  forall structure,
    (forall k, In k (map fst structure) -> parent_known (map fst structure) k) ->
    forall k, In k (map fst (fold_left add_file files structure)) ->
              parent_known (map fst (fold_left add_file files structure)) k.
Proof.
  induction files as [|f files IH]; intros structure Hclosed; [exact Hclosed|].
  cbn [fold_left]. apply IH. apply add_file_closed. exact Hclosed.
Qed.

(** Every derived folder path has its parent among the derived paths,
    one level up, or sits directly under the destination. *)
Lemma extractFolderStructure_closed (files : list FileMetadata) (k : string) :
  In k (map fst (extractFolderStructure files)) ->
  parent_known (map fst (extractFolderStructure files)) k.
Proof.
  apply fold_add_file_closed. intros k' [].
Qed.

(** The last name of [currentPath/part] is [part]. *)
Lemma folderNamePart_of_child (currentPath part : string) :
  slash_free part -> folderNamePart_of (currentPath +:+ "/" +:+ part) = part.
Proof.
  intros Hfree. unfold folderNamePart_of.
  rewrite split_slash_app, (split_slash_free _ Hfree). apply last_last.
Qed.

Lemma folderNamePart_of_top (part : string) :
  slash_free part -> folderNamePart_of part = part.
Proof.
  intros Hfree. unfold folderNamePart_of. rewrite (split_slash_free _ Hfree). reflexivity.
Qed.

(** A path is cut into parent and name in one way only. *)
Lemma child_unique (parent parent' name name' : string) :
  slash_free name -> slash_free name' ->
  parent +:+ "/" +:+ name = parent' +:+ "/" +:+ name' ->
  parent = parent' /\ name = name'.
Proof.
  intros Hname Hname' Heq. split.
  - destruct (parentPath_of_child parent name Hname) as [<- _].
    destruct (parentPath_of_child parent' name' Hname') as [<- _].
    rewrite Heq. reflexivity.
  - rewrite <- (folderNamePart_of_child parent name Hname),
            <- (folderNamePart_of_child parent' name' Hname').
    rewrite Heq. reflexivity.
Qed.

Lemma child_not_slash_free (parent name : string) :
  ~ slash_free (parent +:+ "/" +:+ name).
Proof.
  induction parent as [|c parent IH].
  - change (EmptyString +:+ "/" +:+ name) with (String "/" name).
    cbn [slash_free]. intros [Hc _]. congruence.
  - change (String c parent +:+ "/" +:+ name) with (String c (parent +:+ "/" +:+ name)).
    cbn [slash_free]. intros [_ Hrest]. apply IH. exact Hrest.
Qed.

Lemma parent_listed_mono (keys keys' : list string) (k : string) :
  (forall x, In x keys -> In x keys') -> parent_listed keys k -> parent_listed keys' k.
Proof.
  intros Hsub [Htop|(parent & name & Heq & Hname & Hin)]; [left; exact Htop|right].
  exists parent, name. split; [exact Heq|]. split; [exact Hname|apply Hsub; exact Hin].
Qed.

(** The inner loop enters [part] or [currentPath/part], the latter only
    after [currentPath]. *)
Lemma add_prefixes_listed (parts : list string) :
  forall currentPath structure,
    Forall slash_free parts ->
    (truthy currentPath = true -> In currentPath (map fst structure)) ->
    (forall k, In k (map fst structure) -> parent_listed (map fst structure) k) ->
    forall k, In k (map fst (add_prefixes parts currentPath structure)) ->
              parent_listed (map fst (add_prefixes parts currentPath structure)) k.
Proof.
  induction parts as [|part parts IH]; intros currentPath structure Hfree Hcur Hclosed;
    [exact Hclosed|].
  inversion Hfree as [|? ? Hpart Hparts]; subst.
  cbn [add_prefixes]. apply IH; [exact Hparts| |].
  - intros _. apply set_if_absent_keys. left. reflexivity.
  - intros k Hk. apply set_if_absent_keys in Hk as [->|Hk].
    + destruct (truthy currentPath) eqn:Htruthy.
      * right. exists currentPath, part. split; [reflexivity|]. split; [exact Hpart|].
        apply set_if_absent_keys. right. apply Hcur. reflexivity.
      * left. exact Hpart.
    + eapply parent_listed_mono; [|apply Hclosed; exact Hk].
      intros x Hx. apply set_if_absent_keys. right. exact Hx.
Qed.

(** Every derived folder path is one name, or [parent/name] with
    [parent] a derived path too. *)
Lemma extractFolderStructure_listed (files : list FileMetadata) (k : string) :
  In k (map fst (extractFolderStructure files)) ->
  parent_listed (map fst (extractFolderStructure files)) k.
Proof.
  unfold extractFolderStructure.
  assert (Hstart : forall k', In k' (map fst (@nil (string * list string))) ->
                              parent_listed (map fst (@nil (string * list string))) k')
    by (intros k' []).
  revert Hstart k. generalize (@nil (string * list string)) as structure.
  induction files as [|f files IH]; intros structure Hclosed; [exact Hclosed|].
  cbn [fold_left]. apply IH. unfold add_file.
  destruct (relativePath f) as [rel|]; [|exact Hclosed].
  destruct (truthy rel); [|exact Hclosed].
  destruct (truthy (dirname rel) && negb (String.eqb (dirname rel) ".")); [|exact Hclosed].
  apply add_prefixes_listed; [apply split_slash_parts_free|discriminate|exact Hclosed].
Qed.

End StructureFacts.

Section PrefixFacts.
Import Text Types FileUtils Upload Policy.

Lemma append_assoc (a b c : string) : (a +:+ b) +:+ c = a +:+ (b +:+ c).
Proof.
  induction a as [|ch a IH]; [reflexivity|].
  change ((String ch a +:+ b) +:+ c) with (String ch ((a +:+ b) +:+ c)).
  rewrite IH. reflexivity.
Qed.

Lemma join_slash_cons (part : string) (parts : list string) :
  parts <> [] -> join_slash (part :: parts) = part +:+ "/" +:+ join_slash parts.
Proof. destruct parts; [congruence|reflexivity]. Qed.

Lemma firstn_nonempty {A} (k : nat) (l : list A) :
  1 <= k -> 1 <= length l -> firstn k l <> [].
Proof. destruct k, l; cbn; intros; try lia; discriminate. Qed.

Lemma truthy_append (a b : string) : truthy a = true -> truthy (a +:+ b) = true.
Proof. destruct a; [discriminate|reflexivity]. Qed.

(** Below a path already started, the loop enters every longer prefix. *)
Lemma add_prefixes_enters_below (parts : list string) :
  forall currentPath structure k,
    truthy currentPath = true ->
    1 <= k <= length parts ->
    In (currentPath +:+ "/" +:+ join_slash (firstn k parts))
       (map fst (add_prefixes parts currentPath structure)).
Proof.
  induction parts as [|part parts IH]; intros currentPath structure k Hcur Hk;
    [cbn in Hk; lia|].
  cbn [add_prefixes length] in *. rewrite Hcur.
  destruct k as [|[|k]]; [lia| |].
  - cbn [firstn join_slash]. apply add_prefixes_grows.
    apply set_if_absent_keys. left. reflexivity.
  - assert (Hne : firstn (S k) parts <> []) by (apply firstn_nonempty; lia).
    change (firstn (S (S k)) (part :: parts)) with (part :: firstn (S k) parts).
    rewrite (join_slash_cons _ _ Hne).
    replace (currentPath +:+ "/" +:+ part +:+ "/" +:+ join_slash (firstn (S k) parts))
      with ((currentPath +:+ "/" +:+ part) +:+ "/" +:+ join_slash (firstn (S k) parts))
      by (rewrite !append_assoc; reflexivity).
    apply IH; [apply truthy_append; exact Hcur|lia].
Qed.

(** From the root of the selection, the loop enters every prefix. *)
Lemma add_prefixes_enters (parts : list string) (structure : list (string * list string))
    (k : nat) :
  head parts <> Some EmptyString ->
  1 <= k <= length parts ->
  In (join_slash (firstn k parts)) (map fst (add_prefixes parts EmptyString structure)).
Proof.
  intros Hhead Hk. destruct parts as [|part parts]; [cbn in Hk; lia|].
  assert (Hpart : truthy part = true) by (destruct part; [cbn in Hhead; congruence|reflexivity]).
  cbn [add_prefixes truthy length] in *.
  destruct k as [|[|k]]; [lia| |].
  - cbn [firstn join_slash]. apply add_prefixes_grows.
    apply set_if_absent_keys. left. reflexivity.
  - assert (Hne : firstn (S k) parts <> []) by (apply firstn_nonempty; lia).
    change (firstn (S (S k)) (part :: parts)) with (part :: firstn (S k) parts).
    rewrite (join_slash_cons _ _ Hne).
    apply add_prefixes_enters_below; [exact Hpart|lia].
Qed.

Lemma dirname_truthy (p : string) : truthy (dirname p) = true.
Proof.
  unfold dirname. destruct p as [|c0 tail]; [reflexivity|].
  destruct (skip_name _) as [|slash [|b before]]; destruct (Ascii.eqb c0 "/"); reflexivity.
Qed.

(** Every prefix of the directory of a unit is among the derived paths. *)
Lemma extractFolderStructure_prefixes (files : list FileMetadata) (f : FileMetadata)
    (rel : string) (k : nat) :
  In f files ->
  relativePath f = Some rel ->
  truthy rel = true ->
  dirname rel <> "." ->
  is_relative (dirname rel) ->
  1 <= k <= length (split_slash (dirname rel)) ->
  In (join_slash (firstn k (split_slash (dirname rel))))
     (map fst (extractFolderStructure files)).
Proof.
  intros Hin Hrel Htruthy Hdot Hrelative Hk. unfold extractFolderStructure.
  generalize (@nil (string * list string)) as structure.
  induction files as [|g files IH]; intros structure; [destruct Hin|].
  cbn [fold_left]. destruct Hin as [->|Hin]; [|apply IH; exact Hin].
  apply fold_add_file_grows. unfold add_file. rewrite Hrel, Htruthy, dirname_truthy.
  replace (String.eqb (dirname rel) ".") with false
    by (symmetry; apply String.eqb_neq; exact Hdot).
  cbn [andb negb]. apply add_prefixes_enters; assumption.
Qed.

(** The directory of a path that does not begin with a slash does not
    begin with one either. *)
Lemma dirname_is_relative (c0 : ascii) (tail : string) :
  c0 <> "/"%char -> is_relative (dirname (String c0 tail)).
Proof.
  intros Hc0. unfold is_relative, dirname.
  destruct (Ascii.eqb_spec c0 "/") as [|_]; [contradiction|].
  destruct (skip_name _) as [|slash [|b before]].
  - cbn. discriminate.
  - cbn [split_slash]. destruct (Ascii.eqb_spec c0 "/"); [contradiction|]. cbn. discriminate.
  - cbn [split_slash]. destruct (Ascii.eqb_spec c0 "/"); [contradiction|].
    destruct (split_slash _); cbn; discriminate.
Qed.

(** The relative paths [getAllFiles] gives to the files under a selected
    directory [parent/name] are of that kind. *)
Lemma walked_unit_is_relative (p : string) (parent : list string) (name : string)
    (rest : list string) :
  parse_path p = parent ++ [name] ->
  is_relative (dirname (join_slash (name :: rest))).
Proof.
  intros Hparse.
  assert (Hname : truthy name = true /\ slash_free name).
  { split.
    - assert (Hin : In name (parse_path p))
        by (rewrite Hparse; apply in_or_app; right; left; reflexivity).
      unfold parse_path in Hin. apply filter_In in Hin. tauto.
    - pose proof (parse_path_slash_free p) as Hfree. rewrite Hparse in Hfree.
      apply Forall_app in Hfree as [_ Hfree]. inversion Hfree; assumption. }
  destruct Hname as [Htruthy Hfree].
  destruct name as [|c0 tail]; [discriminate|]. destruct Hfree as [Hc0 _].
  destruct rest as [|next rest]; cbn [join_slash].
  - apply dirname_is_relative. exact Hc0.
  - change (String c0 tail +:+ "/" +:+ join_slash (next :: rest))
      with (String c0 (tail +:+ "/" +:+ join_slash (next :: rest))).
    apply dirname_is_relative. exact Hc0.
Qed.


End PrefixFacts.

Section HierarchyFacts.
Import Text Types Env FileUtils Drive Upload Policy.

Variables accessToken folderId : string.

(** A completed loop has mapped every path it went through, and kept
    what was mapped before. *)
Lemma build_folders_mapped (folderPaths : list string) :
  forall (folderIdMap index : gmap string string) (w w' : World),
    build_folders accessToken folderPaths folderIdMap w = (Ok index, w') ->
    forall k, In k folderPaths \/ is_Some (folderIdMap !! k) -> is_Some (index !! k).
Proof.
  induction folderPaths as [|p rest IH]; intros folderIdMap index w w' Hrun k Hk.
  - cbn in Hrun. injection Hrun as <- <-. destruct Hk as [[]|Hk]. exact Hk.
  - cbn [build_folders] in Hrun. unfold await in Hrun.
    destruct (ensureFolder _ _ _ w) as [[folder|msg] w1]; [|discriminate Hrun].
    apply (IH _ _ _ _ Hrun).
    destruct (decide (k = p)) as [->|Hne].
    + right. rewrite lookup_insert_eq. eexists. reflexivity.
    + destruct Hk as [[Heq|Hin]|Hk]; [congruence|left; exact Hin|].
      right. rewrite lookup_insert_ne by congruence. exact Hk.
Qed.




End HierarchyFacts.



(** ** Whole batches *)
Section BatchRuns.
Import Text Types Env FileUtils Drive Upload Scenario.

(** [doc.pdf] and the folder [photos] into My Drive: "photos" is looked
    up and created, then "sub" under it; [doc.pdf] goes to the root,
    [x.jpg] (after one failed attempt and a second of delay) under
    "photos", [y.png] under "photos/sub". *)
Example handleUpload_keeps_the_structure :
  trace (snd (handleUpload (Some account_A) flattened fresh_tokens
                (Auth.NetworkFailure "unused") disk
                ["/Users/a/doc.pdf"; "/Users/a/photos/"] true "root" "My Drive"
                one_hiccup))
  = [EvSearch "photos" "root"; EvCreate "photos" None;
     EvSearch "sub" "N1"; EvCreate "sub" (Some "N1");
     EvUpload "/Users/a/doc.pdf" "doc.pdf" None; EvPermission "f1";
     EvUpload "/Users/a/photos/x.jpg" "x.jpg" (Some "N1"); EvSleep 1000;
     EvUpload "/Users/a/photos/x.jpg" "x.jpg" (Some "N1"); EvPermission "f2";
     EvUpload "/Users/a/photos/sub/y.png" "y.png" (Some "N2"); EvPermission "f3"].
Proof. vm_compute. reflexivity. Qed.

(** A 401 while the hierarchy is built leaves the batch: nothing is
    created, nothing is uploaded, and the toast shows the message. *)
Example handleUpload_aborts_on_folder_401 :
  handleUpload (Some account_A) flattened fresh_tokens
    (Auth.NetworkFailure "unused") disk
    ["/Users/a/doc.pdf"; "/Users/a/photos/"] true "root" "My Drive" token_revoked
  = (Aborted {| style := Failure; message := Some AUTHENTICATION_EXPIRED |},
     set_searchNet [] (log (EvSearch "photos" "root") token_revoked)).
Proof. vm_compute. reflexivity. Qed.

(** Without a token set the batch does not start. *)
Example handleUpload_aborts_without_token :
  fst (handleUpload (Some account_A) flattened ∅ (Auth.NetworkFailure "unused") disk
         ["/Users/a/doc.pdf"; "/Users/a/photos/"] true "root" "My Drive" one_hiccup)
  = Aborted {| style := Failure; message := Some AUTHENTICATION_EXPIRED |}.
Proof. vm_compute. reflexivity. Qed.

End BatchRuns.

(** ** The account store as a whole *)
Section StoreFacts.
Import Text Auth Env Accounts Statements.

Lemma ids_insert_same (l : list GoogleAccount) (i : nat) (old new : GoogleAccount) :
  l !! i = Some old -> acct_id old = acct_id new ->
  map acct_id (<[i := new]> l) = map acct_id l.
Proof.
  revert i. induction l as [|a l IH]; intros i Hi Hid; [reflexivity|].
  destruct i as [|i]; cbn in *.
  - injection Hi as ->. rewrite Hid. reflexivity.
  - f_equal. apply IH; assumption.
Qed.

(** The ids after [upsert]: as before when the id was stored, one more
    at the end otherwise. *)
Lemma upsert_ids (account : GoogleAccount) (l : list GoogleAccount) :
  (In (acct_id account) (map acct_id l) /\ map acct_id (upsert account l) = map acct_id l)
  \/ (~ In (acct_id account) (map acct_id l)
      /\ upsert account l = l ++ [account]).
Proof.
  unfold upsert. destruct (list_find _ l) as [[i old]|] eqn:Hfind.
  - apply list_find_Some in Hfind as (Hi & Hid & _). left. split.
    + rewrite <- Hid. apply in_map. apply list_elem_of_In.
      apply list_elem_of_lookup. exists i. exact Hi.
    + apply (ids_insert_same l i old account Hi Hid).
  - apply list_find_None in Hfind. right. split; [|reflexivity].
    intros Hin. apply in_map_iff in Hin as (a & Hid & Ha).
    rewrite Forall_forall in Hfind. apply (Hfind a); [|exact Hid].
    apply list_elem_of_In. exact Ha.
Qed.

Lemma upsert_nonempty (account : GoogleAccount) (l : list GoogleAccount) :
  upsert account l <> [].
Proof.
  destruct (upsert_ids account l) as [[Hin Hids]|[_ ->]].
  - intros Hnil. rewrite Hnil in Hids. cbn in Hids.
    destruct l; [destruct Hin|discriminate].
  - destruct l; discriminate.
Qed.

Lemma well_formed_upsert (account : GoogleAccount) (stored : StoredAccounts) :
  well_formed stored ->
  well_formed {| accounts := upsert account (accounts stored);
                 defaultAccountId :=
                   if Nat.eqb (length (upsert account (accounts stored))) 1
                      && no_default stored
                   then Some (acct_id account) else defaultAccountId stored |}.
Proof.
  intros (Hnd & Hempty & Hdefault). unfold well_formed. cbn [accounts defaultAccountId].
  assert (Hmine : In (acct_id account) (map acct_id (upsert account (accounts stored)))).
  { destruct (upsert_ids account (accounts stored)) as [[Hin ->]|[_ ->]]; [exact Hin|].
    rewrite map_app. apply in_or_app. right. left. reflexivity. }
  split; [|split].
  - destruct (upsert_ids account (accounts stored)) as [[_ ->]|[Hfresh ->]]; [exact Hnd|].
    rewrite map_app. apply NoDup_app. split; [exact Hnd|]. split.
    + intros x Hx Hx'. apply list_elem_of_In in Hx. cbn in Hx'.
      apply list_elem_of_singleton in Hx'. subst x. contradiction.
    + apply NoDup_singleton.
  - intros Hnil. destruct (upsert_nonempty _ _ Hnil).
  - intros _.
    destruct (Nat.eqb (length (upsert account (accounts stored))) 1 && no_default stored)
      eqn:Hfirst.
    + exists (acct_id account). split; [reflexivity|exact Hmine].
    + destruct (accounts stored) as [|a l] eqn:Hacc.
      * exfalso. unfold no_default in Hfirst. rewrite (Hempty eq_refl) in Hfirst.
        cbn in Hfirst. discriminate Hfirst.
      * destruct Hdefault as (d & Hd & Hin); [discriminate|].
        exists d. split; [exact Hd|].
        destruct (upsert_ids account (a :: l)) as [[_ ->]|[_ ->]]; [exact Hin|].
        rewrite map_app. apply in_or_app. left. exact Hin.
Qed.

Lemma well_formed_removeAccount (accountId : string) (ls : LocalStorage) :
  well_formed (getStoredAccounts ls) ->
  well_formed (getStoredAccounts (removeAccount accountId ls)).
Proof.
  intros (Hnd & Hempty & Hdefault). unfold removeAccount, well_formed.
  cbn [getStoredAccounts accounts defaultAccountId].
  set (stored := getStoredAccounts ls) in *.
  set (remaining := filter (fun a => acct_id a <> accountId) (accounts stored)).
  split; [apply NoDup_ids_filter; exact Hnd|].
  assert (Hkept : forall d, In d (map acct_id (accounts stored)) -> d <> accountId ->
                            In d (map acct_id remaining)).
  { intros d Hd Hne. apply in_map_iff in Hd as (a & <- & Ha). apply in_map.
    apply list_elem_of_In, list_elem_of_filter. split; [exact Hne|].
    apply list_elem_of_In. exact Ha. }
  split.
  - intros Hnil. destruct (decide (defaultAccountId stored = Some accountId)) as [Hd|Hd].
    + rewrite Hnil. reflexivity.
    + destruct (accounts stored) as [|a l] eqn:Hacc; [apply Hempty; reflexivity|].
      destruct Hdefault as (d & Hdef & Hin); [discriminate|].
      assert (Hne : d <> accountId) by congruence.
      specialize (Hkept d Hin Hne). rewrite Hnil in Hkept. destruct Hkept.
  - intros Hsome. destruct (decide (defaultAccountId stored = Some accountId)) as [Hd|Hd].
    + destruct remaining as [|first rest]; [congruence|].
      exists (acct_id first). split; [reflexivity|]. left. reflexivity.
    + destruct (accounts stored) as [|a l] eqn:Hacc.
      * subst remaining. cbn in Hsome. congruence.
      * destruct Hdefault as (d & Hdef & Hin); [discriminate|].
        exists d. split; [exact Hdef|]. apply Hkept; [exact Hin|congruence].
Qed.

Lemma well_formed_addAccount (accessToken providerId : string) (answer : Http GoogleUserInfo)
    (ls : LocalStorage) :
  well_formed (getStoredAccounts ls) ->
  well_formed (getStoredAccounts (snd (addAccount accessToken providerId answer ls))).
Proof.
  intros Hwf. unfold addAccount. destruct (getUserInfo answer) as [userInfo|msg];
    [|exact Hwf].
  cbn [snd getStoredAccounts]. apply well_formed_upsert. exact Hwf.
Qed.

Lemma well_formed_reAuthenticate (account : GoogleAccount) (now : nat)
    (store : gmap string TokenSet) (refreshAnswer : RefreshAnswer)
    (consent : Result string) (exchange : Http TokenResponse)
    (info info' : Http GoogleUserInfo) (ls : LocalStorage) :
  well_formed (getStoredAccounts ls) ->
  well_formed (getStoredAccounts
                 (snd (reAuthenticateAccount account now store refreshAnswer consent
                         exchange info info' ls))).
Proof.
  intros Hwf. unfold reAuthenticateAccount.
  destruct (authorize _ _ _ _ _) as [[token|msg] store']; [|exact Hwf].
  destruct (getUserInfo info) as [userInfo|msg]; [|exact Hwf].
  destruct (list_find _ _) as [[i old]|] eqn:Hfind.
  - cbn [snd getStoredAccounts]. apply list_find_Some in Hfind as (Hi & Hid & _).
    destruct Hwf as (Hnd & Hempty & Hdefault). unfold well_formed.
    cbn [accounts defaultAccountId].
    rewrite (ids_insert_same _ i old _ Hi) by exact Hid.
    split; [exact Hnd|]. split.
    + intros Hnil. apply Hempty.
      destruct (accounts (getStoredAccounts ls)); [reflexivity|].
      destruct i; discriminate Hnil.
    + intros _. apply Hdefault. intros Hnil. rewrite Hnil in Hi. discriminate Hi.
  - pose proof (well_formed_addAccount token (provider_at now) info' ls Hwf) as Hadd.
    destruct (addAccount token (provider_at now) info' ls) as [added ls']. exact Hadd.
Qed.

(** X1. The store stays well formed (unique ids, and a default that
    names a stored account exactly when there are accounts) through
    [removeAccount], [addAccount], [reAuthenticateAccount], and
    [setDefaultAccount] of a stored id, whatever the network answers. *)
Theorem account_store_stays_well_formed (ls : LocalStorage) :
  well_formed (getStoredAccounts ls) ->
  (forall accountId,
      well_formed (getStoredAccounts (removeAccount accountId ls)))
  /\ (forall accessToken providerId answer,
        well_formed (getStoredAccounts (snd (addAccount accessToken providerId answer ls))))
  /\ (forall account now store refreshAnswer consent exchange info info',
        well_formed (getStoredAccounts
                       (snd (reAuthenticateAccount account now store refreshAnswer
                               consent exchange info info' ls))))
  /\ (forall accountId,
        In accountId (map acct_id (getAccounts ls)) ->
        well_formed (getStoredAccounts (setDefaultAccount accountId ls))).
Proof.
  intros Hwf. split; [|split; [|split]].
  - intros accountId. apply well_formed_removeAccount. exact Hwf.
  - intros. apply well_formed_addAccount. exact Hwf.
  - intros. apply well_formed_reAuthenticate. exact Hwf.
  - intros accountId Hin. destruct Hwf as (Hnd & _ & _). unfold well_formed.
    cbn [setDefaultAccount getStoredAccounts accounts defaultAccountId].
    split; [exact Hnd|]. split.
    + intros Hnil. unfold getAccounts in Hin. rewrite Hnil in Hin. destruct Hin.
    + intros _. exists accountId. split; [reflexivity|exact Hin].
Qed.

(** X2. In a well-formed store [getDefaultAccount] finds an account
    exactly when there are accounts; the account it finds is stored, and
    carries the default id whenever that id is not empty. *)
Theorem getDefaultAccount_of_well_formed (ls : LocalStorage) :
  well_formed (getStoredAccounts ls) ->
  (getDefaultAccount ls = None <-> getAccounts ls = [])
  /\ (forall a, getDefaultAccount ls = Some a ->
        In a (getAccounts ls)
        /\ (no_default (getStoredAccounts ls) = false ->
            defaultAccountId (getStoredAccounts ls) = Some (acct_id a))).
Proof.
  intros (Hnd & Hempty & Hdefault). unfold getDefaultAccount, getAccounts.
  set (stored := getStoredAccounts ls) in *.
  destruct (no_default stored) eqn:Hno.
  - split.
    + destruct (accounts stored); cbn; split; congruence.
    + intros a Ha. split; [|discriminate].
      destruct (accounts stored); cbn in Ha; [discriminate|].
      injection Ha as <-. left. reflexivity.
  - unfold no_default in Hno. destruct (defaultAccountId stored) as [d|] eqn:Hd;
      [|discriminate].
    split.
    + split.
      * intros Hnone. destruct (accounts stored) as [|a l] eqn:Hacc; [reflexivity|].
        destruct Hdefault as (d' & Hd' & Hin); [discriminate|].
        injection Hd' as <-. apply in_map_iff in Hin as (b & Hb & Hin).
        apply (find_none _ _ Hnone) in Hin. rewrite Hb, String.eqb_refl in Hin.
        discriminate Hin.
      * intros Hnil. rewrite Hnil. reflexivity.
    + intros a Ha. apply find_some in Ha as [Hin Heq].
      apply String.eqb_eq in Heq. split; [exact Hin|]. intros _. rewrite Heq. reflexivity.
Qed.

End StoreFacts.

Section AddAccountFacts.
Import Text Auth Env Accounts Statements Scenario Cases.

Lemma upsert_keeps_others (account : GoogleAccount) (l : list GoogleAccount)
    (a : GoogleAccount) :
  In a l -> acct_id a <> acct_id account -> In a (upsert account l).
Proof.
  intros Ha Hne. unfold upsert. destruct (list_find _ l) as [[i old]|] eqn:Hfind.
  - apply list_find_Some in Hfind as (Hi & Hid & _).
    apply list_elem_of_In, list_elem_of_lookup in Ha as (j & Hj).
    apply list_elem_of_In, list_elem_of_lookup. exists j.
    rewrite list_lookup_insert_ne; [exact Hj|].
    intros ->. rewrite Hi in Hj. injection Hj as ->. contradiction.
  - apply in_or_app. left. exact Ha.
Qed.

Lemma upsert_has_account (account : GoogleAccount) (l : list GoogleAccount) :
  In account (upsert account l).
Proof.
  unfold upsert. destruct (list_find _ l) as [[i old]|] eqn:Hfind.
  - apply list_find_Some in Hfind as (Hi & _ & _).
    apply list_elem_of_In, list_elem_of_insert. eapply lookup_lt_Some. exact Hi.
  - apply in_or_app. right. left. reflexivity.
Qed.

Lemma In_upsert (account : GoogleAccount) (l : list GoogleAccount) (a : GoogleAccount) :
  In a (upsert account l) -> a = account \/ In a l.
Proof.
  unfold upsert. destruct (list_find _ l) as [[i old]|] eqn:Hfind.
  - intros Ha. apply list_elem_of_In, list_elem_of_lookup in Ha as (j & Hj).
    apply list_lookup_insert_Some in Hj as [(-> & -> & _)|(_ & Hj)]; [left; reflexivity|].
    right. apply list_elem_of_In, list_elem_of_lookup. exists j. exact Hj.
  - intros Ha. apply in_app_or in Ha as [Ha|[<-|[]]]; [right; exact Ha|left; reflexivity].
Qed.

Lemma NoDup_ids_unique (l : list GoogleAccount) (a b : GoogleAccount) :
  NoDup (map acct_id l) -> In a l -> In b l -> acct_id a = acct_id b -> a = b.
Proof.
  induction l as [|c l IH]; intros Hnd Ha Hb Hid; [destruct Ha|].
  cbn [map] in Hnd. apply NoDup_cons in Hnd as [Hfresh Hnd].
  destruct Ha as [->|Ha], Hb as [->|Hb].
  - reflexivity.
  - exfalso. apply Hfresh. rewrite Hid. apply list_elem_of_In, in_map. exact Hb.
  - exfalso. apply Hfresh. rewrite <- Hid. apply list_elem_of_In, in_map. exact Ha.
  - apply IH; assumption.
Qed.

(** X3. [addAccount] with the profile at hand stores the account under
    the subject id (the email when there is none): an account of that id
    is replaced where it stands, so the ids and their order stay; a new
    one goes to the end; every account of another id is kept; with unique
    ids the stored account of that id is the new one.  When the profile
    cannot be fetched, nothing is stored. *)
Theorem addAccount_upserts (accessToken providerId : string) (info : GoogleUserInfo)
    (ls : LocalStorage) :
  let accountId := if truthy (info_sub info) then info_sub info else info_email info in
  let before := getAccounts ls in
  (exists account stored',
      addAccount accessToken providerId (HttpOk info) ls = (Ok account, Some stored')
      /\ acct_id account = accountId
      /\ acct_accessToken account = accessToken
      /\ acct_providerId account = providerId
      /\ In account (accounts stored')
      /\ (forall a, In a before -> acct_id a <> accountId -> In a (accounts stored'))
      /\ (In accountId (map acct_id before) ->
          map acct_id (accounts stored') = map acct_id before)
      /\ (~ In accountId (map acct_id before) -> accounts stored' = before ++ [account])
      /\ (NoDup (map acct_id before) ->
          forall a, In a (accounts stored') -> acct_id a = accountId -> a = account))
  /\ (forall status errorText,
        snd (addAccount accessToken providerId (HttpError status errorText) ls) = ls)
  /\ (forall msg,
        addAccount accessToken providerId (FetchFailed msg) ls = (Throw msg, ls)).
Proof.
  intros accountId before. split; [|split; reflexivity].
  unfold addAccount. cbn [getUserInfo]. fold accountId.
  set (account := {| acct_id := accountId; acct_email := info_email info;
                     acct_name := info_name info; acct_accessToken := accessToken;
                     acct_providerId := providerId |}).
  eexists account, _. split; [reflexivity|]. cbn [accounts].
  split; [reflexivity|]. split; [reflexivity|]. split; [reflexivity|].
  split; [apply upsert_has_account|].
  split; [intros a Ha Hne; apply upsert_keeps_others; assumption|].
  split; [|split].
  - intros Hin. destruct (upsert_ids account (accounts (getStoredAccounts ls)))
      as [[_ Hids]|[Hfresh _]]; [exact Hids|contradiction].
  - intros Hfresh. destruct (upsert_ids account (accounts (getStoredAccounts ls)))
      as [[Hin _]|[_ Hpush]]; [contradiction|exact Hpush].
  - intros Hnd a Ha Hid.
    assert (Hnd' : NoDup (map acct_id (upsert account (accounts (getStoredAccounts ls))))).
    { destruct (upsert_ids account (accounts (getStoredAccounts ls)))
        as [[_ ->]|[Hfresh ->]]; [exact Hnd|].
      rewrite map_app. apply NoDup_app. split; [exact Hnd|]. split.
      - intros x Hx Hx'. apply list_elem_of_In in Hx. cbn in Hx'.
        apply list_elem_of_singleton in Hx'. subst x. contradiction.
      - apply NoDup_singleton. }
    apply (NoDup_ids_unique _ a account Hnd' Ha (upsert_has_account _ _)).
    exact Hid.
Qed.

(** X4. Re-authenticating a stored account through a fresh provider
    (consent given, code exchanged, profile fetched) keeps the account's
    id, the ids of the store in their order and the default; the stored
    account of that id then carries the new token and provider; the
    accounts of other ids are untouched; and the token set of the old
    provider is left where it was. *)
Theorem reAuthenticateAccount_keeps_identity (account : GoogleAccount) (now : nat)
    (store : gmap string TokenSet) (refreshAnswer : RefreshAnswer)
    (authorizationCode : string) (tokens : TokenResponse)
    (info : GoogleUserInfo) (info' : Http GoogleUserInfo) (ls : LocalStorage) :
  store !! provider_at now = None ->
  In (acct_id account) (map acct_id (getAccounts ls)) ->
  exists updated stored',
    reAuthenticateAccount account now store refreshAnswer (Ok authorizationCode)
      (HttpOk tokens) (HttpOk info) info' ls
    = (Ok updated, setTokens (provider_at now) tokens store, Some stored')
    /\ acct_id updated = acct_id account
    /\ acct_accessToken updated = access_token tokens
    /\ acct_providerId updated = provider_at now
    /\ acct_email updated = info_email info
    /\ map acct_id (accounts stored') = map acct_id (getAccounts ls)
    /\ defaultAccountId stored' = defaultAccountId (getStoredAccounts ls)
    /\ In updated (accounts stored')
    /\ (forall a, In a (getAccounts ls) -> acct_id a <> acct_id account ->
                  In a (accounts stored'))
    /\ (acct_providerId account <> provider_at now ->
        setTokens (provider_at now) tokens store !! acct_providerId account
        = store !! acct_providerId account).
Proof.
  intros Hfresh Hstored. unfold reAuthenticateAccount, authorize, getAccounts in *.
  rewrite Hfresh. cbn [fetchTokens getUserInfo].
  destruct (list_find (fun a => acct_id a = acct_id account)
              (accounts (getStoredAccounts ls))) as [[i old]|] eqn:Hfind.
  - apply list_find_Some in Hfind as (Hi & Hid & _).
    eexists _, _. split; [reflexivity|]. cbn [acct_id acct_accessToken acct_providerId
                                              acct_email accounts defaultAccountId].
    repeat (split; [reflexivity|]).
    split; [apply (ids_insert_same _ i old); [exact Hi|exact Hid]|].
    split; [reflexivity|]. split; [|split].
    + apply list_elem_of_In, list_elem_of_insert. eapply lookup_lt_Some. exact Hi.
    + intros a Ha Hne. apply list_elem_of_In, list_elem_of_lookup in Ha as (j & Hj).
      apply list_elem_of_In, list_elem_of_lookup. exists j.
      rewrite list_lookup_insert_ne; [exact Hj|].
      intros ->. rewrite Hi in Hj. injection Hj as ->. congruence.
    + intros Hne. unfold setTokens. apply lookup_insert_ne. congruence.
  - exfalso. apply list_find_None in Hfind. rewrite Forall_forall in Hfind.
    apply in_map_iff in Hstored as (a & Hid & Ha).
    apply (Hfind a); [apply list_elem_of_In; exact Ha|exact Hid].
Qed.

(** Account B of the stored pair signs in again at clock reading 1700. *)
Lemma reAuthenticateAccount_keeps_identity_witness :
  exists updated stored',
    reAuthenticateAccount account_B 1700 expired_tokens (NetworkFailure "unused")
      (Ok "code-1") (HttpOk {| access_token := "ya29.new"; refresh_token := Some "1//new" |})
      (HttpOk info_of_B) (FetchFailed "unused") two_accounts
    = (Ok updated,
       setTokens (provider_at 1700)
         {| access_token := "ya29.new"; refresh_token := Some "1//new" |} expired_tokens,
       Some stored')
    /\ acct_id updated = "B"
    /\ acct_providerId updated = "google-drive-1700"
    /\ map acct_id (accounts stored') = ["A"; "B"]
    /\ defaultAccountId stored' = Some "A".
Proof.
  destruct (reAuthenticateAccount_keeps_identity account_B 1700 expired_tokens
              (NetworkFailure "unused") "code-1"
              {| access_token := "ya29.new"; refresh_token := Some "1//new" |}
              info_of_B (FetchFailed "unused") two_accounts)
    as (updated & stored' & Hrun & Hid & _ & Hprov & _ & Hids & Hdef & _).
  - vm_compute. reflexivity.
  - right. left. reflexivity.
  - exists updated, stored'. split; [exact Hrun|]. split; [exact Hid|].
    split; [rewrite Hprov; vm_compute; reflexivity|].
    split; [exact Hids|exact Hdef].
Defined.

(** X5. Whenever [getValidAccessToken] returns a token, [authorize] on
    the client of that account returns the same token and leaves the same
    token store, without asking the user anything. *)
Theorem authorize_agrees_with_getValidAccessToken (account : GoogleAccount)
    (store store' : gmap string TokenSet) (answer : RefreshAnswer) (token : string)
    (consent : Result string) (exchange : Http TokenResponse) :
  getValidAccessToken account store answer = (Ok token, store') ->
  authorize (acct_providerId account) store answer consent exchange = (Ok token, store').
Proof.
  unfold getValidAccessToken, authorize.
  destruct (store !! acct_providerId account) as [tokenSet|]; [|discriminate].
  destruct (truthy (accessToken tokenSet)); [|discriminate].
  destruct (refreshToken tokenSet) as [refreshTok|]; [|intros H; exact H].
  destruct (truthy refreshTok && isExpired tokenSet); [|intros H; exact H].
  destruct (refreshTokens refreshTok answer) as [refreshed|msg]; [intros H; exact H|].
  destruct (includes msg "invalid_grant" || includes msg "invalid_token"); discriminate.
Qed.

(** Account A refreshes its expired token either way. *)
Lemma authorize_agrees_with_getValidAccessToken_witness :
  authorize "google-drive-1" expired_tokens
    (Refreshed {| access_token := "ya29.new"; refresh_token := None |})
    (Throw "window closed") (FetchFailed "unused")
  = (Ok "ya29.new",
     setTokens "google-drive-1"
       {| access_token := "ya29.new"; refresh_token := Some "1//refresh" |} expired_tokens).
Proof.
  apply (authorize_agrees_with_getValidAccessToken account_A).
  vm_compute. reflexivity.
Defined.

(** X6. An expired token with a refresh token, and a refresh that is
    granted: [getValidAccessToken] returns the new access token and the
    client keeps it, together with the new refresh token when the answer
    carries one and the old refresh token otherwise; the token sets of
    other providers are untouched. *)
Theorem getValidAccessToken_refresh_keeps_refresh_token (account : GoogleAccount)
    (store : gmap string TokenSet) (tokenSet : TokenSet) (refreshTok : string)
    (granted : TokenResponse) :
  store !! acct_providerId account = Some tokenSet ->
  truthy (accessToken tokenSet) = true ->
  refreshToken tokenSet = Some refreshTok ->
  truthy refreshTok = true ->
  isExpired tokenSet = true ->
  exists store',
    getValidAccessToken account store (Refreshed granted) = (Ok (access_token granted), store')
    /\ (exists kept, store' !! acct_providerId account = Some kept
                     /\ accessToken kept = access_token granted
                     /\ refreshToken kept = Some (match refresh_token granted with
                                                  | Some r => r
                                                  | None => refreshTok
                                                  end))
    /\ (forall other, other <> acct_providerId account -> store' !! other = store !! other).
Proof.
  intros Hget Haccess Hrefresh Htruthy Hexpired.
  unfold getValidAccessToken. rewrite Hget, Haccess, Hrefresh, Htruthy, Hexpired.
  cbn [andb refreshTokens]. unfold setTokens. rewrite lookup_insert_eq.
  cbn [accessToken access_token refresh_token].
  replace (if truthy (access_token granted) then access_token granted else EmptyString)
    with (access_token granted) by (destruct (access_token granted); reflexivity).
  eexists. split; [reflexivity|]. split.
  - rewrite lookup_insert_eq. eexists. split; [reflexivity|]. split; [reflexivity|].
    cbn [refreshToken]. destruct (refresh_token granted); reflexivity.
  - intros other Hne. apply lookup_insert_ne. congruence.
Qed.

Lemma getValidAccessToken_refresh_keeps_refresh_token_witness :
  exists store',
    getValidAccessToken account_A expired_tokens
      (Refreshed {| access_token := "ya29.new"; refresh_token := None |})
    = (Ok "ya29.new", store')
    /\ exists kept, store' !! "google-drive-1" = Some kept
                    /\ refreshToken kept = Some "1//refresh".
Proof.
  destruct (getValidAccessToken_refresh_keeps_refresh_token account_A expired_tokens
              {| accessToken := "ya29.stale"; refreshToken := Some "1//refresh";
                 isExpired := true |} "1//refresh"
              {| access_token := "ya29.new"; refresh_token := None |})
    as (store' & Hrun & (kept & Hkept & _ & Hrefresh) & _); try reflexivity.
  exists store'. split; [exact Hrun|]. exists kept. split; [exact Hkept|exact Hrefresh].
Defined.

End AddAccountFacts.

(** ** The default folder *)
Section FolderStorageFacts.
Import Text FolderStorage.

(** X7. The default folder is one slot for all accounts: after
    [setDefaultFolder] it is returned to a caller that names no account
    (or an empty one) or names the account it was stored for, and to no
    other; and storing a default for another account makes the earlier
    account lose its own. *)
Theorem default_folder_is_one_slot (folder : DefaultFolder) (st : Stored) :
  (forall accountId,
      getDefaultFolder accountId (setDefaultFolder folder st) = Some folder
      <-> (accountId = None \/ accountId = Some EmptyString
           \/ accountId = Some (folder_accountId folder)))
  /\ (forall accountId,
        getDefaultFolder accountId (setDefaultFolder folder st) = None
        \/ getDefaultFolder accountId (setDefaultFolder folder st) = Some folder)
  /\ (forall earlier,
        truthy (folder_accountId earlier) = true ->
        folder_accountId earlier <> folder_accountId folder ->
        getDefaultFolder (Some (folder_accountId earlier))
          (setDefaultFolder folder (setDefaultFolder earlier st)) = None).
Proof.
  split; [|split].
  - intros [a|]; cbn [getDefaultFolder setDefaultFolder]; [|tauto].
    destruct a as [|c a]; cbn [truthy andb]; [tauto|].
    destruct (String.eqb_spec (folder_accountId folder) (String c a)) as [Heq|Hne];
      cbn [negb].
    + rewrite Heq. tauto.
    + split; [discriminate|]. intros [H|[H|H]]; [discriminate..|congruence].
  - intros [a|]; cbn [getDefaultFolder setDefaultFolder]; [|right; reflexivity].
    destruct (truthy a && negb (String.eqb (folder_accountId folder) a)); tauto.
  - intros earlier Htruthy Hne. cbn [getDefaultFolder setDefaultFolder].
    rewrite Htruthy. cbn [andb].
    destruct (String.eqb_spec (folder_accountId folder) (folder_accountId earlier));
      [congruence|reflexivity].
Qed.

End FolderStorageFacts.

(** ** Listing folders *)
Section ListingFacts.
Import Text Types Env FolderList Statements Cases.

Lemma listFolders_from_pages (pages : list (list GoogleDriveFolder * string)) :
  forall (answers : list (Http Page)) (allFolders : list GoogleDriveFolder),
    Forall (fun page => truthy (snd page) = true) pages ->
    listFolders_from (map (fun page => page_with_token (fst page) (snd page)) pages
                      ++ answers) allFolders
    = listFolders_from answers (allFolders ++ concat (map fst pages)).
Proof.
  induction pages as [|[files pageToken] pages IH]; intros answers allFolders Hall.
  - cbn. rewrite app_nil_r. reflexivity.
  - inversion Hall as [|? ? Htoken Hpages]; subst. cbn [snd] in Htoken.
    cbn [map app fst snd listFolders_from page_with_token page_files nextPageToken concat].
    rewrite Htoken, (IH _ _ Hpages), <- app_assoc. reflexivity.
Qed.

(** X8. [listFolders] follows the page tokens: with pages that each
    announce a next one and a last page that does not, it returns the
    folders of all pages in order and asks for nothing after the last
    page. *)
Theorem listFolders_gathers_all_pages (accessToken : string)
    (pages : list (list GoogleDriveFolder * string)) (final : list GoogleDriveFolder)
    (later : list (Http Page)) :
  Forall (fun page => truthy (snd page) = true) pages ->
  listFolders accessToken
    (map (fun page => page_with_token (fst page) (snd page)) pages
     ++ last_page final :: later)
  = (Ok (concat (map fst pages) ++ final), later).
Proof.
  intros Hall. unfold listFolders. rewrite (listFolders_from_pages pages _ _ Hall).
  reflexivity.
Qed.

Lemma listFolders_gathers_all_pages_witness :
  listFolders "token-a"
    [page_with_token [drive_folder "w" "work" "root"] "p2";
     page_with_token [drive_folder "y" "2024" "w"] "p3";
     last_page [drive_folder "r" "reports" "y"];
     FetchFailed "never asked"]
  = (Ok [drive_folder "w" "work" "root"; drive_folder "y" "2024" "w";
         drive_folder "r" "reports" "y"],
     [FetchFailed "never asked"]).
Proof.
  apply (listFolders_gathers_all_pages "token-a"
           [([drive_folder "w" "work" "root"], "p2");
            ([drive_folder "y" "2024" "w"], "p3")]
           [drive_folder "r" "reports" "y"] [FetchFailed "never asked"]).
  repeat constructor.
Defined.

(** X9. A page that fails makes [listFolders] fail as a whole, whatever
    the pages before it delivered: with [AUTHENTICATION_EXPIRED] on a 401,
    with the status and the text otherwise, with the network's own error
    when there is no response, also when the answers run out. *)
Theorem listFolders_fails_as_a_whole (accessToken : string)
    (pages : list (list GoogleDriveFolder * string)) (later : list (Http Page)) :
  Forall (fun page => truthy (snd page) = true) pages ->
  let delivered := map (fun page => page_with_token (fst page) (snd page)) pages in
  (forall errorText,
      fst (listFolders accessToken (delivered ++ HttpError 401 errorText :: later))
      = Throw AUTHENTICATION_EXPIRED)
  /\ (forall status errorText,
        status <> 401 ->
        fst (listFolders accessToken (delivered ++ HttpError status errorText :: later))
        = Throw ("Failed to list folders: " +:+ pretty status +:+ " " +:+ errorText))
  /\ (forall msg,
        fst (listFolders accessToken (delivered ++ FetchFailed msg :: later)) = Throw msg)
  /\ fst (listFolders accessToken delivered) = Throw network_down.
Proof.
  intros Hall delivered. unfold listFolders, delivered.
  split; [|split; [|split]].
  - intros errorText. rewrite (listFolders_from_pages pages _ _ Hall). reflexivity.
  - intros status errorText Hne. rewrite (listFolders_from_pages pages _ _ Hall).
    cbn [listFolders_from]. apply Nat.eqb_neq in Hne. rewrite Hne. reflexivity.
  - intros msg. rewrite (listFolders_from_pages pages _ _ Hall). reflexivity.
  - rewrite <- (app_nil_r (map _ pages)), (listFolders_from_pages pages _ _ Hall).
    reflexivity.
Qed.

Lemma listFolders_fails_as_a_whole_witness :
  fst (listFolders "token-a"
         [page_with_token [drive_folder "w" "work" "root"] "p2";
          HttpError 401 "Unauthorized"])
  = Throw AUTHENTICATION_EXPIRED.
Proof.
  destruct (listFolders_fails_as_a_whole "token-a"
              [([drive_folder "w" "work" "root"], "p2")] []) as (Hauth & _).
  - repeat constructor.
  - apply (Hauth "Unauthorized").
Defined.

End ListingFacts.

(** ** The displayed path of a folder *)
Section FolderPathFacts.
Import Text Types Env FolderList Statements Cases.

Variable folderMap : gmap string GoogleDriveFolder.

Lemma climb_length (rounds : nat) :
  forall currentId pathParts,
    length (fst (climb folderMap rounds currentId pathParts)) <= length pathParts + rounds.
Proof.
  induction rounds as [|rounds IH]; intros currentId pathParts; cbn [climb fst]; [lia|].
  destruct currentId as [current|]; cbn [fst]; [|lia].
  destruct (truthy current && negb (String.eqb current "root")); cbn [fst]; [|lia].
  destruct (folderMap !! current) as [parentFolder|]; cbn [fst]; [|lia].
  specialize (IH (first_parent parentFolder) (gfolder_name parentFolder :: pathParts)).
  cbn [length] in IH. lia.
Qed.

(** A chain that meets the root within the rounds is gathered whole. *)
Lemma climb_to_root (currentId : option string) (names : list string) :
  ancestors folderMap currentId names ->
  forall rounds pathParts,
    length names <= rounds ->
    climb folderMap rounds currentId pathParts = (names ++ pathParts, Some "root").
Proof.
  induction 1 as [|current folder names Htruthy Hroot Hget _ IH]; intros rounds pathParts Hlen.
  - destruct rounds; reflexivity.
  - rewrite length_app in Hlen. cbn [length] in Hlen.
    destruct rounds as [|rounds]; [lia|]. cbn [climb].
    rewrite Htruthy, Hget. apply String.eqb_neq in Hroot. rewrite Hroot. cbn [andb negb].
    rewrite IH by lia. rewrite <- app_assoc. reflexivity.
Qed.

(** A longer chain is cut: the nearest names are gathered and the loop
    stops below the root. *)
Lemma climb_cut (rounds : nat) :
  forall currentId names pathParts,
    ancestors folderMap currentId names ->
    rounds < length names ->
    exists stopped,
      climb folderMap rounds currentId pathParts
      = (skipn (length names - rounds) names ++ pathParts, Some stopped)
      /\ stopped <> "root".
Proof.
  induction rounds as [|rounds IH]; intros currentId names pathParts Hchain Hlen.
  - destruct Hchain as [|current folder names Htruthy Hroot Hget Hchain];
      [cbn in Hlen; lia|].
    exists current. split; [|exact Hroot]. cbn [climb].
    rewrite Nat.sub_0_r, skipn_all. reflexivity.
  - destruct Hchain as [|current folder names Htruthy Hroot Hget Hchain];
      [cbn in Hlen; lia|].
    rewrite length_app in Hlen. cbn [length] in Hlen.
    destruct (IH (first_parent folder) names (gfolder_name folder :: pathParts) Hchain)
      as (stopped & Hclimb & Hstopped); [lia|].
    exists stopped. split; [|exact Hstopped]. cbn [climb].
    rewrite Htruthy, Hget. apply String.eqb_neq in Hroot. rewrite Hroot. cbn [andb negb].
    rewrite Hclimb, length_app. cbn [length].
    replace (length names + 1 - S rounds) with (length names - rounds) by lia.
    rewrite skipn_app.
    replace (length names - rounds - length names) with 0 by lia.
    cbn [skipn]. rewrite <- app_assoc. reflexivity.
Qed.

Lemma names_to_root_sound (fuel : nat) :
  forall currentId names,
    names_to_root folderMap fuel currentId = Some names ->
    ancestors folderMap currentId names.
Proof.
  induction fuel as [|fuel IH]; intros [current|] names; cbn [names_to_root];
    try discriminate.
  - destruct (String.eqb_spec current "root") as [->|Hroot]; [|discriminate].
    intros H. injection H as <-. constructor.
  - destruct (String.eqb_spec current "root") as [->|Hroot].
    + intros H. injection H as <-. constructor.
    + destruct (truthy current) eqn:Htruthy; [|discriminate].
      destruct (folderMap !! current) as [folder|] eqn:Hget; [|discriminate].
      destruct (names_to_root folderMap fuel (first_parent folder)) as [above|] eqn:Habove;
        [|discriminate].
      intros H. injection H as <-.
      apply (below_folder folderMap current folder above Htruthy Hroot Hget).
      apply IH. exact Habove.
Qed.

Lemma ancestors_none (currentId : option string) :
  ancestors folderMap currentId [] -> currentId = Some "root".
Proof.
  intros Hchain. remember (@nil string) as names eqn:Hnames.
  destruct Hchain as [|current folder above _ _ _ _]; [reflexivity|].
  destruct above; discriminate Hnames.
Qed.

(** X10. Whatever the map, also one with a folder that is its own
    ancestor, the displayed path has at most ten folder names, eleven
    parts with "My Drive". *)
Theorem folderPath_parts_bounded (folder : GoogleDriveFolder) :
  length (folderPath_parts folderMap folder) <= S maxLevels.
Proof.
  unfold folderPath_parts.
  pose proof (climb_length maxLevels (first_parent folder) []) as Hlen.
  destruct (climb folderMap maxLevels (first_parent folder) []) as [pathParts currentId].
  cbn [fst length] in Hlen.
  destruct (Nat.eqb (length pathParts) 0 && bool_decide (first_parent folder = Some "root"));
    [cbn; unfold maxLevels; lia|].
  destruct (Nat.ltb 0 (length pathParts) && bool_decide (currentId = Some "root"));
    cbn [length]; lia.
Qed.

(** X11. A folder whose chain of parents meets the root of the drive
    after at most ten folders is shown as "My Drive" followed by the names
    of these folders from the top; a folder directly in the root is shown
    as "My Drive". *)
Theorem buildFolderPath_within_levels (folderId : string) (folder : GoogleDriveFolder)
    (names : list string) :
  folderMap !! folderId = Some folder ->
  ancestors folderMap (first_parent folder) names ->
  length names <= maxLevels ->
  buildFolderPath folderId folderMap = join_with " > " ("My Drive" :: names).
Proof.
  intros Hget Hchain Hlen. unfold buildFolderPath, folderPath_parts. rewrite Hget.
  rewrite (climb_to_root _ _ Hchain maxLevels [] Hlen), app_nil_r.
  destruct names as [|name names].
  - apply ancestors_none in Hchain.
    cbn [length Nat.eqb andb]. rewrite bool_decide_eq_true_2 by exact Hchain. reflexivity.
  - cbn [length Nat.eqb Nat.ltb Nat.leb andb].
    rewrite bool_decide_eq_true_2 by reflexivity. reflexivity.
Qed.

(** X12. With more than ten folders between a folder and the root, the
    displayed path is cut: it shows the ten nearest folders only, and no
    "My Drive" in front. *)
Theorem buildFolderPath_beyond_levels (folderId : string) (folder : GoogleDriveFolder)
    (names : list string) :
  folderMap !! folderId = Some folder ->
  ancestors folderMap (first_parent folder) names ->
  maxLevels < length names ->
  buildFolderPath folderId folderMap
  = join_with " > " (skipn (length names - maxLevels) names).
Proof.
  intros Hget Hchain Hlen. unfold buildFolderPath, folderPath_parts. rewrite Hget.
  destruct (climb_cut maxLevels _ _ [] Hchain Hlen) as (stopped & -> & Hstopped).
  rewrite app_nil_r.
  assert (Hkept : length (skipn (length names - maxLevels) names) = maxLevels)
    by (rewrite length_skipn; lia).
  rewrite Hkept. cbn [maxLevels Nat.eqb andb Nat.ltb Nat.leb].
  rewrite bool_decide_eq_false_2 by congruence. reflexivity.
Qed.

End FolderPathFacts.

(** [reports] lies in [work/2024]. *)
Lemma buildFolderPath_within_levels_witness :
  FolderList.buildFolderPath "r" Cases.small_drive = "My Drive > work > 2024".
Proof.
  apply (buildFolderPath_within_levels Cases.small_drive "r"
           (Cases.drive_folder "r" "reports" "y") ["work"; "2024"]).
  - vm_compute. reflexivity.
  - apply (names_to_root_sound Cases.small_drive 5). vm_compute. reflexivity.
  - vm_compute. lia.
Defined.

(** The twelfth of twelve nested folders: eleven folders above it, the
    topmost of which is not shown. *)
Lemma buildFolderPath_beyond_levels_witness :
  FolderList.buildFolderPath "d11" Cases.deep_drive
  = "level1 > level2 > level3 > level4 > level5 > level6 > level7 > level8 > level9 > level10".
Proof.
  apply (buildFolderPath_beyond_levels Cases.deep_drive "d11" (Cases.nested 11)
           ["level0"; "level1"; "level2"; "level3"; "level4"; "level5"; "level6";
            "level7"; "level8"; "level9"; "level10"]).
  - vm_compute. reflexivity.
  - apply (names_to_root_sound Cases.deep_drive 12). vm_compute. reflexivity.
  - vm_compute. lia.
Defined.

(** A folder that is its own parent: ten times its name, and an end. *)
Example buildFolderPath_of_a_cycle :
  length (FolderList.folderPath_parts Cases.small_drive
            (Cases.drive_folder "loop" "loop" "loop")) = 10.
Proof. vm_compute. reflexivity. Qed.

(** ** Reading the selection of Finder *)
Section FinderFacts.
Import Text Finder Statements.

Lemma split_on_nonempty (sep : ascii) (s : string) : split_on sep s <> [].
Proof.
  destruct s as [|c s]; cbn [split_on]; [discriminate|].
  destruct (Ascii.eqb c sep); [discriminate|].
  destruct (split_on sep s); discriminate.
Qed.

Lemma split_on_lines_one_line (s : string) : Forall one_line (split_on newline s).
Proof.
  induction s as [|c s IH]; [repeat constructor|].
  cbn [split_on]. destruct (Ascii.eqb_spec c newline).
  - constructor; [exact I|exact IH].
  - destruct (split_on newline s) as [|part parts]; [repeat constructor; assumption|].
    inversion IH; subst. constructor; [split; assumption|assumption].
Qed.

Lemma split_on_one_line (s : string) : one_line s -> split_on newline s = [s].
Proof.
  induction s as [|c s IH]; [reflexivity|].
  cbn [one_line split_on]. intros [Hc Hs].
  destruct (Ascii.eqb_spec c newline); [contradiction|].
  rewrite (IH Hs). reflexivity.
Qed.

Lemma split_on_line_break (a b : string) :
  split_on newline (a +:+ String newline b) = split_on newline a ++ split_on newline b.
Proof.
  induction a as [|c a IH].
  - change (EmptyString +:+ String newline b) with (String newline b).
    cbn [split_on]. rewrite Ascii.eqb_refl. reflexivity.
  - change (String c a +:+ String newline b) with (String c (a +:+ String newline b)).
    cbn [split_on]. rewrite IH. destruct (Ascii.eqb c newline); [reflexivity|].
    pose proof (split_on_nonempty newline a) as Hne.
    destruct (split_on newline a); [congruence|reflexivity].
Qed.

(** Splitting the lines of a joined list gives the list back. *)
Lemma split_join_lines (paths : list string) :
  paths <> [] -> Forall one_line paths ->
  split_on newline (join_lines paths) = paths.
Proof.
  induction paths as [|p paths IH]; [congruence|]. intros _ Hall.
  inversion Hall as [|? ? Hp Hpaths]; subst.
  destruct paths as [|q paths]; [apply split_on_one_line; exact Hp|].
  change (join_lines (p :: q :: paths)) with (p +:+ String newline (join_lines (q :: paths))).
  rewrite split_on_line_break, (split_on_one_line _ Hp), IH by (congruence || assumption).
  reflexivity.
Qed.

Lemma append_empty_r (s : string) : s +:+ EmptyString = s.
Proof.
  induction s as [|c s IH]; [reflexivity|].
  change (String c s +:+ EmptyString) with (String c (s +:+ EmptyString)).
  rewrite IH. reflexivity.
Qed.

(** Two ways of cutting one string: one cut comes first. *)
Lemma append_cuts (x : string) :
  forall y u v : string,
    x +:+ y = u +:+ v ->
    (exists z, u = x +:+ z /\ y = z +:+ v) \/ (exists z, x = u +:+ z /\ v = z +:+ y).
Proof.
  induction x as [|c x IH]; intros y u v Hcut.
  - left. exists u. split; [reflexivity|exact Hcut].
  - destruct u as [|d u].
    + right. exists (String c x). split; [reflexivity|]. symmetry. exact Hcut.
    + change (String c (x +:+ y) = String d (u +:+ v)) in Hcut.
      injection Hcut as <- Hcut.
      destruct (IH _ _ _ Hcut) as [(z & -> & Hy)|(z & -> & Hv)].
      * left. exists z. split; [reflexivity|exact Hy].
      * right. exists z. split; [reflexivity|exact Hv].
Qed.

Lemma is_white_In (s : string) : is_white s = true <-> In s white_space.
Proof.
  unfold is_white. rewrite existsb_exists. split.
  - intros (space & Hin & Heq). apply String.eqb_eq in Heq. subst space. exact Hin.
  - intros Hin. exists s. split; [exact Hin|apply String.eqb_refl].
Qed.

(** A line feed is a white-space character of its own and part of no
    other. *)
Lemma white_space_line_feed (space a b : string) :
  In space white_space -> space = a +:+ String newline b ->
  a = EmptyString /\ b = EmptyString.
Proof.
  intros Hin Hcut. unfold white_space in Hin. cbn [In] in Hin.
  repeat (destruct Hin as [Hspace|Hin];
          [ subst space; vm_compute in Hcut;
            destruct a as [|a1 [|a2 [|a3 a]]]; vm_compute in Hcut;
            try discriminate Hcut;
            try (injection Hcut as _ _ _ _ _ _ _ _ Hcut);
            try (injection Hcut as _ _ _ _ _ _ _ _ Hcut);
            try (injection Hcut as _ _ _ _ _ _ _ _ Hcut);
            try discriminate Hcut;
            try (destruct b; [split; reflexivity|discriminate Hcut]);
            try (destruct a; discriminate Hcut)
          | ]).
  destruct Hin.
Qed.

(** White space in front and at the end goes. *)
Lemma trim_start_space (space s : string) :
  In space white_space -> trim_start (space +:+ s) = trim_start s.
Proof.
  intros Hin. unfold white_space in Hin. cbn [In] in Hin.
  repeat (destruct Hin as [<-|Hin]; [reflexivity|]). destruct Hin.
Qed.

Lemma trim_end_space (space s : string) :
  In space white_space -> trim_end (s +:+ space) = trim_end s.
Proof.
  intros Hin. induction s as [|c s IH].
  - unfold white_space in Hin. cbn [In] in Hin.
    repeat (destruct Hin as [<-|Hin]; [reflexivity|]). destruct Hin.
  - change (String c s +:+ space) with (String c (s +:+ space)).
    cbn [trim_end]. rewrite IH. reflexivity.
Qed.

Lemma trim_start_clean (s : string) : starts_clean s -> trim_start s = s.
Proof.
  intros [Hne Hclean]. destruct s as [|c1 r1]; [congruence|]. cbn [trim_start].
  destruct (is_white (String c1 EmptyString)) eqn:H1.
  { apply is_white_In in H1. exfalso. apply (Hclean _ r1 H1). reflexivity. }
  destruct r1 as [|c2 r2]; [reflexivity|].
  destruct (is_white (String c1 (String c2 EmptyString))) eqn:H2.
  { apply is_white_In in H2. exfalso. apply (Hclean _ r2 H2). reflexivity. }
  destruct r2 as [|c3 r3]; [reflexivity|].
  destruct (is_white (String c1 (String c2 (String c3 EmptyString)))) eqn:H3.
  { apply is_white_In in H3. exfalso. apply (Hclean _ r3 H3). reflexivity. }
  reflexivity.
Qed.

Lemma ends_clean_tail (c d : ascii) (s : string) :
  ends_clean (String c (String d s)) -> ends_clean (String d s).
Proof.
  intros [_ Hclean]. split; [discriminate|].
  intros front space Hin Heq. apply (Hclean (String c front) space Hin).
  rewrite Heq. reflexivity.
Qed.

Lemma trim_end_clean (s : string) : ends_clean s -> trim_end s = s.
Proof.
  induction s as [|c s IH]; [intros [Hne _]; congruence|].
  intros Hclean.
  assert (Hrest : trim_end s = s).
  { destruct s as [|d s]; [reflexivity|]. apply IH. apply (ends_clean_tail c). exact Hclean. }
  cbn [trim_end]. rewrite Hrest.
  destruct (is_white (String c s)) eqn:Hwhite; [|reflexivity].
  apply is_white_In in Hwhite. exfalso.
  destruct Hclean as [_ Hclean]. apply (Hclean EmptyString _ Hwhite). reflexivity.
Qed.

Lemma trim_clean (s : string) : starts_clean s -> ends_clean s -> trim s = s.
Proof.
  intros Hstart Hend. unfold trim. rewrite (trim_start_clean _ Hstart).
  apply trim_end_clean. exact Hend.
Qed.

(** A clean start stays one when a line is appended. *)
Lemma starts_clean_line (p more : string) :
  starts_clean p -> starts_clean (p +:+ String newline more).
Proof.
  intros [Hne Hclean]. split; [destruct p; [congruence|discriminate]|].
  intros space rest Hin Heq.
  destruct (append_cuts _ _ _ _ Heq) as [(z & Hspace & Hline)|(z & Hp & _)].
  - destruct z as [|d z].
    + apply (Hclean space EmptyString Hin). rewrite Hspace, !append_empty_r. reflexivity.
    + change (String newline more = String d (z +:+ rest)) in Hline.
      injection Hline as <- _.
      destruct (white_space_line_feed _ _ _ Hin Hspace) as [Hp _]. congruence.
  - apply (Hclean space z Hin). exact Hp.
Qed.

(** A clean end stays one when a line is put in front. *)
Lemma ends_clean_line (a b : string) :
  ends_clean b -> ends_clean (a +:+ String newline b).
Proof.
  intros [Hne Hclean]. split; [destruct a; discriminate|].
  intros front space Hin Heq.
  destruct (append_cuts _ _ _ _ Heq) as [(z & _ & Hline)|(z & _ & Hspace)].
  - destruct z as [|d z].
    + change (String newline b = space) in Hline.
      destruct (white_space_line_feed space EmptyString b Hin) as [_ Hb];
        [symmetry; exact Hline|congruence].
    + change (String newline b = String d (z +:+ space)) in Hline.
      injection Hline as _ Hb. apply (Hclean z space Hin). exact Hb.
  - destruct (white_space_line_feed space z b Hin Hspace) as [_ Hb]. congruence.
Qed.

Lemma join_lines_starts_clean (p : string) (paths : list string) :
  starts_clean p -> starts_clean (join_lines (p :: paths)).
Proof.
  intros Hp. destruct paths as [|q paths]; [exact Hp|].
  change (join_lines (p :: q :: paths)) with (p +:+ String newline (join_lines (q :: paths))).
  apply starts_clean_line. exact Hp.
Qed.

Lemma join_lines_ends_clean (paths : list string) :
  paths <> [] -> ends_clean (List.last paths EmptyString) -> ends_clean (join_lines paths).
Proof.
  induction paths as [|p paths IH]; [congruence|]. intros _ Hlast.
  destruct paths as [|q paths]; [exact Hlast|].
  change (join_lines (p :: q :: paths)) with (p +:+ String newline (join_lines (q :: paths))).
  apply ends_clean_line.
  change (List.last (p :: q :: paths) EmptyString) with (List.last (q :: paths) EmptyString)
    in Hlast.
  apply IH; [discriminate|exact Hlast].
Qed.

(** A string that begins with a byte no white-space character begins
    with starts clean; likewise at the end. *)
Lemma starts_clean_first_byte (s : string) :
  s <> EmptyString ->
  Forall (fun space => space <> EmptyString /\ first_byte space <> first_byte s) white_space ->
  starts_clean s.
Proof.
  intros Hne Hall. split; [exact Hne|]. intros space rest Hin Heq.
  rewrite Stdlib.Lists.List.Forall_forall in Hall.
  destruct (Hall _ Hin) as [Hspace Hfirst]. apply Hfirst. rewrite Heq.
  destruct space; [congruence|reflexivity].
Qed.

Lemma last_byte_append (front s : string) :
  s <> EmptyString -> last_byte (front +:+ s) = last_byte s.
Proof.
  intros Hne. induction front as [|c front IH]; [reflexivity|].
  change (String c front +:+ s) with (String c (front +:+ s)).
  cbn [last_byte]. destruct (front +:+ s) eqn:Hjoined; [|exact IH].
  destruct front; [change (s = EmptyString) in Hjoined; congruence|discriminate Hjoined].
Qed.

Lemma ends_clean_last_byte (s : string) :
  s <> EmptyString ->
  Forall (fun space => space <> EmptyString /\ last_byte space <> last_byte s) white_space ->
  ends_clean s.
Proof.
  intros Hne Hall. split; [exact Hne|]. intros front space Hin Heq.
  rewrite Stdlib.Lists.List.Forall_forall in Hall.
  destruct (Hall _ Hin) as [Hspace Hlast]. apply Hlast. rewrite Heq.
  symmetry. apply last_byte_append. exact Hspace.
Qed.

Lemma starts_clean_truthy (s : string) : starts_clean s -> truthy s = true.
Proof. destruct s; [intros [Hne _]; congruence|reflexivity]. Qed.

Lemma filter_nonempty_all (paths : list string) :
  Forall (fun p => truthy p = true) paths ->
  List.filter (fun p => Nat.ltb 0 (String.length p)) paths = paths.
Proof.
  induction 1 as [|p paths Hp _ IH]; [reflexivity|].
  destruct p as [|c p]; [discriminate|].
  change (List.filter (fun p => Nat.ltb 0 (String.length p)) (String c p :: paths))
    with (String c p :: List.filter (fun p => Nat.ltb 0 (String.length p)) paths).
  rewrite IH. reflexivity.
Qed.

(** A no-break space and a line separator are trimmed like a space. *)
Example trim_beyond_ascii :
  trim (Cases.nbsp +:+ " /Users/a/doc.pdf" +:+ Cases.line_separator +:+ Cases.nbsp)
  = "/Users/a/doc.pdf"
  /\ trim_truthy (Cases.nbsp +:+ Cases.line_separator) = false.
Proof. split; vm_compute; reflexivity. Qed.

(** X13. [getSelectedFinderFiles] never returns an empty path nor one
    with a line feed in it, and returns no path at all when the script
    fails or its text is empty or blank. *)
Theorem getSelectedFinderFiles_paths (script : Result string) :
  Forall (fun p => truthy p = true /\ one_line p) (getSelectedFinderFiles script)
  /\ (forall msg, getSelectedFinderFiles (Throw msg) = [])
  /\ (forall text, trim text = EmptyString -> getSelectedFinderFiles (Ok text) = []).
Proof.
  split; [|split].
  - unfold getSelectedFinderFiles. destruct script as [text|msg]; [|constructor].
    destruct (negb (truthy text) || negb (truthy (trim text))); [constructor|].
    pose proof (split_on_lines_one_line (trim text)) as Hall.
    induction Hall as [|part parts Hpart _ IH]; [constructor|].
    cbn [List.filter]. destruct part as [|c part]; [exact IH|].
    cbn [String.length Nat.ltb Nat.leb]. constructor; [|exact IH].
    split; [reflexivity|exact Hpart].
  - reflexivity.
  - intros text Hblank. unfold getSelectedFinderFiles. rewrite Hblank.
    cbn [truthy negb]. rewrite orb_true_r. reflexivity.
Qed.

(** X14. The paths Finder writes one per line come back as they are,
    provided none is empty or holds a line feed, the first does not begin
    and the last does not end with white space. *)
Theorem getSelectedFinderFiles_round_trip (paths : list string) :
  paths <> [] ->
  Forall (fun p => truthy p = true /\ one_line p) paths ->
  starts_clean (List.hd EmptyString paths) ->
  ends_clean (List.last paths EmptyString) ->
  getSelectedFinderFiles (Ok (join_lines paths)) = paths.
Proof.
  intros Hne Hall Hstart Hend.
  assert (Hhead : starts_clean (join_lines paths)).
  { destruct paths as [|p paths]; [congruence|]. apply join_lines_starts_clean. exact Hstart. }
  pose proof (join_lines_ends_clean paths Hne Hend) as Htail.
  unfold getSelectedFinderFiles.
  rewrite (trim_clean _ Hhead Htail), (starts_clean_truthy _ Hhead). cbn [negb orb].
  rewrite split_join_lines; [|exact Hne|].
  - apply filter_nonempty_all. eapply Forall_impl; [exact Hall|]. intros p [Hp _]. exact Hp.
  - eapply Forall_impl; [exact Hall|]. intros p [_ Hp]. exact Hp.
Qed.

End FinderFacts.

Lemma getSelectedFinderFiles_round_trip_witness :
  Finder.getSelectedFinderFiles
    (Ok (Statements.join_lines ["/Users/a/doc.pdf"; "/Users/a/my photos/"]))
  = ["/Users/a/doc.pdf"; "/Users/a/my photos/"].
Proof.
  apply (getSelectedFinderFiles_round_trip ["/Users/a/doc.pdf"; "/Users/a/my photos/"]).
  - discriminate.
  - repeat constructor; vm_compute; discriminate.
  - apply starts_clean_first_byte; [discriminate|].
    repeat constructor; vm_compute; discriminate.
  - apply ends_clean_last_byte; [discriminate|].
    repeat constructor; vm_compute; discriminate.
Defined.

(** ** More on flattening *)
Section FlattenMore.
Import Text Types Env FileUtils Drive Upload Policy Statements Scenario.

Variable mime_lookup : string -> option string.

Lemma getAllFiles_from_app (fs : node) (before : list string) :
  forall (rest : list string) (allFiles : list FileMetadata),
    Forall (fun p => statSync fs p <> None) before ->
    getAllFiles_from mime_lookup fs (before ++ rest) allFiles
    = getAllFiles_from mime_lookup fs rest
        (allFiles ++ flat_map (contribution_of mime_lookup fs) before).
Proof.
  induction before as [|p before IH]; intros rest allFiles Hall.
  - cbn. rewrite app_nil_r. reflexivity.
  - inversion Hall as [|? ? Hp Hbefore]; subst.
    cbn [app getAllFiles_from flat_map].
    assert (Hcontribution :
              contribution_of mime_lookup fs p
              = match statSync fs p with
                | Some (Directory readable entries) =>
                    walkDirectory mime_lookup fs (parse_path p)
                                  (Some (dirname_segs (parse_path p)))
                | Some n => [metadata mime_lookup p (parse_path p) None n]
                | None => []
                end).
    { unfold contribution_of, walkDirectory, statSync.
      destruct (lookup_node fs (parse_path p)) as [[sz|readable entries|]|]; try reflexivity.
      symmetry. apply walkNode_visible_files. }
    rewrite Hcontribution. unfold isDirectory, getFileMetadata.
    destruct (statSync fs p) as [[sz|readable entries|]|]; [| | |congruence];
      rewrite IH by exact Hbefore; rewrite <- app_assoc; reflexivity.
Qed.

(** Either every path is there, or there is a first one that is not. *)
Lemma first_missing (fs : node) (paths : list string) :
  Forall (fun p => statSync fs p <> None) paths
  \/ exists before p after,
       paths = before ++ p :: after
       /\ Forall (fun p => statSync fs p <> None) before
       /\ statSync fs p = None.
Proof.
  induction paths as [|p paths [IH|(before & q & after & -> & Hbefore & Hq)]].
  - left. constructor.
  - destruct (statSync fs p) eqn:Hp.
    + left. constructor; [congruence|exact IH].
    + right. exists [], p, paths. split; [reflexivity|]. split; [constructor|exact Hp].
  - destruct (statSync fs p) eqn:Hp.
    + right. exists (p :: before), q, after. split; [reflexivity|].
      split; [constructor; [congruence|exact Hbefore]|exact Hq].
    + right. exists [], p, (before ++ q :: after).
      split; [reflexivity|]. split; [constructor|exact Hp].
Qed.

Lemma getAllFiles_missing (fs : node) (before after : list string) (p : string) :
  Forall (fun q => statSync fs q <> None) before ->
  statSync fs p = None ->
  getAllFiles mime_lookup fs (before ++ p :: after)
  = Throw ("ENOENT: no such file or directory, stat '" +:+ p +:+ "'").
Proof.
  intros Hbefore Hp. unfold getAllFiles.
  rewrite (getAllFiles_from_app fs before _ _ Hbefore).
  cbn [getAllFiles_from]. unfold isDirectory, getFileMetadata. rewrite Hp. reflexivity.
Qed.

(** X15. A selected path that is not on the disk makes [getAllFiles]
    throw the [ENOENT] error of the first such path; the units of the
    paths before it are lost with it. *)
Theorem getAllFiles_stops_at_missing_path (fs : node) (before after : list string)
    (p : string) :
  Forall (fun q => statSync fs q <> None) before ->
  statSync fs p = None ->
  getAllFiles mime_lookup fs (before ++ p :: after)
  = Throw ("ENOENT: no such file or directory, stat '" +:+ p +:+ "'").
Proof. apply getAllFiles_missing. Qed.

Lemma getAllFiles_Ok_all_there (fs : node) (paths : list string) (units : list FileMetadata) :
  getAllFiles mime_lookup fs paths = Ok units ->
  Forall (fun p => statSync fs p <> None) paths.
Proof.
  intros Hrun. destruct (first_missing fs paths)
    as [Hall|(before & p & after & -> & Hbefore & Hp)]; [exact Hall|].
  rewrite (getAllFiles_missing fs before after p Hbefore Hp) in Hrun.
  discriminate Hrun.
Qed.

(** X16. No unit [getAllFiles] returns is a directory; and a selection
    of directories under which no file is found (empty ones, or with
    hidden entries only) flattens to nothing at all. *)
Theorem getAllFiles_units_are_files (fs : node) (paths : list string) :
  (forall units,
      getAllFiles mime_lookup fs paths = Ok units ->
      Forall (fun u => file_isDirectory u = false) units)
  /\ (Forall (fun p => exists readable entries,
                   statSync fs p = Some (Directory readable entries)
                   /\ forall rest size,
                        ~ visible_file (Directory readable entries) rest size) paths ->
      getAllFiles mime_lookup fs paths = Ok []).
Proof.
  split.
  - intros units Hrun.
    pose proof (getAllFiles_Ok_all_there fs paths units Hrun) as Hall.
    rewrite (getAllFiles_contributions mime_lookup fs paths Hall) in Hrun.
    injection Hrun as <-. apply Stdlib.Lists.List.Forall_forall. intros u Hu.
    apply in_flat_map in Hu as (p & _ & Hu). unfold contribution_of in Hu.
    destruct (statSync fs p) as [[sz|readable entries|]|].
    + destruct Hu as [<-|[]]. reflexivity.
    + apply in_map_iff in Hu as (found & <- & _). reflexivity.
    + destruct Hu as [<-|[]]. reflexivity.
    + destruct Hu.
  - intros Hempty. rewrite getAllFiles_contributions.
    + f_equal. induction Hempty as [|p paths (readable & entries & Hstat & Hnone) _ IH];
        [reflexivity|].
      cbn [flat_map]. rewrite IH, app_nil_r. unfold contribution_of. rewrite Hstat.
      destruct (visible_files (Directory readable entries)) as [|[rest size] found] eqn:Hfound;
        [reflexivity|].
      exfalso. apply (Hnone rest size). apply visible_files_spec. rewrite Hfound.
      left. reflexivity.
    + eapply Forall_impl; [exact Hempty|].
      intros p (readable & entries & Hstat & _). congruence.
Qed.

Lemma plain_files_no_structure (files : list FileMetadata) :
  Forall (fun f => relativePath f = None) files ->
  needsStructure files = false /\ extractFolderStructure files = [].
Proof.
  intros Hall. unfold needsStructure, extractFolderStructure.
  generalize (@nil (string * list string)) as structure.
  induction Hall as [|f files Hf _ IH]; intros structure.
  - split; reflexivity.
  - cbn [existsb fold_left]. unfold add_file at 2. rewrite Hf. cbn [orb]. exact (IH structure).
Qed.

(** X17. A selection without directories gives units without relative
    path; for such a batch no folder is looked up or created (the index
    is the initial one and the world is untouched), and every unit goes
    directly under the destination. *)
Theorem plain_selection_needs_no_hierarchy (fs : node) (paths : list string)
    (units : list FileMetadata) (accessToken folderId : string) (hasFolders : bool)
    (w : World) :
  Forall (fun p => isDirectory fs p = false) paths ->
  getAllFiles mime_lookup fs paths = Ok units ->
  Forall (fun u => relativePath u = None) units
  /\ sortedFolders units = []
  /\ build_hierarchy accessToken folderId hasFolders units w
     = (Ok (initial_map folderId), w)
  /\ Forall (fun u =>
               forall folderIdMap,
                 parent_of_file folderId hasFolders folderIdMap u
                 = if String.eqb folderId "root" then None else Some folderId) units.
Proof.
  intros Hplain Hrun.
  pose proof (getAllFiles_Ok_all_there fs paths units Hrun) as Hall.
  rewrite (getAllFiles_contributions mime_lookup fs paths Hall) in Hrun.
  injection Hrun as <-.
  assert (Hnone : Forall (fun u => relativePath u = None)
                    (flat_map (contribution_of mime_lookup fs) paths)).
  { apply Stdlib.Lists.List.Forall_forall. intros u Hu.
    apply in_flat_map in Hu as (p & Hp & Hu).
    rewrite Stdlib.Lists.List.Forall_forall in Hplain. specialize (Hplain p Hp).
    unfold isDirectory in Hplain. unfold contribution_of in Hu.
    destruct (statSync fs p) as [[sz|readable entries|]|]; try discriminate Hplain.
    - destruct Hu as [<-|[]]. reflexivity.
    - destruct Hu as [<-|[]]. reflexivity.
    - destruct Hu. }
  destruct (plain_files_no_structure _ Hnone) as [Hneeds Hstructure].
  split; [exact Hnone|]. split; [|split].
  - unfold sortedFolders. rewrite Hstructure. reflexivity.
  - unfold build_hierarchy. rewrite Hneeds. reflexivity.
  - eapply Forall_impl; [exact Hnone|]. intros u Hu folderIdMap.
    unfold parent_of_file. rewrite Hu. reflexivity.
Qed.

End FlattenMore.

(** The folder [photos] has vanished from the selection's disk. *)
Lemma getAllFiles_stops_at_missing_path_witness :
  FileUtils.getAllFiles Scenario.no_mime Scenario.disk
    ["/Users/a/doc.pdf"; "/Users/a/gone.txt"; "/Users/a/photos/"]
  = Throw "ENOENT: no such file or directory, stat '/Users/a/gone.txt'".
Proof.
  apply (getAllFiles_stops_at_missing_path Scenario.no_mime Scenario.disk
           ["/Users/a/doc.pdf"] ["/Users/a/photos/"] "/Users/a/gone.txt").
  - repeat constructor. vm_compute. discriminate.
  - vm_compute. reflexivity.
Defined.

(** A folder with hidden entries only has nothing to upload. *)
Lemma getAllFiles_units_are_files_witness :
  FileUtils.getAllFiles Scenario.no_mime Cases.hidden_only ["/cfg/"] = Ok [].
Proof.
  apply (getAllFiles_units_are_files Scenario.no_mime Cases.hidden_only ["/cfg/"]).
  constructor; [|constructor].
  eexists _, _. split; [vm_compute; reflexivity|].
  intros rest size Hvisible. apply visible_files_spec in Hvisible.
  vm_compute in Hvisible. exact Hvisible.
Defined.

Lemma plain_selection_needs_no_hierarchy_witness :
  Upload.build_hierarchy "token-a" "DEST" true
    [Scenario.octet_stream "/Users/a/doc.pdf" "doc.pdf" 120 None;
     Scenario.octet_stream "/Users/a/.profile" ".profile" 7 None]
    Scenario.token_revoked
  = (Ok (Upload.initial_map "DEST"), Scenario.token_revoked).
Proof.
  destruct (plain_selection_needs_no_hierarchy Scenario.no_mime Scenario.disk
              ["/Users/a/doc.pdf"; "/Users/a/.profile"]
              [Scenario.octet_stream "/Users/a/doc.pdf" "doc.pdf" 120 None;
               Scenario.octet_stream "/Users/a/.profile" ".profile" 7 None]
              "token-a" "DEST" true Scenario.token_revoked)
    as (_ & _ & Hrun & _).
  - repeat constructor.
  - vm_compute. reflexivity.
  - exact Hrun.
Defined.

(** ** The retry loop for any number of attempts *)
Section RetryMore.
Import Text Types Env Drive Upload Policy Statements Scenario.

Variables filePath fileName mimeType accessToken : string.
Variable parentFolderId : option string.








End RetryMore.



(** ** What a batch does and does not touch *)
Section BatchMore.
Import Text Types Env FileUtils Drive Upload Policy Statements Scenario.

Local Arguments pretty : simpl never.

Lemma forget_set_permissionNet (answers : list (Http unit)) (w : World) :
  forget_permissions (set_permissionNet answers w) = forget_permissions w.
Proof. reflexivity. Qed.

Lemma log_agree (e : Event) (w1 w2 : World) :
  forget_permissions w1 = forget_permissions w2 ->
  forget_permissions (log e w1) = forget_permissions (log e w2).
Proof.
  destruct w1 as [r1 s1 c1 u1 p1 t1], w2 as [r2 s2 c2 u2 p2 t2].
  unfold forget_permissions, set_permissionNet, log. cbn.
  intros H. injection H as -> -> -> -> ->. reflexivity.
Qed.

Lemma uploadFile_agree (filePath fileName mimeType accessToken : string)
    (parentFolderId : option string) (w1 w2 : World) :
  forget_permissions w1 = forget_permissions w2 ->
  fst (uploadFile filePath fileName mimeType accessToken parentFolderId w1)
  = fst (uploadFile filePath fileName mimeType accessToken parentFolderId w2)
  /\ forget_permissions (snd (uploadFile filePath fileName mimeType accessToken
                                         parentFolderId w1))
     = forget_permissions (snd (uploadFile filePath fileName mimeType accessToken
                                           parentFolderId w2)).
Proof.
  destruct w1 as [r1 s1 c1 u1 p1 t1], w2 as [r2 s2 c2 u2 p2 t2].
  unfold forget_permissions, set_permissionNet. cbn.
  intros H. injection H as -> -> -> -> ->.
  unfold uploadFile, next_upload, log, set_uploadNet. cbn.
  destruct u2 as [|[uploaded|status errorText|msg] answers]; cbn;
    try (split; reflexivity).
  destruct (Nat.eqb status 401); split; reflexivity.
Qed.

Lemma after_permission_agree (fileId : string) (w1 w2 : World) :
  forget_permissions w1 = forget_permissions w2 ->
  forget_permissions (after_permission fileId w1)
  = forget_permissions (after_permission fileId w2).
Proof.
  destruct w1 as [r1 s1 c1 u1 p1 t1], w2 as [r2 s2 c2 u2 p2 t2].
  unfold forget_permissions, set_permissionNet. cbn.
  intros H. injection H as -> -> -> -> ->.
  unfold after_permission, next_permission, log, set_permissionNet. cbn.
  destruct p1, p2; reflexivity.
Qed.

Lemma retry_from_agree (filePath fileName mimeType accessToken : string)
    (parentFolderId : option string) (maxRetries remaining : nat) :
  forall (attempt : nat) (lastError : option string) (w1 w2 : World),
    forget_permissions w1 = forget_permissions w2 ->
    fst (retry_from filePath fileName mimeType accessToken parentFolderId maxRetries
                    remaining attempt lastError w1)
    = fst (retry_from filePath fileName mimeType accessToken parentFolderId maxRetries
                      remaining attempt lastError w2)
    /\ forget_permissions
         (snd (retry_from filePath fileName mimeType accessToken parentFolderId maxRetries
                          remaining attempt lastError w1))
       = forget_permissions
           (snd (retry_from filePath fileName mimeType accessToken parentFolderId
                            maxRetries remaining attempt lastError w2)).
Proof.
  induction remaining as [|remaining IH]; intros attempt lastError w1 w2 Hagree.
  - cbn [retry_from]. destruct lastError; cbn; split; (reflexivity || exact Hagree).
  - cbn [retry_from].
    destruct (uploadFile_agree filePath fileName mimeType accessToken parentFolderId
                w1 w2 Hagree) as [Hres Hworld].
    destruct (uploadFile filePath fileName mimeType accessToken parentFolderId w1)
      as [r1 w1'].
    destruct (uploadFile filePath fileName mimeType accessToken parentFolderId w2)
      as [r2 w2'].
    cbn [fst snd] in Hres, Hworld. subst r2. destruct r1 as [uploaded|msg].
    + rewrite !makeFilePublic_best_effort. cbn [fst snd].
      split; [reflexivity|]. apply after_permission_agree. exact Hworld.
    + apply IH. destruct (Nat.ltb attempt (maxRetries - 1)); [|exact Hworld].
      cbn [sleep snd]. apply log_agree. exact Hworld.
Qed.

Variables accessToken folderId : string.
Variable hasFolders : bool.
Variable folderIdMap : gmap string string.

Lemma upload_files_agree (files : list FileMetadata) :
  forall (results : list UploadResult) (w1 w2 : World),
    forget_permissions w1 = forget_permissions w2 ->
    fst (upload_files accessToken folderId hasFolders folderIdMap files results w1)
    = fst (upload_files accessToken folderId hasFolders folderIdMap files results w2).
Proof.
  induction files as [|f files IH]; intros results w1 w2 Hagree; [reflexivity|].
  destruct (retry_from_agree (file_path f) (file_name f) (file_mimeType f) accessToken
              (parent_of_file folderId hasFolders folderIdMap f)
              defaultMaxRetries defaultMaxRetries 0 None w1 w2 Hagree) as [Hres Hworld].
  fold (uploadFileWithRetry (file_path f) (file_name f) (file_mimeType f) accessToken
          (parent_of_file folderId hasFolders folderIdMap f) defaultMaxRetries)
    in Hres, Hworld.
  destruct (uploadFileWithRetry (file_path f) (file_name f) (file_mimeType f) accessToken
              (parent_of_file folderId hasFolders folderIdMap f) defaultMaxRetries w1)
    as [r1 w1'] eqn:Hrun1.
  destruct (uploadFileWithRetry (file_path f) (file_name f) (file_mimeType f) accessToken
              (parent_of_file folderId hasFolders folderIdMap f) defaultMaxRetries w2)
    as [r2 w2'] eqn:Hrun2.
  cbn [fst snd] in Hres, Hworld. subst r2.
  rewrite (upload_files_step _ _ _ _ f files results w1 w1' r1 Hrun1).
  rewrite (upload_files_step _ _ _ _ f files results w2 w2' r1 Hrun2).
  apply IH. exact Hworld.
Qed.

(** X20. Sharing is best effort for the whole batch: whatever the
    answers to the permission requests are, failures included, the
    results of the upload loop are the same. *)
Theorem upload_results_ignore_permissions (files : list FileMetadata)
    (results : list UploadResult) (w : World) (answers : list (Http unit)) :
  fst (upload_files accessToken folderId hasFolders folderIdMap files results
         (set_permissionNet answers w))
  = fst (upload_files accessToken folderId hasFolders folderIdMap files results w).
Proof. apply upload_files_agree. apply forget_set_permissionNet. Qed.

Lemma uploadFile_folders_side (filePath fileName mimeType token : string)
    (parentFolderId : option string) (w : World) :
  folders_side (snd (uploadFile filePath fileName mimeType token parentFolderId w))
  = folders_side w.
Proof.
  destruct w as [r s c u p t]. unfold uploadFile, next_upload, log, set_uploadNet. cbn.
  destruct u as [|[uploaded|status errorText|msg] answers]; cbn; try reflexivity.
  destruct (Nat.eqb status 401); reflexivity.
Qed.

Lemma after_permission_folders_side (fileId : string) (w : World) :
  folders_side (after_permission fileId w) = folders_side w.
Proof.
  destruct w as [r s c u p t].
  unfold after_permission, next_permission, log, set_permissionNet. cbn.
  destruct p; reflexivity.
Qed.

Lemma retry_from_folders_side (filePath fileName mimeType token : string)
    (parentFolderId : option string) (maxRetries remaining : nat) :
  forall (attempt : nat) (lastError : option string) (w : World),
    folders_side (snd (retry_from filePath fileName mimeType token parentFolderId
                                  maxRetries remaining attempt lastError w))
    = folders_side w.
Proof.
  induction remaining as [|remaining IH]; intros attempt lastError w.
  - cbn [retry_from]. destruct lastError; reflexivity.
  - cbn [retry_from].
    pose proof (uploadFile_folders_side filePath fileName mimeType token parentFolderId w)
      as Hside.
    destruct (uploadFile filePath fileName mimeType token parentFolderId w) as [[uploaded|msg] w1].
    + rewrite makeFilePublic_best_effort. cbn [snd] in *.
      rewrite after_permission_folders_side. exact Hside.
    + rewrite IH. cbn [snd] in Hside.
      destruct (Nat.ltb attempt (maxRetries - 1)); exact Hside.
Qed.

(** X21. The upload loop always completes, whatever the network does:
    it returns one result per file, in the order of the files and under
    their local paths, each either a success with the uploaded file or a
    failure with an error message; and it neither looks up nor creates
    nor changes any folder. *)
Theorem upload_files_always_completes (files : list FileMetadata) :
  forall (results : list UploadResult) (w : World),
    exists outcomes w',
      upload_files accessToken folderId hasFolders folderIdMap files results w
      = (Ok (results ++ outcomes), w')
      /\ map localPath outcomes = map file_path files
      /\ Forall (fun r => (success r = true /\ file r <> None /\ error r = None)
                          \/ (success r = false /\ file r = None /\ error r <> None))
                outcomes
      /\ folders_side w' = folders_side w.
Proof.
  induction files as [|f files IH]; intros results w.
  - exists [], w. cbn. rewrite app_nil_r. repeat split. constructor.
  - pose proof (retry_from_folders_side (file_path f) (file_name f) (file_mimeType f)
                  accessToken (parent_of_file folderId hasFolders folderIdMap f)
                  defaultMaxRetries defaultMaxRetries 0 None w) as Hside.
    fold (uploadFileWithRetry (file_path f) (file_name f) (file_mimeType f) accessToken
            (parent_of_file folderId hasFolders folderIdMap f) defaultMaxRetries) in Hside.
    destruct (uploadFileWithRetry (file_path f) (file_name f) (file_mimeType f) accessToken
                (parent_of_file folderId hasFolders folderIdMap f) defaultMaxRetries w)
      as [r w1] eqn:Hrun.
    rewrite (upload_files_step _ _ _ _ f files results w w1 r Hrun).
    destruct (IH (results ++ [match r with
                              | Ok uploaded => succeeded uploaded f
                              | Throw msg => failed_with msg f
                              end]) w1) as (outcomes & w' & Hloop & Hpaths & Hall & Hside').
    exists (match r with
            | Ok uploaded => succeeded uploaded f
            | Throw msg => failed_with msg f
            end :: outcomes), w'.
    split; [rewrite Hloop, <- app_assoc; reflexivity|]. split; [|split].
    + cbn [map]. rewrite Hpaths. destruct r; reflexivity.
    + constructor; [|exact Hall]. destruct r; [left|right]; cbn; repeat split; discriminate.
    + rewrite Hside'. exact Hside.
Qed.

End BatchMore.

(** ** The hierarchy on Drive *)
Section EnsureFacts.
Import Text Types Env FileUtils Drive Upload Policy Statements Scenario.

Local Arguments pretty : simpl never.

(** Whenever [createFolder] returns, the folder bears the name, lies in
    the parent and has been added to Drive. *)
Lemma createFolder_returns (folderName accessToken : string)
    (parentFolderId : option string) (w w' : World) (folder : GoogleDriveFolder) :
  createFolder folderName accessToken parentFolderId w = (Ok folder, w') ->
  gfolder_name folder = folderName
  /\ gfolder_parents folder = [parent_or_root parentFolderId]
  /\ remote w' = remote w ++ [(folder, false)].
Proof.
  destruct w as [r s c u p t]. unfold createFolder, next_create, log, set_createNet. cbn.
  destruct c as [|[newId|status errorText|msg] answers]; cbn; try discriminate.
  - intros H. injection H as <- <-. repeat split.
  - destruct (Nat.eqb status 401); discriminate.
Qed.

Lemma createFolder_sides (folderName accessToken : string)
    (parentFolderId : option string) (w : World) :
  uploads_side (snd (createFolder folderName accessToken parentFolderId w)) = uploads_side w
  /\ upload_attempts (snd (createFolder folderName accessToken parentFolderId w))
     = upload_attempts w
  /\ exists added,
       remote (snd (createFolder folderName accessToken parentFolderId w))
       = remote w ++ added.
Proof.
  destruct w as [r s c u p t].
  unfold createFolder, next_create, log, set_createNet, upload_attempts, uploads_side. cbn.
  assert (Hattempts : List.filter is_upload_attempt
                        (t ++ [EvCreate folderName parentFolderId])
                      = List.filter is_upload_attempt t)
    by (rewrite List.filter_app; cbn; apply app_nil_r).
  destruct c as [|[newId|status errorText|msg] answers]; cbn; rewrite ?Hattempts.
  - repeat split. exists []. rewrite app_nil_r. reflexivity.
  - repeat split. eexists. reflexivity.
  - destruct (Nat.eqb status 401); cbn; rewrite ?Hattempts; repeat split;
      exists []; rewrite app_nil_r; reflexivity.
  - repeat split. exists []. rewrite app_nil_r. reflexivity.
Qed.

Lemma searched_sides (folderName parent : string) (w : World) :
  uploads_side (searched folderName parent w) = uploads_side w
  /\ upload_attempts (searched folderName parent w) = upload_attempts w
  /\ remote (searched folderName parent w) = remote w.
Proof.
  destruct w as [r s c u p t].
  unfold searched, next_search, log, set_searchNet, upload_attempts, uploads_side. cbn.
  assert (Hattempts : List.filter is_upload_attempt (t ++ [EvSearch folderName parent])
                      = List.filter is_upload_attempt t)
    by (rewrite List.filter_app; cbn; apply app_nil_r).
  destruct s; cbn; rewrite Hattempts; repeat split.
Qed.

Lemma ensureFolder_cases (folderName accessToken : string)
    (parentFolderId : option string) (w : World) :
  let w1 := searched folderName (parent_or_root parentFolderId) w in
  (exists found, ensureFolder folderName accessToken parentFolderId w = (Ok found, w1)
                 /\ In found (search folderName (parent_or_root parentFolderId) w1))
  \/ ensureFolder folderName accessToken parentFolderId w
     = createFolder folderName accessToken parentFolderId w1
  \/ exists msg, ensureFolder folderName accessToken parentFolderId w = (Throw msg, w1).
Proof.
  cbv zeta. unfold ensureFolder, searched.
  destruct (next_search (log (EvSearch folderName (parent_or_root parentFolderId)) w))
    as [[u|status errorText|msg] w1]; cbn [snd].
  - destruct (search folderName (parent_or_root parentFolderId) w1) as [|found others].
    + right. left. reflexivity.
    + left. exists found. split; [reflexivity|left; reflexivity].
  - destruct (Nat.eqb status 401).
    + right. right. eexists. reflexivity.
    + right. left. reflexivity.
  - right. right. eexists. reflexivity.
Qed.

Lemma search_In (folderName parent : string) (w : World) (found : GoogleDriveFolder) :
  In found (search folderName parent w) ->
  gfolder_name found = folderName
  /\ In parent (gfolder_parents found)
  /\ In (found, false) (remote w).
Proof.
  unfold search. intros Hin. apply in_map_iff in Hin as ([folder trashed] & <- & Hin).
  apply filter_In in Hin as [Hin Hmatch]. unfold matches in Hmatch. cbn [fst snd] in *.
  apply andb_true_iff in Hmatch as [Hmatch Hparent].
  apply andb_true_iff in Hmatch as [Hname Htrashed].
  apply String.eqb_eq in Hname. destruct trashed; [discriminate|].
  apply existsb_exists in Hparent as (x & Hx & Heq). apply String.eqb_eq in Heq. subst x.
  repeat split; assumption.
Qed.

(** What a returned folder is. *)
Lemma ensureFolder_Ok_facts (folderName accessToken : string)
    (parentFolderId : option string) (w w' : World) (folder : GoogleDriveFolder) :
  ensureFolder folderName accessToken parentFolderId w = (Ok folder, w') ->
  gfolder_name folder = folderName
  /\ In (parent_or_root parentFolderId) (gfolder_parents folder)
  /\ In (folder, false) (remote w')
  /\ (remote w' = remote w \/ remote w' = remote w ++ [(folder, false)]).
Proof.
  intros Hrun.
  destruct (searched_sides folderName (parent_or_root parentFolderId) w) as (_ & _ & Hremote).
  destruct (ensureFolder_cases folderName accessToken parentFolderId w)
    as [(found & Hfound & Hin)|[Hcreate|(msg & Hthrow)]].
  - rewrite Hfound in Hrun. injection Hrun as <- <-.
    apply search_In in Hin as (Hname & Hparent & Hlive).
    repeat split; [exact Hname|exact Hparent|exact Hlive|left; exact Hremote].
  - rewrite Hcreate in Hrun. apply createFolder_returns in Hrun as (Hname & Hparents & Hadded).
    rewrite Hremote in Hadded.
    split; [exact Hname|]. split; [rewrite Hparents; left; reflexivity|].
    split; [rewrite Hadded; apply in_or_app; right; left; reflexivity|right; exact Hadded].
  - rewrite Hthrow in Hrun. discriminate Hrun.
Qed.

(** X22. Whenever [ensureFolder] returns a folder, that folder is on
    Drive and not trashed, bears the requested name and lies in the
    requested parent (the root of the drive when none is given); and
    nothing that was on Drive before has been removed or changed: at most
    one folder has been added at the end. *)
Theorem ensureFolder_returns_live_folder (folderName accessToken : string)
    (parentFolderId : option string) (w w' : World) (folder : GoogleDriveFolder) :
  ensureFolder folderName accessToken parentFolderId w = (Ok folder, w') ->
  gfolder_name folder = folderName
  /\ In (parent_or_root parentFolderId) (gfolder_parents folder)
  /\ In (folder, false) (remote w')
  /\ (remote w' = remote w \/ remote w' = remote w ++ [(folder, false)]).
Proof. apply ensureFolder_Ok_facts. Qed.

Lemma ensureFolder_sides (folderName accessToken : string)
    (parentFolderId : option string) (w : World) :
  uploads_side (snd (ensureFolder folderName accessToken parentFolderId w)) = uploads_side w
  /\ upload_attempts (snd (ensureFolder folderName accessToken parentFolderId w))
     = upload_attempts w.
Proof.
  destruct (searched_sides folderName (parent_or_root parentFolderId) w) as (Hu & Ha & _).
  destruct (createFolder_sides folderName accessToken parentFolderId
              (searched folderName (parent_or_root parentFolderId) w)) as (Hu' & Ha' & _).
  destruct (ensureFolder_cases folderName accessToken parentFolderId w)
    as [(found & -> & _)|[->|(msg & ->)]]; cbn [snd].
  - split; assumption.
  - rewrite Hu', Ha'. split; assumption.
  - split; assumption.
Qed.

Variable accessToken : string.

Lemma build_folders_sides (folderPaths : list string) :
  forall (folderIdMap : gmap string string) (w : World),
    uploads_side (snd (build_folders accessToken folderPaths folderIdMap w)) = uploads_side w
    /\ upload_attempts (snd (build_folders accessToken folderPaths folderIdMap w))
       = upload_attempts w.
Proof.
  induction folderPaths as [|p rest IH]; intros folderIdMap w; [split; reflexivity|].
  cbn [build_folders]. unfold await.
  destruct (ensureFolder_sides (folderNamePart_of p) accessToken
              (folderIdMap !! parentPath_of p) w) as [Hu Ha].
  destruct (ensureFolder _ _ _ w) as [[folder|msg] w1]; cbn [snd] in *.
  - destruct (IH (<[p := gfolder_id folder]> folderIdMap) w1) as [Hu' Ha'].
    rewrite Hu', Ha'. split; assumption.
  - split; assumption.
Qed.

Lemma build_folders_keeps (folderPaths : list string) :
  forall (folderIdMap index : gmap string string) (w w' : World) (k : string),
    build_folders accessToken folderPaths folderIdMap w = (Ok index, w') ->
    ~ In k folderPaths ->
    index !! k = folderIdMap !! k.
Proof.
  induction folderPaths as [|p rest IH]; intros folderIdMap index w w' k Hrun Hk.
  - cbn in Hrun. injection Hrun as <- <-. reflexivity.
  - cbn [build_folders] in Hrun. unfold await in Hrun.
    destruct (ensureFolder _ _ _ w) as [[folder|msg] w1]; [|discriminate Hrun].
    rewrite (IH _ _ _ _ k Hrun) by (intros Hin; apply Hk; right; exact Hin).
    apply lookup_insert_ne. intros ->. apply Hk. left. reflexivity.
Qed.

Lemma build_folders_remote_grows (folderPaths : list string) :
  forall (folderIdMap index : gmap string string) (w w' : World)
         (entry : GoogleDriveFolder * bool),
    build_folders accessToken folderPaths folderIdMap w = (Ok index, w') ->
    In entry (remote w) -> In entry (remote w').
Proof.
  induction folderPaths as [|p rest IH]; intros folderIdMap index w w' entry Hrun Hin.
  - cbn in Hrun. injection Hrun as <- <-. exact Hin.
  - cbn [build_folders] in Hrun. unfold await in Hrun.
    destruct (ensureFolder _ _ _ w) as [[folder|msg] w1] eqn:Hensure; [|discriminate Hrun].
    apply (IH _ _ _ _ entry Hrun).
    destruct (ensureFolder_Ok_facts _ _ _ _ _ _ Hensure)
      as (_ & _ & _ & [->| ->]); [exact Hin|apply in_or_app; left; exact Hin].
Qed.

(** When no path is listed twice and no path comes before its parent
    path or is it, a completed loop has mirrored every path. *)
Lemma build_folders_placed (folderPaths : list string) :
  forall (folderIdMap index : gmap string string) (w w' : World),
    build_folders accessToken folderPaths folderIdMap w = (Ok index, w') ->
    NoDup folderPaths ->
    (forall before p after,
        folderPaths = before ++ p :: after -> ~ In (parentPath_of p) (p :: after)) ->
    forall p, In p folderPaths -> placed index (remote w') p.
Proof.
  induction folderPaths as [|p rest IH]; intros folderIdMap index w w' Hrun Hnd Horder q Hq;
    [destruct Hq|].
  apply NoDup_cons in Hnd as [Hfresh Hnd].
  cbn [build_folders] in Hrun. unfold await in Hrun.
  destruct (ensureFolder _ _ _ w) as [[folder|msg] w1] eqn:Hensure; [|discriminate Hrun].
  destruct Hq as [<-|Hq].
  - destruct (ensureFolder_Ok_facts _ _ _ _ _ _ Hensure)
      as (Hname & Hparent & Hlive & _).
    assert (Hnotafter : ~ In (parentPath_of p) (p :: rest)) by (apply (Horder [] p rest eq_refl)).
    exists folder. split; [|split; [|split]].
    + rewrite (build_folders_keeps _ _ _ _ _ p Hrun)
        by (intros Hin; apply Hfresh, list_elem_of_In; exact Hin).
      apply lookup_insert_eq.
    + apply (build_folders_remote_grows _ _ _ _ _ _ Hrun). exact Hlive.
    + exact Hname.
    + rewrite (build_folders_keeps _ _ _ _ _ (parentPath_of p) Hrun)
        by (intros Hin; apply Hnotafter; right; exact Hin).
      rewrite lookup_insert_ne by (intros Heq; apply Hnotafter; left; exact Heq).
      exact Hparent.
  - apply (IH _ _ _ _ Hrun Hnd); [|exact Hq].
    intros before p' after Hsplit. apply (Horder (p :: before) p' after).
    rewrite Hsplit. reflexivity.
Qed.

End EnsureFacts.

Section StructureMore.
Import Text Types Env FileUtils Drive Upload Policy Statements Scenario.

Lemma set_if_absent_NoDup (k : string) (structure : list (string * list string)) :
  NoDup (map fst structure) -> NoDup (map fst (set_if_absent k structure)).
Proof.
  intros Hnd. unfold set_if_absent. destruct (has_key k structure) eqn:Hhas; [exact Hnd|].
  rewrite map_app. apply NoDup_app. split; [exact Hnd|]. split; [|apply NoDup_singleton].
  intros x Hx Hx'. cbn in Hx'. apply list_elem_of_singleton in Hx'. subst x.
  apply list_elem_of_In, has_key_In in Hx. congruence.
Qed.

Lemma add_prefixes_NoDup (parts : list string) :
  forall currentPath structure,
    NoDup (map fst structure) ->
    NoDup (map fst (add_prefixes parts currentPath structure)).
Proof.
  induction parts as [|part parts IH]; intros currentPath structure Hnd; [exact Hnd|].
  cbn [add_prefixes]. apply IH. apply set_if_absent_NoDup. exact Hnd.
Qed.

Lemma extractFolderStructure_NoDup (files : list FileMetadata) :
  NoDup (map fst (extractFolderStructure files)).
Proof.
  unfold extractFolderStructure.
  assert (Hstart : NoDup (map fst (@nil (string * list string)))) by constructor.
  revert Hstart. generalize (@nil (string * list string)) as structure.
  induction files as [|f files IH]; intros structure Hnd; [exact Hnd|].
  cbn [fold_left]. apply IH. unfold add_file.
  destruct (relativePath f) as [rel|]; [|exact Hnd].
  destruct (truthy rel); [|exact Hnd].
  destruct (truthy (dirname rel) && negb (String.eqb (dirname rel) ".")); [|exact Hnd].
  apply add_prefixes_NoDup. exact Hnd.
Qed.

Lemma insert_by_depth_Permutation (x : string) (l : list string) :
  Permutation (x :: l) (insert_by_depth x l).
Proof.
  induction l as [|y l IH]; cbn [insert_by_depth]; [reflexivity|].
  destruct (Nat.leb (depth x) (depth y)); [reflexivity|].
  rewrite perm_swap. apply perm_skip. exact IH.
Qed.

Lemma sort_by_depth_Permutation (l : list string) : Permutation l (sort_by_depth l).
Proof.
  induction l as [|x l IH]; [reflexivity|].
  cbn [sort_by_depth]. rewrite <- insert_by_depth_Permutation. apply perm_skip. exact IH.
Qed.

Lemma sortedFolders_NoDup (files : list FileMetadata) : NoDup (sortedFolders files).
Proof.
  unfold sortedFolders.
  rewrite <- (sort_by_depth_Permutation (map fst (extractFolderStructure files))).
  apply extractFolderStructure_NoDup.
Qed.

(** X23. The folder paths derived from a batch are pairwise different,
    and sorting them keeps each of them exactly once, paths with fewer
    separators first: every folder is asked for once per batch. *)
Theorem sortedFolders_each_path_once (files : list FileMetadata) :
  NoDup (map fst (extractFolderStructure files))
  /\ Permutation (map fst (extractFolderStructure files)) (sortedFolders files)
  /\ NoDup (sortedFolders files)
  /\ StronglySorted shallower (sortedFolders files).
Proof.
  pose proof (extractFolderStructure_NoDup files) as Hnd.
  pose proof (sort_by_depth_Permutation (map fst (extractFolderStructure files))) as Hperm.
  split; [exact Hnd|]. split; [exact Hperm|]. split.
  - apply sortedFolders_NoDup.
  - apply sort_by_depth_shallower.
Qed.

Lemma no_structure_needed (files : list FileMetadata) :
  needsStructure files = false -> extractFolderStructure files = [].
Proof.
  unfold needsStructure, extractFolderStructure.
  generalize (@nil (string * list string)) as structure. intros structure Hneeds.
  assert (Hsame : fold_left add_file files structure = structure); [|].
  { revert structure. induction files as [|f files IH]; intros structure; [reflexivity|].
    cbn [existsb] in Hneeds. apply orb_false_iff in Hneeds as [Hf Hfiles].
    cbn [fold_left]. rewrite (IH Hfiles). unfold add_file.
    destruct (relativePath f) as [rel|]; [|reflexivity].
    destruct (truthy rel); [|reflexivity]. cbn [andb] in Hf.
    rewrite dirname_truthy, Hf. reflexivity. }
  exact Hsame.
Qed.

Variables accessToken folderId : string.

(** What the initial index has for "." stands for the destination. *)
Lemma initial_map_destination :
  parent_or_root (initial_map folderId !! ".") = destination folderId.
Proof.
  unfold initial_map, destination. destruct (String.eqb folderId "root").
  - rewrite lookup_empty. reflexivity.
  - rewrite lookup_singleton_eq. destruct folderId; reflexivity.
Qed.

(** A completed folder loop has placed every derived path and left the
    entry of "." alone. *)
Lemma build_folders_places_all (files : list FileMetadata) (w w' : World)
    (index : gmap string string) :
  ~ In "." (map fst (extractFolderStructure files)) ->
  build_folders accessToken (sortedFolders files) (initial_map folderId) w = (Ok index, w') ->
  (forall folderPath,
      In folderPath (map fst (extractFolderStructure files)) ->
      placed index (remote w') folderPath)
  /\ index !! "." = initial_map folderId !! ".".
Proof.
  intros Hdot Hrun.
  assert (Hdot' : ~ In "." (sortedFolders files))
    by (intros Hin; apply Hdot; unfold sortedFolders in Hin;
        apply (proj1 (sort_by_depth_In _ _)) in Hin; exact Hin).
  split.
  - intros folderPath Hkey.
    apply (build_folders_placed accessToken _ _ _ _ _ Hrun).
    + apply sortedFolders_NoDup.
    + intros before p after Hsplit Hin.
      assert (Hp : In p (map fst (extractFolderStructure files))).
      { apply sort_by_depth_In. fold (sortedFolders files). rewrite Hsplit.
        apply in_or_app. right. left. reflexivity. }
      destruct (extractFolderStructure_closed files p Hp) as [Htop|[_ Hdepth]].
      * apply Hdot'. rewrite Hsplit, <- Htop. apply in_or_app. right. exact Hin.
      * destruct Hin as [Heq|Hin]; [rewrite <- Heq in Hdepth; lia|].
        pose proof (sort_by_depth_sorted (map fst (extractFolderStructure files)))
          as Hsorted.
        fold (sortedFolders files) in Hsorted. rewrite Hsplit in Hsorted.
        apply sorted_after in Hsorted.
        rewrite Stdlib.Lists.List.Forall_forall in Hsorted.
        specialize (Hsorted _ Hin). unfold depth_le in Hsorted. lia.
    + apply sort_by_depth_In. exact Hkey.
  - apply (build_folders_keeps accessToken _ _ _ _ _ "." Hrun). exact Hdot'.
Qed.

(** X24. Once the hierarchy is built, Drive mirrors it: every derived
    folder path is mapped to a folder that is on Drive and not trashed; a
    path of one name to a folder of that name in the destination; a path
    [parent/name] to a folder named [name] in the folder mapped for
    [parent]. *)
Theorem hierarchy_mirrors_directories (files : list FileMetadata) (w w' : World)
    (index : gmap string string) :
  ~ In "." (map fst (extractFolderStructure files)) ->
  build_hierarchy accessToken folderId true files w = (Ok index, w') ->
  (forall folderPath,
      In folderPath (map fst (extractFolderStructure files)) ->
      mirrors folderId index (remote w') folderPath)
  /\ index !! "." = initial_map folderId !! ".".
Proof.
  intros Hdot Hrun. unfold build_hierarchy in Hrun.
  destruct (needsStructure files) eqn:Hneeds; cbn [andb] in Hrun.
  - destruct (build_folders_places_all files w w' index Hdot Hrun) as [Hplaced Hkept].
    split; [|exact Hkept].
    intros folderPath Hkey.
    destruct (Hplaced folderPath Hkey) as (folder & Hindex & Hlive & Hname & Hparent).
    exists folder. split; [exact Hindex|]. split; [exact Hlive|]. split.
    + intros Htop.
      rewrite (folderNamePart_of_top _ Htop) in Hname.
      rewrite (parentPath_of_top _ Htop), Hkept, initial_map_destination in Hparent.
      split; assumption.
    + intros parent name -> Hfree.
      rewrite (folderNamePart_of_child parent name Hfree) in Hname.
      destruct (parentPath_of_child parent name Hfree) as [Hup _].
      rewrite Hup in Hparent. split; [exact Hname|].
      assert (Hin : In parent (map fst (extractFolderStructure files))).
      { destruct (extractFolderStructure_listed files _ Hkey)
          as [Htop|(parent' & name' & Heq & Hfree' & Hin)];
          [destruct (child_not_slash_free _ _ Htop)|].
        destruct (child_unique _ _ _ _ Hfree Hfree' Heq) as [-> _]. exact Hin. }
      destruct (build_folders_mapped accessToken _ _ _ _ _ Hrun parent) as [parentId Hmapped].
      { left. apply sort_by_depth_In. exact Hin. }
      exists parentId. split; [exact Hmapped|].
      rewrite Hmapped in Hparent. destruct parentId; exact Hparent.
  - injection Hrun as <- <-. split; [|reflexivity].
    intros folderPath Hkey. rewrite (no_structure_needed files Hneeds) in Hkey.
    destruct Hkey.
Qed.

(** X25. Once the hierarchy is built, a unit with a directory in its
    relative path is uploaded under the folder the index gives for that
    directory, never under the destination. *)
Theorem nested_unit_goes_to_its_folder (files : list FileMetadata) (w w' : World)
    (index : gmap string string) (f : FileMetadata) (rel : string) :
  build_hierarchy accessToken folderId true files w = (Ok index, w') ->
  In f files ->
  relativePath f = Some rel ->
  truthy rel = true ->
  dirname rel <> "." ->
  is_relative (dirname rel) ->
  exists mapped,
    index !! dirname rel = Some mapped
    /\ parent_of_file folderId true index f = Some mapped.
Proof.
  intros Hrun Hin Hrel Htruthy Hdot Hrelative.
  assert (Hkey : In (dirname rel) (map fst (extractFolderStructure files))).
  { rewrite <- (join_split_slash (dirname rel)) at 1.
    rewrite <- (firstn_all (split_slash (dirname rel))).
    apply (extractFolderStructure_prefixes files f rel _ Hin Hrel Htruthy Hdot Hrelative).
    pose proof (split_slash_nonempty (dirname rel)).
    destruct (split_slash (dirname rel)); [congruence|cbn [length]; lia]. }
  unfold build_hierarchy in Hrun.
  assert (Hneeds : needsStructure files = true).
  { unfold needsStructure. apply existsb_exists. exists f. split; [exact Hin|].
    rewrite Hrel, Htruthy. cbn [andb]. apply negb_true_iff, String.eqb_neq. exact Hdot. }
  rewrite Hneeds in Hrun. cbn [andb] in Hrun.
  destruct (build_folders_mapped accessToken _ _ _ _ _ Hrun (dirname rel))
    as [mapped Hmapped].
  { left. apply sort_by_depth_In. exact Hkey. }
  exists mapped. split; [exact Hmapped|].
  unfold parent_of_file. rewrite Hrel, Htruthy, Hmapped. cbn [andb].
  apply String.eqb_neq in Hdot. rewrite Hdot. reflexivity.
Qed.

End StructureMore.

(** ** How a batch ends *)
Section OutcomeFacts.
Import Text Types Env FileUtils Drive Upload Policy Statements Scenario.

Lemma upload_files_never_throws (accessToken folderId : string) (hasFolders : bool)
    (folderIdMap : gmap string string) (files : list FileMetadata) :
  forall (results : list UploadResult) (w : World),
    is_Ok (fst (upload_files accessToken folderId hasFolders folderIdMap files results w))
    = true.
Proof.
  induction files as [|f files IH]; intros results w; [reflexivity|].
  destruct (uploadFileWithRetry (file_path f) (file_name f) (file_mimeType f) accessToken
              (parent_of_file folderId hasFolders folderIdMap f) defaultMaxRetries w)
    as [r w1] eqn:Hrun.
  rewrite (upload_files_step _ _ _ _ f files results w w1 r Hrun). apply IH.
Qed.

(** X26. When [handleUpload] ends in the error toast, no upload has
    been attempted and no answer to an upload or permission request has
    been used: a batch is never started on a hierarchy that could not be
    built, nor without a token. *)
Theorem handleUpload_abort_uploads_nothing (account : option Auth.GoogleAccount)
    (files : list FileMetadata) (tokens : gmap string Auth.TokenSet)
    (refreshAnswer : Auth.RefreshAnswer) (fs : node) (selectedPaths : list string)
    (clipboardWorks : bool) (folderId folderName : string) (w w' : World)
    (shown : Toast) :
  handleUpload account files tokens refreshAnswer fs selectedPaths clipboardWorks
               folderId folderName w = (Aborted shown, w') ->
  upload_attempts w' = upload_attempts w
  /\ uploads_side w' = uploads_side w
  /\ style shown = Failure.
Proof.
  unfold handleUpload. destruct account as [acc|]; [|discriminate].
  unfold await at 1.
  destruct (fst (Auth.getValidAccessToken acc tokens refreshAnswer)) as [accessToken|msg].
  - unfold await at 1. unfold build_hierarchy.
    set (hasFolders := existsb (isDirectory fs) selectedPaths).
    destruct (needsStructure files && hasFolders).
    + destruct (build_folders_sides accessToken (sortedFolders files)
                  (initial_map folderId) w) as [Hu Ha].
      destruct (build_folders accessToken (sortedFolders files) (initial_map folderId) w)
        as [[folderIdMap|msg] w1]; cbn [snd] in Hu, Ha.
      * pose proof (upload_files_never_throws accessToken folderId hasFolders folderIdMap
                      files [] w1) as Hok.
        destruct (upload_files accessToken folderId hasFolders folderIdMap files [] w1)
          as [[results|msg] w2]; [discriminate|discriminate Hok].
      * intros H. injection H as <- <-. repeat split; assumption.
    + cbn [resolve].
      pose proof (upload_files_never_throws accessToken folderId hasFolders
                    (initial_map folderId) files [] w) as Hok.
      destruct (upload_files accessToken folderId hasFolders (initial_map folderId) files [] w)
        as [[results|msg] w2]; [discriminate|discriminate Hok].
  - intros H. injection H as <- <-. repeat split.
Qed.

Lemma handleUpload_abort_uploads_nothing_witness :
  upload_attempts
    (snd (handleUpload (Some account_A) flattened fresh_tokens
            (Auth.NetworkFailure "unused") disk
            ["/Users/a/doc.pdf"; "/Users/a/photos/"] true "root" "My Drive"
            token_revoked))
  = [].
Proof.
  destruct (handleUpload_abort_uploads_nothing (Some account_A) flattened fresh_tokens
              (Auth.NetworkFailure "unused") disk
              ["/Users/a/doc.pdf"; "/Users/a/photos/"] true "root" "My Drive"
              token_revoked
              (set_searchNet [] (log (EvSearch "photos" "root") token_revoked))
              {| style := Failure; message := Some AUTHENTICATION_EXPIRED |})
    as (Hattempts & _ & _).
  - vm_compute. reflexivity.
  - etransitivity; [|etransitivity; [exact Hattempts|vm_compute; reflexivity]].
    vm_compute. reflexivity.
Defined.

Lemma none_succeeded (results : list UploadResult) :
  length (List.filter success results) = 0 <-> Forall (fun r => success r = false) results.
Proof.
  induction results as [|r results IH].
  - split; [constructor|reflexivity].
  - cbn [List.filter]. destruct (success r) eqn:Hr.
    + split; [discriminate|]. intros H. inversion H; congruence.
    + rewrite IH. split; [intros H; constructor; assumption|].
      intros H. inversion H; assumption.
Qed.

Lemma some_failed (results : list UploadResult) :
  forallb success results = false <-> Exists (fun r => success r = false) results.
Proof.
  induction results as [|r results IH].
  - split; [discriminate|]. intros H. inversion H.
  - cbn [forallb]. destruct (success r) eqn:Hr; cbn [andb].
    + rewrite IH. split; [intros H; right; exact H|].
      intros H. inversion H; [congruence|assumption].
    + split; [intros _; left; exact Hr|reflexivity].
Qed.

(** X27. The toast is the failure toast exactly when there are results
    and none of them succeeded; whenever something is copied to the
    clipboard, the clipboard works and every result succeeded; and a
    message is always shown. *)
Theorem report_outcome (folderId folderName : string) (clipboardWorks : bool)
    (results : list UploadResult) :
  (style (toast (report folderId folderName clipboardWorks results)) = Failure
   <-> results <> [] /\ Forall (fun r => success r = false) results)
  /\ (copied (report folderId folderName clipboardWorks results) <> None ->
      clipboardWorks = true /\ Forall (fun r => success r = true) results)
  /\ message (toast (report folderId folderName clipboardWorks results)) <> None.
Proof.
  unfold report. rewrite count_failed_zero.
  destruct (forallb success results) eqn:Hall.
  - split; [|split].
    + split.
      * intros H. exfalso.
        destruct (match (if Nat.eqb (length (List.filter success results)) 1
                         then first_link results else None) with
                  | Some link => Some (link, "Link copied to clipboard")
                  | None => _
                  end) as [[link note]|]; [destruct clipboardWorks|]; discriminate H.
      * intros [Hne Hfailed]. exfalso. destruct results as [|r results]; [congruence|].
        inversion Hfailed; subst. cbn [forallb] in Hall. apply andb_true_iff in Hall.
        destruct Hall. congruence.
    + intros Hcopied. split.
      * destruct (match (if Nat.eqb (length (List.filter success results)) 1
                         then first_link results else None) with
                  | Some link => Some (link, "Link copied to clipboard")
                  | None => _
                  end) as [[link note]|]; [destruct clipboardWorks|];
          cbn in Hcopied; congruence.
      * apply Stdlib.Lists.List.Forall_forall. intros r Hr.
        rewrite forallb_forall in Hall. apply Hall. exact Hr.
    + destruct (match (if Nat.eqb (length (List.filter success results)) 1
                       then first_link results else None) with
                | Some link => Some (link, "Link copied to clipboard")
                | None => _
                end) as [[link note]|]; [destruct clipboardWorks|]; discriminate.
  - destruct (Nat.ltb 0 (length (List.filter success results))) eqn:Hsome.
    + split; [|split; [cbn; congruence|discriminate]].
      split; [discriminate|]. intros [_ Hfailed]. exfalso.
      apply none_succeeded in Hfailed. rewrite Hfailed in Hsome. discriminate Hsome.
    + split; [|split; [cbn; congruence|discriminate]].
      split; [|reflexivity]. intros _. split.
      * intros ->. discriminate Hall.
      * apply none_succeeded. apply Nat.ltb_ge in Hsome. lia.
Qed.

End OutcomeFacts.

(** ** Scenarios for the account store and the folders *)
Section MoreWitnesses.
Import Text Auth Types Env FileUtils Drive Upload Accounts FolderStorage Finder Policy
  Statements Scenario Cases.

Lemma two_accounts_well_formed : well_formed (getStoredAccounts two_accounts).
Proof.
  split; [|split].
  - cbn. apply NoDup_cons. split; [|apply NoDup_singleton].
    intros Hin. apply list_elem_of_singleton in Hin. discriminate Hin.
  - discriminate.
  - intros _. exists "A". split; [reflexivity|left; reflexivity].
Defined.

Lemma account_store_stays_well_formed_witness :
  well_formed (getStoredAccounts (removeAccount "A" two_accounts))
  /\ well_formed (getStoredAccounts
                    (snd (addAccount "ya29.c" "google-drive-3" (HttpOk info_of_B)
                            two_accounts))).
Proof.
  destruct (account_store_stays_well_formed two_accounts two_accounts_well_formed)
    as (Hremove & Hadd & _ & _).
  split; [apply Hremove|apply Hadd].
Defined.

Lemma getDefaultAccount_of_well_formed_witness :
  getDefaultAccount two_accounts = Some account_A
  /\ In account_A (getAccounts two_accounts).
Proof.
  destruct (getDefaultAccount_of_well_formed two_accounts two_accounts_well_formed)
    as [_ Hfound].
  split; [reflexivity|]. apply (Hfound account_A). reflexivity.
Defined.

Lemma ensureFolder_returns_live_folder_witness :
  In (photos_folder, false)
     (remote (snd (ensureFolder "photos" "token-a" None flaky_search))).
Proof.
  destruct (ensureFolder_returns_live_folder "photos" "token-a" None flaky_search
              (snd (ensureFolder "photos" "token-a" None flaky_search)) photos_folder)
    as (_ & _ & Hlive & _).
  - vm_compute. reflexivity.
  - exact Hlive.
Defined.

Lemma hierarchy_mirrors_directories_witness :
  exists index w' folder,
    build_hierarchy "token-a" "DEST" true flattened empty_drive = (Ok index, w')
    /\ index !! "photos/sub" = Some (gfolder_id folder)
    /\ In (folder, false) (remote w')
    /\ gfolder_name folder = "sub"
    /\ index !! "photos" = Some "N1"
    /\ In "N1" (gfolder_parents folder).
Proof.
  pose (run := build_hierarchy "token-a" "DEST" true flattened empty_drive).
  assert (Hrun : run = (Ok (match fst run with Ok index => index | Throw _ => ∅ end),
                        snd run)) by (vm_compute; reflexivity).
  destruct (hierarchy_mirrors_directories "token-a" "DEST" flattened empty_drive (snd run)
              (match fst run with Ok index => index | Throw _ => ∅ end))
    as [Hmirrors _].
  - vm_compute. intros [H|[H|[]]]; discriminate H.
  - exact Hrun.
  - destruct (Hmirrors "photos/sub") as (folder & Hindex & Hlive & _ & Hnested).
    { vm_compute. right. left. reflexivity. }
    destruct (Hnested "photos" "sub") as (Hname & parentId & Hparent & Hlies).
    { reflexivity. }
    { vm_compute. repeat split; discriminate. }
    assert (HparentId : parentId = "N1")
      by (vm_compute in Hparent; injection Hparent as <-; reflexivity).
    subst parentId.
    eexists _, _, folder. split; [exact Hrun|].
    split; [exact Hindex|]. split; [exact Hlive|]. split; [exact Hname|].
    split; [exact Hparent|exact Hlies].
Defined.

Lemma nested_unit_goes_to_its_folder_witness :
  exists index w',
    build_hierarchy "token-a" "DEST" true flattened empty_drive = (Ok index, w')
    /\ parent_of_file "DEST" true index
         (octet_stream "/Users/a/photos/sub/y.png" "y.png" 400 (Some "photos/sub/y.png"))
       = Some "N2".
Proof.
  pose (run := build_hierarchy "token-a" "DEST" true flattened empty_drive).
  assert (Hrun : run = (Ok (match fst run with Ok index => index | Throw _ => ∅ end),
                        snd run)) by (vm_compute; reflexivity).
  destruct (nested_unit_goes_to_its_folder "token-a" "DEST" flattened empty_drive (snd run)
              (match fst run with Ok index => index | Throw _ => ∅ end)
              (octet_stream "/Users/a/photos/sub/y.png" "y.png" 400 (Some "photos/sub/y.png"))
              "photos/sub/y.png")
    as (mapped & Hmapped & Hparent).
  - exact Hrun.
  - right. right. left. reflexivity.
  - reflexivity.
  - reflexivity.
  - vm_compute. discriminate.
  - unfold is_relative. vm_compute. discriminate.
  - eexists _, _. split; [exact Hrun|].
    etransitivity; [exact Hparent|]. rewrite <- Hmapped. vm_compute. reflexivity.
Defined.

Lemma addAccount_upserts_witness :
  exists account stored',
    addAccount "ya29.c" "google-drive-3" (HttpOk info_of_B) two_accounts
    = (Ok account, Some stored')
    /\ map acct_id (accounts stored') = ["A"; "B"]
    /\ In account (accounts stored').
Proof.
  pose proof (addAccount_upserts "ya29.c" "google-drive-3" info_of_B two_accounts) as H.
  cbv zeta in H.
  destruct H as [(account & stored' & Hrun & _ & _ & _ & Hin & _ & Hsame & _) _].
  exists account, stored'. split; [exact Hrun|]. split; [|exact Hin].
  etransitivity; [apply Hsame|reflexivity].
  vm_compute. right. left. reflexivity.
Defined.

Lemma default_folder_is_one_slot_witness :
  getDefaultFolder (Some "A") (setDefaultFolder folder_of_B (setDefaultFolder folder_of_A None))
  = None
  /\ (getDefaultFolder (Some "B") (setDefaultFolder folder_of_B None) = Some folder_of_B
      <-> (Some "B" = None \/ Some "B" = Some EmptyString
           \/ Some "B" = Some (folder_accountId folder_of_B))).
Proof.
  destruct (default_folder_is_one_slot folder_of_B None) as (Hreturned & _ & Hlost).
  split.
  - apply (Hlost folder_of_A); [reflexivity|]. vm_compute. discriminate.
  - apply Hreturned.
Defined.

Lemma getSelectedFinderFiles_paths_witness :
  getSelectedFinderFiles (Ok blank_text) = [].
Proof.
  destruct (getSelectedFinderFiles_paths (Ok blank_text)) as (_ & _ & Hblank).
  apply Hblank. vm_compute. reflexivity.
Defined.

Lemma report_outcome_witness :
  style (toast (report "F" "Scans" true [failed_with "Failed to upload file: 500 busy" unit_1]))
  = Failure.
Proof.
  apply (proj2 (proj1 (report_outcome "F" "Scans" true
                         [failed_with "Failed to upload file: 500 busy" unit_1]))).
  split; [discriminate|]. repeat constructor.
Defined.

End MoreWitnesses.
